(** * SAT question-bank scraper: a shallow embedding of [scraper.py]

    The development follows [src/data/scraper/scraper.py]:

    - Python values read from JSON are the inductive type [json]; Python's
      [or], truthiness, [==] and [in] are [py_or], [py_truthy], [py_eq] and
      [py_in];
    - an exception is a [Raise] outcome of type [result];
    - the cache directory, the persisted output and the log of the requests
      sent form the [world] that the effectful functions ([io]) read and
      change;
    - BeautifulSoup's parse tree is the type [node]; the elements a loop
      visits are held by their position in the tree, and [replace_with]
      changes the tree at that position;
    - BeautifulSoup's parser, [urljoin], the order that [sorted] gives to
      lists of lists, the upstream service and [random.shuffle] are libraries
      or the outside world and enter as the fields of [externals].

    A Python [str] is the [string] of its UTF-8 bytes.  Floating-point JSON
    numbers, sleeping, printing and the image download (switched off by
    [DOWNLOAD_MEDIA = False]) are outside the model.  The cache directory is
    flat: an identifier names the file right under it, and what the file
    system does with an identifier that holds a path separator is not
    modelled.  The list stage
    ([fetch_list]) and the CSV export ([write_csv]) are modelled on their own:
    [main] takes the work queue as an argument and ends before the export.

    The first part of the file holds the definitions, the second part the
    properties proved about them. *)

From Stdlib Require Import Ascii ZArith Permutation Sorted.
From stdpp Require Import base option list gmap strings pretty.

Open Scope Z_scope.

#[local] Set Warnings "-register-all".

(** ** Exceptions and outcomes *)

Inductive exn :=
| TypeError
| AttributeError
| JSONDecodeError
| ValueError
| ParserRejectedMarkup
| ConnectionError.

Inductive result (A : Type) :=
| Ok (a : A)
| Raise (e : exn).
Arguments Ok {A} a.
Arguments Raise {A} e.

Definition result_bind {A B} (f : A → result B) (r : result A) : result B :=
  match r with
  | Ok a => f a
  | Raise e => Raise e
  end.

#[global] Instance result_mret : MRet result := @Ok.
#[global] Instance result_mbind : MBind result := @result_bind.

(** [for x in xs: body] where the body may raise. *)
Fixpoint mapM_result {A B} (f : A → result B) (xs : list A) : result (list B) :=
  match xs with
  | [] => Ok []
  | x :: xs' => y ← f x; ys ← mapM_result f xs'; Ok (y :: ys)
  end.

(** ** JSON values as Python sees them *)

Inductive json :=
| JNull
| JBool (b : bool)
| JNum (n : Z)
| JStr (s : string)
| JList (l : list json)
| JDict (kv : list (string * json)).

(** [d.get(k)] on the items of a dict: [None] when the key is absent. *)
Fixpoint dict_get (kv : list (string * json)) (k : string) : option json :=
  match kv with
  | [] => None
  | (k', v) :: kv' => if String.eqb k' k then Some v else dict_get kv' k
  end.

(** [bool(x)]. *)
Definition py_truthy (x : json) : bool :=
  match x with
  | JNull => false
  | JBool b => b
  | JNum n => negb (n =? 0)
  | JStr s => negb (String.eqb s "")
  | JList l => negb (Nat.eqb (length l) 0)
  | JDict kv => negb (Nat.eqb (length kv) 0)
  end.

(** [x or y]. *)
Definition py_or (x y : json) : json := if py_truthy x then x else y.

(** A missing key and a JSON null both read as [None]. *)
Definition of_opt (o : option json) : json := default JNull o.

Definition opt_str (o : option string) : json :=
  match o with
  | Some s => JStr s
  | None => JNull
  end.

(** [x == y]: booleans compare as the integers 0 and 1, lists by position,
    dicts by key. *)
Fixpoint py_eq (a b : json) {struct a} : bool :=
  match a, b with
  | JNull, JNull => true
  | JBool x, JBool y => Bool.eqb x y
  | JBool x, JNum y => Z.b2z x =? y
  | JNum x, JBool y => x =? Z.b2z y
  | JNum x, JNum y => x =? y
  | JStr x, JStr y => String.eqb x y
  | JList xs, JList ys =>
      (fix go (xs ys : list json) : bool :=
         match xs, ys with
         | [], [] => true
         | x :: xs', y :: ys' => py_eq x y && go xs' ys'
         | _, _ => false
         end) xs ys
  | JDict xs, JDict ys =>
      Nat.eqb (length xs) (length ys) &&
      (fix go (xs : list (string * json)) : bool :=
         match xs with
         | [] => true
         | (k, v) :: xs' =>
             match dict_get ys k with
             | Some w => py_eq v w
             | None => false
             end && go xs'
         end) xs
  | _, _ => false
  end.

(** [x in l] for a list [l]. *)
Definition py_in (x : json) (l : list json) : bool := existsb (py_eq x) l.

(** ** Strings

    A Python [str] is held as the bytes of its UTF-8 encoding.  What
    [str.split], [str.strip] and the class [\s] of [re] take for a blank is
    any character that [str.isspace] accepts: the ASCII blanks and the
    other blank characters of Unicode, which take two or three bytes. *)

(** An ASCII character that [str.isspace] accepts. *)
Definition is_space (c : ascii) : bool :=
  let n := nat_of_ascii c in
  ((9 <=? n)%nat && (n <=? 13)%nat) || ((28 <=? n)%nat && (n <=? 32)%nat).

(** The two bytes of U+0085 or of U+00A0. *)
Definition is_space2 (c d : ascii) : bool :=
  let c := nat_of_ascii c in
  let d := nat_of_ascii d in
  (c =? 194)%nat && ((d =? 133)%nat || (d =? 160)%nat).

(** The three bytes of U+1680, of U+2000 to U+200A, of U+2028, U+2029,
    U+202F, U+205F or of U+3000. *)
Definition is_space3 (c d e : ascii) : bool :=
  let c := nat_of_ascii c in
  let d := nat_of_ascii d in
  let e := nat_of_ascii e in
  ((c =? 225)%nat && (d =? 154)%nat && (e =? 128)%nat)
  || ((c =? 226)%nat && (d =? 128)%nat
      && (((128 <=? e)%nat && (e <=? 138)%nat)
          || (e =? 168)%nat || (e =? 169)%nat || (e =? 175)%nat))
  || ((c =? 226)%nat && (d =? 129)%nat && (e =? 159)%nat)
  || ((c =? 227)%nat && (d =? 128)%nat && (e =? 128)%nat).

(** The number of bytes of the blank character that [s] starts with; [0]
    when [s] does not start with a blank. *)
Definition blank_len (s : string) : nat :=
  match s with
  | String c s1 =>
      if is_space c then 1 else
      match s1 with
      | String d s2 =>
          if is_space2 c d then 2 else
          match s2 with
          | String e _ => if is_space3 c d e then 3 else 0
          | EmptyString => 0
          end
      | EmptyString => 0
      end
  | EmptyString => 0
  end%nat.

Fixpoint str_take (n : nat) (s : string) : string :=
  match n, s with
  | S n', String c s' => String c (str_take n' s')
  | _, _ => ""
  end.

(** A string as the string methods read it, from left to right: a blank
    character with its bytes, or a byte of any other character. *)
Inductive token :=
| Blank (bytes : string)
| Byte (c : ascii).

(** [skip] counts the bytes still to pass of the blank being read. *)
Fixpoint tokens_from (skip : nat) (s : string) : list token :=
  match s with
  | EmptyString => []
  | String c s' =>
      match skip with
      | S k => tokens_from k s'
      | O =>
          match blank_len s with
          | S n => Blank (str_take (S n) s) :: tokens_from n s'
          | O => Byte c :: tokens_from 0 s'
          end
      end
  end.

Definition tokens (s : string) : list token := tokens_from 0 s.

Definition token_text (t : token) : string :=
  match t with
  | Blank bytes => bytes
  | Byte c => String c ""
  end.

Fixpoint untokens (l : list token) : string :=
  match l with
  | [] => ""
  | t :: l' => token_text t +:+ untokens l'
  end.

Definition is_blank (t : token) : bool :=
  match t with
  | Blank _ => true
  | Byte _ => false
  end.

Definition str_nonempty (s : string) : bool := negb (String.eqb s "").

(** [s.split()]: the maximal runs of non-blank characters; [w] is the run
    being read. *)
Fixpoint py_split_aux (w : string) (l : list token) : list string :=
  match l with
  | [] => if str_nonempty w then [w] else []
  | Blank _ :: l' =>
      if str_nonempty w then w :: py_split_aux "" l' else py_split_aux "" l'
  | Byte c :: l' => py_split_aux (w +:+ String c "") l'
  end.

Definition py_split (s : string) : list string := py_split_aux "" (tokens s).

(** [sep.join(l)]. *)
Fixpoint py_join (sep : string) (l : list string) : string :=
  match l with
  | [] => ""
  | [x] => x
  | x :: l' => x +:+ sep +:+ py_join sep l'
  end.

Fixpoint lstrip (l : list token) : list token :=
  match l with
  | Blank _ :: l' => lstrip l'
  | _ => l
  end.

Fixpoint rstrip (l : list token) : list token :=
  match l with
  | [] => []
  | t :: l' =>
      match t, rstrip l' with
      | Blank _, [] => []
      | _, r => t :: r
      end
  end.

(** [s.strip()]. *)
Definition py_strip (s : string) : string := untokens (rstrip (lstrip (tokens s))).

(** [needle in hay] for two strings. *)
Fixpoint py_contains (needle hay : string) : bool :=
  String.prefix needle hay ||
  match hay with
  | EmptyString => false
  | String _ hay' => py_contains needle hay'
  end.

Definition compact_text (s : string) : string := py_join " " (py_split s).

(** A byte that continues a character of several bytes. *)
Definition is_continuation (c : ascii) : bool :=
  let n := nat_of_ascii c in (128 <=? n)%nat && (n <? 192)%nat.

(** The characters of a string, as [list(s)] gives them: every byte that is
    not a continuation byte starts one; [cur] is the character being read. *)
Fixpoint py_chars_aux (cur : string) (s : string) : list string :=
  match s with
  | EmptyString => if str_nonempty cur then [cur] else []
  | String c s' =>
      if is_continuation c then py_chars_aux (cur +:+ String c "") s'
      else if str_nonempty cur then cur :: py_chars_aux (String c "") s'
           else py_chars_aux (String c "") s'
  end.

Definition py_chars (s : string) : list string := py_chars_aux "" s.

(** ** The parse tree of BeautifulSoup

    A [NavigableString] is a piece of text.  A [SpecialString] is a string
    of one of the classes that BeautifulSoup keeps apart: a CDATA section, and
    the text that the parser found inside a [script], [style], [template],
    [rt] or [rp] element.  [Comment] stands for the classes that no
    [get_text] gives (comments, declarations, doctypes, processing
    instructions).  A [Tag] carries its lower-case name, its attributes as
    written, and its children.  The soup itself is the list of top-level
    nodes. *)

Inductive string_class :=
| CData
| Script
| Stylesheet
| TemplateString
| RubyTextString
| RubyParenthesisString.

#[global] Instance string_class_eq_dec : EqDecision string_class.
Proof. solve_decision. Defined.

Inductive node :=
| NavigableString (s : string)
| Comment (s : string)
| SpecialString (c : string_class) (s : string)
| Tag (name : string) (attrs : gmap string string) (children : list node).

Abbreviation soup := (list node).

(** The position of a node: the indices of the children to follow from the
    top of the soup. *)
Abbreviation path := (list nat).

(** [tag.get(k)] for an attribute that holds one string. *)
Definition attr_get (n : node) (k : string) : option string :=
  match n with
  | Tag _ at_ _ => at_ !! k
  | _ => None
  end.

(** [tag.get(k) or dflt]. *)
Definition attr_or (n : node) (k dflt : string) : string :=
  match attr_get n k with
  | Some v => if str_nonempty v then v else dflt
  | None => dflt
  end.

(** [tag.get("class") or []]: the HTML builder stores [class] as the list
    of its blank-separated values. *)
Definition attr_class (n : node) : list string :=
  match attr_get n "class" with
  | Some v => py_split v
  | None => []
  end.

Definition is_tag (nm : string) (n : node) : bool :=
  match n with
  | Tag nm' _ _ => String.eqb nm' nm
  | _ => false
  end.

Definition has_attr (k v : string) (n : node) : bool :=
  match attr_get n k with
  | Some v' => String.eqb v' v
  | None => false
  end.

(** The descendants of a node in document order, each with its position
    relative to the node. *)
Fixpoint descendants (n : node) : list (path * node) :=
  match n with
  | Tag _ _ ch =>
      (fix go (k : nat) (ch : list node) : list (path * node) :=
         match ch with
         | [] => []
         | c :: ch' =>
             ([k], c) :: map (λ pn, (k :: pn.1, pn.2)) (descendants c) ++ go (S k) ch'
         end) 0%nat ch
  | _ => []
  end.

(** The same walk over a list of siblings whose first index is [k]. *)
Fixpoint descendants_from (k : nat) (ch : list node) : list (path * node) :=
  match ch with
  | [] => []
  | c :: ch' =>
      ([k], c) :: map (λ pn, (k :: pn.1, pn.2)) (descendants c)
        ++ descendants_from (S k) ch'
  end.

(** [soup.find_all(...)]: the matching elements, listed once, before the
    loop over them starts. *)
Definition find_all (p : node → bool) (s : soup) : list (path * node) :=
  filter (λ pn, p pn.2 = true) (descendants_from 0 s).

(** [el.replace_with(text)] for the element at position [p]: the element is
    unlinked and a new string takes its place among its siblings.  When an
    ancestor of the element has been replaced before, the element is no longer
    part of the soup and the soup does not change. *)
Fixpoint replace_with (p : path) (text : string) (s : soup) : soup :=
  match p with
  | [] => s
  | i :: p' =>
      match p', s !! i with
      | [], Some _ => <[i := NavigableString text]> s
      | _ :: _, Some (Tag nm at_ ch) => <[i := Tag nm at_ (replace_with p' text ch)]> s
      | _, _ => s
      end
  end.

(** The node at position [p], if the position still leads to one. *)
Fixpoint node_at (p : path) (s : soup) : option node :=
  match p with
  | [] => None
  | i :: p' =>
      match p', s !! i with
      | [], o => o
      | _ :: _, Some (Tag _ _ ch) => node_at p' ch
      | _, _ => None
      end
  end.

(** The element a loop holds, as it is when its turn comes: the node at its
    position while the element is part of the soup, and the element as it was
    found once an ancestor has been replaced. *)
Definition element_now (pn : path * node) (cur : soup) : node :=
  default pn.2 (node_at pn.1 cur).

(** The builder's [string_containers]: the class of the strings inside an
    element of this name. *)
Definition string_container (nm : string) : option string_class :=
  if String.eqb nm "rt" then Some RubyTextString
  else if String.eqb nm "rp" then Some RubyParenthesisString
  else if String.eqb nm "style" then Some Stylesheet
  else if String.eqb nm "script" then Some Script
  else if String.eqb nm "template" then Some TemplateString
  else None.

(** The [interesting_string_types] of a node: the class of its own strings
    for an element that is a string container, and else ([None])
    [NavigableString] and [CData]. *)
Definition interesting_string_types (n : node) : option string_class :=
  match n with
  | Tag nm _ _ => string_container nm
  | _ => None
  end.

(** The text of a string node whose class is exactly one of [types]. *)
Definition string_of_types (types : option string_class) (n : node) : option string :=
  match n, types with
  | NavigableString s, None => Some s
  | SpecialString CData s, None => Some s
  | SpecialString c s, Some c' => if decide (c = c') then Some s else None
  | _, _ => None
  end.

(** The pieces of text under a node, as [_all_strings(strip=True, types)]
    walks them: every string of the classes asked for is stripped and the
    empty ones are dropped. *)
Fixpoint stripped_strings (types : option string_class) (n : node) : list string :=
  match n with
  | Tag _ _ ch => flat_map (stripped_strings types) ch
  | _ =>
      match string_of_types types n with
      | Some s => let t := py_strip s in if str_nonempty t then [t] else []
      | None => []
      end
  end.

(** [node.get_text(" ", strip=True)]: the strings asked for are the
    [interesting_string_types] of the node. *)
Definition get_text (n : node) : string :=
  py_join " " (stripped_strings (interesting_string_types n) n).

(** [soup.get_text(" ", strip=True)]: the soup object is no string
    container. *)
Definition soup_get_text (s : soup) : string :=
  py_join " " (flat_map (stripped_strings None) s).

(** ** The outside world *)

(** One POST to the detail endpoint. *)
Record request := { req_id : string; req_timeout : Z }.

(** What one POST comes back with: a read or connect timeout (caught by the
    retry loop), any other exception of the transport (not caught), or an
    HTTP response whose body parses as JSON ([Some]) or does not ([None]). *)
Inductive response :=
| Timeout
| TransportError (e : exn)
| Http (status : Z) (body : option json).

Record externals := {
  (** [BeautifulSoup(html, "html.parser")]; [None] when the parser rejects
      the markup. *)
  parse : string → option soup;
  (** [urljoin(base, src)]; [None] when it raises [ValueError], as it does
      for an address that opens a bracket it never closes. *)
  urljoin : string → string → option string;
  (** The order [sorted] gives a list of lists, which Python compares
      element by element: the rank of each position in the result, or [None]
      when a comparison raises. *)
  sorted_lists : list json → option (list nat);
  (** [str(tag)]: the markup of an element. *)
  tag_str : node → string;
  (** The answer of the upstream service to the [n]-th request of the run. *)
  upstream : nat → request → response;
  (** [random.shuffle]. *)
  shuffle : list string → list string
}.

(** ** Plaintext mirror *)

(** [img.get("alt") or img.get("aria-label") or "[image]"]. *)
Definition img_text (img : node) : string :=
  attr_or img "alt" (attr_or img "aria-label" "[image]").

(** [svg.get("aria-label") or "[svg graphic]"]. *)
Definition svg_text (svg : node) : string :=
  attr_or svg "aria-label" "[svg graphic]".

(** ["sr-only" in cls or region.get("aria-label")]. *)
Definition region_selected (region : node) : bool :=
  bool_decide ("sr-only" ∈ attr_class region)
  || str_nonempty (attr_or region "aria-label" "").

Definition make_soup (X : externals) (html : json) : result soup :=
  match html with
  | JStr h =>
      match parse X h with
      | Some s => Ok s
      | None => Raise ParserRejectedMarkup
      end
  | _ => Raise TypeError
  end.

(** The body of [html_to_plaintext_preserving_math_images] once the markup
    is parsed: the three loops, each over the elements found before it starts,
    then the text of what is left.  The attributes of an element never
    change; the text of a region is read from the element as it is when its
    turn comes. *)
Definition soup_to_plaintext (s : soup) : string :=
  let s := fold_left (λ cur pn, replace_with pn.1 (img_text pn.2) cur)
             (find_all (is_tag "img") s) s in
  let s := fold_left (λ cur pn, replace_with pn.1 (svg_text pn.2) cur)
             (find_all (is_tag "svg") s) s in
  let s := fold_left (λ cur pn,
               if region_selected pn.2
               then replace_with pn.1 (compact_text (get_text (element_now pn cur))) cur
               else cur)
             (find_all (has_attr "role" "region") s) s in
  compact_text (soup_get_text s).

Definition html_to_plaintext_preserving_math_images
    (X : externals) (html : json) : result string :=
  if negb (py_truthy html) then Ok "" else
  s ← make_soup X html;
  Ok (soup_to_plaintext s).

(** *** The plaintext mirror as the specification words it

    Each step is a function on trees: an element that is replaced becomes a
    string, any other element keeps its name and attributes and has the step
    applied to its children. *)

Fixpoint replace_elements (f : node → option string) (n : node) : node :=
  match f n with
  | Some t => NavigableString t
  | None =>
      match n with
      | Tag nm at_ ch => Tag nm at_ (map (replace_elements f) ch)
      | _ => n
      end
  end.

Definition nonempty_attr (n : node) (k : string) : option string :=
  match attr_get n k with
  | Some v => if str_nonempty v then Some v else None
  | None => None
  end.

(** An image element: its alt text, else its aria-label, else ["[image]"]. *)
Definition spec_image (n : node) : option string :=
  if is_tag "img" n then
    match nonempty_attr n "alt", nonempty_attr n "aria-label" with
    | Some alt, _ => Some alt
    | None, Some label => Some label
    | None, None => Some "[image]"
    end
  else None.

(** An inline SVG element: its aria-label, else ["[svg graphic]"]. *)
Definition spec_svg (n : node) : option string :=
  if is_tag "svg" n then
    match nonempty_attr n "aria-label" with
    | Some label => Some label
    | None => Some "[svg graphic]"
    end
  else None.

(** What counts as text under an element, as the specification has it: the
    running text and the CDATA sections; under an element that holds a script,
    a style sheet, a template or a ruby annotation, what that element holds. *)
Definition is_text (n : node) : bool :=
  match n with
  | NavigableString _ | SpecialString CData _ => true
  | _ => false
  end.

Definition has_class (c : string_class) (n : node) : bool :=
  match n with
  | SpecialString c' _ => bool_decide (c' = c)
  | _ => false
  end.

Definition text_kind (n : node) : node → bool :=
  if is_tag "script" n then has_class Script
  else if is_tag "style" n then has_class Stylesheet
  else if is_tag "template" n then has_class TemplateString
  else if is_tag "rt" n then has_class RubyTextString
  else if is_tag "rp" n then has_class RubyParenthesisString
  else is_text.

(** The pieces of text under a node, in document order and as they are
    written. *)
Fixpoint text_pieces (kind : node → bool) (n : node) : list string :=
  match n with
  | Tag _ _ ch => flat_map (text_pieces kind) ch
  | NavigableString s | Comment s | SpecialString _ s => if kind n then [s] else []
  end.

(** A long-description region: role "region" together with the hidden-content
    class or an aria-label; its text is inlined. *)
Definition spec_region (n : node) : option string :=
  if has_attr "role" "region" n
     && (bool_decide ("sr-only" ∈ attr_class n)
         || bool_decide (is_Some (nonempty_attr n "aria-label")))
  then Some (py_join " " (text_pieces (text_kind n) n))
  else None.

(** Collapsing every run of blanks to one space and trimming, read off the
    words of the specification: a space is written before a character that
    follows a run of blanks, unless nothing has been written yet. *)
Fixpoint collapse_aux (started pending : bool) (l : list token) : string :=
  match l with
  | [] => ""
  | Blank _ :: l' => collapse_aux started true l'
  | Byte c :: l' =>
      if started && pending
      then String " " (String c (collapse_aux true false l'))
      else String c (collapse_aux true false l')
  end.

Definition collapse_blanks (s : string) : string := collapse_aux false false (tokens s).

Definition spec_plaintext (s : soup) : string :=
  let s := map (replace_elements spec_image) s in
  let s := map (replace_elements spec_svg) s in
  let s := map (replace_elements spec_region) s in
  collapse_blanks (py_join " " (flat_map (text_pieces is_text) s)).

(** ** Media inventory *)

Inductive MediaItem :=
| MImg (src : option string) (alt aria_label : string)
       (downloaded_path : option string)
| MSvg (svg aria_label role viewBox : string)
| MFigcaption (text : string)
| MRegion (aria_label text : string).

Definition base_url : string := "https://satsuitequestionbank.collegeboard.org".

(** [urljoin(BASE, raw_src) if raw_src else None]. *)
Definition img_src (X : externals) (img : node) : result (option string) :=
  match attr_get img "src" with
  | Some raw_src =>
      if str_nonempty raw_src then
        match urljoin X base_url raw_src with
        | Some src => Ok (Some src)
        | None => Raise ValueError
        end
      else Ok None
  | None => Ok None
  end.

Definition img_item (X : externals) (img : node) : result MediaItem :=
  src ← img_src X img;
  Ok (MImg src (attr_or img "alt" "") (attr_or img "aria-label" "") None).

Definition svg_item (X : externals) (svg : node) : MediaItem :=
  MSvg (tag_str X svg) (attr_or svg "aria-label" "") (attr_or svg "role" "")
       (attr_or svg "viewBox" (attr_or svg "viewbox" "")).

(** [fig.find("figcaption")], then [if cap: ...]. *)
Definition figcaption_items (fig : node) : list MediaItem :=
  match head (filter (λ pn, is_tag "figcaption" pn.2 = true) (descendants fig)) with
  | Some cap => [MFigcaption (compact_text (get_text cap.2))]
  | None => []
  end.

Definition region_items (region : node) : list MediaItem :=
  if region_selected region
  then [MRegion (attr_or region "aria-label" "") (compact_text (get_text region))]
  else [].

Definition extract_media_from_html (X : externals) (html : json)
    : result (list MediaItem) :=
  if negb (py_truthy html) then Ok [] else
  s ← make_soup X html;
  media ← mapM_result (λ pn, img_item X pn.2) (find_all (is_tag "img") s);
  let media := media ++ map (λ pn, svg_item X pn.2) (find_all (is_tag "svg") s) in
  let media := media ++ flat_map (λ pn, figcaption_items pn.2)
                          (find_all (is_tag "figure") s) in
  let media := media ++ flat_map (λ pn, region_items pn.2)
                          (find_all (has_attr "role" "region") s) in
  Ok media.

(** ** Records *)

(** One record of the list stage.  The three identifiers are strings, as the
    driver's own annotations have them ([external_id: str]); [None] is a
    missing key or a null.  The classification fields are passed through as
    they come. *)
Record ListMeta := {
  m_external_id : option string;
  m_uId : option string;
  m_questionId : option string;
  m_program : json;
  m_primary_class_cd : json;
  m_domain : json;
  m_primary_class_cd_desc : json;
  m_domain_desc : json;
  m_skill_cd : json;
  m_skill_desc : json;
  m_difficulty : json
}.

(** The empty dict that the recovery sweep falls back to. *)
Definition empty_meta : ListMeta :=
  {| m_external_id := None; m_uId := None; m_questionId := None;
     m_program := JNull; m_primary_class_cd := JNull; m_domain := JNull;
     m_primary_class_cd_desc := JNull; m_domain_desc := JNull;
     m_skill_cd := JNull; m_skill_desc := JNull; m_difficulty := JNull |}.

Record NormalizedChoice := {
  c_key : option string;
  c_id : json;
  c_text : string;
  c_html : json;
  c_media : list MediaItem;
  c_correct : bool
}.

Record NormalizedRecord := {
  n_id : json;
  n_external_id : option string;
  n_uId : option string;
  n_questionId : option string;
  n_program : json;
  n_domain : json;
  n_domain_desc : json;
  n_skill_cd : json;
  n_skill_desc : json;
  n_difficulty : json;
  n_stimulus_html : json;
  n_stimulus : string;
  n_stem_html : json;
  n_stem : string;
  n_rationale_html : json;
  n_rationale : string;
  n_choices : list NormalizedChoice;
  n_correct_letters : list json;
  n_correct_ids : list json;
  n_media_stimulus : list MediaItem;
  n_media_stem : list MediaItem;
  n_media_rationale : list MediaItem;
  n_vaultid : json;
  n_origin : json;
  n_type : json;
  n_templateclusterid : json;
  n_templateclustername : json;
  n_parenttemplatename : json;
  n_parenttemplateid : json;
  n_position : json
}.

(** ** Python helpers used by the normalizer *)

(** [obj.get(k)]: only a dict has the method. *)
Definition py_get (obj : json) (k : string) : result json :=
  match obj with
  | JDict kv => Ok (of_opt (dict_get kv k))
  | _ => Raise AttributeError
  end.

Definition chars (s : string) : list json := JStr <$> py_chars s.

(** [list(x)] and the iteration of [for ... in x]: a list gives its
    elements, a string its characters, a dict its keys; nothing else is
    iterable. *)
Definition py_list (x : json) : result (list json) :=
  match x with
  | JList l => Ok l
  | JStr s => Ok (chars s)
  | JDict kv => Ok (map (λ kv, JStr kv.1) kv)
  | _ => Raise TypeError
  end.

Definition enumerate {A} (l : list A) : list (nat * A) := imap pair l.

(** Insertion that keeps equal elements in their order of arrival. *)
Fixpoint insert_sorted {A} (lt : A → A → bool) (x : A) (l : list A) : list A :=
  match l with
  | [] => [x]
  | y :: l' => if lt x y then x :: y :: l' else y :: insert_sorted lt x l'
  end.

Definition stable_sort {A} (lt : A → A → bool) (l : list A) : list A :=
  fold_left (λ acc x, insert_sorted lt x acc) l [].

Definition as_str (x : json) : option string :=
  match x with
  | JStr s => Some s
  | _ => None
  end.

Definition as_num (x : json) : option Z :=
  match x with
  | JNum n => Some n
  | JBool b => Some (Z.b2z b)
  | _ => None
  end.

Definition is_list (x : json) : bool :=
  match x with
  | JList _ => true
  | _ => false
  end.

(** [sorted(l)].  A list of at most one element is never compared.  Strings
    are ordered among themselves, and so are integers (booleans among them);
    lists are ordered among themselves as [sorted_lists] says.  In any other
    list of two elements or more some comparison raises: [None] and a dict are
    ordered with nothing, and a string, a number and a list only with their
    like. *)
Definition py_sorted (X : externals) (l : list json) : result (list json) :=
  match l with
  | [] | [_] => Ok l
  | _ =>
      match mapM as_str l with
      | Some ss => Ok (JStr <$> stable_sort String.ltb ss)
      | None =>
          match mapM as_num l with
          | Some _ =>
              Ok (stable_sort (λ x y, default 0 (as_num x) <? default 0 (as_num y)) l)
          | None =>
              if forallb is_list l then
                match sorted_lists X l with
                | Some ranks =>
                    Ok (snd <$> stable_sort (λ a b, (a.1 <? b.1)%nat)
                                  (imap (λ i x, (default 0%nat (ranks !! i), x)) l))
                | None => Raise TypeError
                end
              else Raise TypeError
          end
      end
  end.

(** ** The content normalizer *)

Definition ascii_uppercase : string := "ABCDEFGHIJKLMNOPQRSTUVWXYZ".

Definition alpha : list string :=
  map (λ c, String c "") (String.list_ascii_of_string ascii_uppercase).

(** [alpha[i] if i < len(alpha) else None]. *)
Definition letter_at (i : nat) : option string :=
  if (i <? length alpha)%nat then alpha !! i else None.

(** The body of the loop over the answer options.  [DOWNLOAD_MEDIA] is
    [False], so no image is downloaded and [downloaded_path] stays [None]. *)
Definition normalize_choice (X : externals) (answer_letters correct_ids : list json)
    (i : nat) (ch : json) : result NormalizedChoice :=
  let letter := letter_at i in
  content ← py_get ch "content";
  let ch_html := py_or content (JStr "") in
  ch_text ← html_to_plaintext_preserving_math_images X ch_html;
  cid ← py_get ch "id";
  let is_ok := py_in (opt_str letter) answer_letters || py_in cid correct_ids in
  ch_media ← extract_media_from_html X ch_html;
  Ok {| c_key := letter; c_id := cid; c_text := ch_text; c_html := ch_html;
        c_media := ch_media; c_correct := is_ok |}.

(** [list(detail.get(k) or [])], and the sequence a loop over
    [detail.get(k, []) or []] runs through. *)
Definition list_field (detail : json) (k : string) : result (list json) :=
  v ← py_get detail k;
  py_list (py_or v (JList [])).

Definition normalize_detail (X : externals) (detail : json) (meta : ListMeta)
    : result NormalizedRecord :=
  stimulus ← py_get detail "stimulus";
  stem ← py_get detail "stem";
  rationale ← py_get detail "rationale";
  let stimulus_html := py_or stimulus (JStr "") in
  let stem_html := py_or stem (JStr "") in
  let rationale_html := py_or rationale (JStr "") in
  stimulus_text ← html_to_plaintext_preserving_math_images X stimulus_html;
  stem_text ← html_to_plaintext_preserving_math_images X stem_html;
  rationale_text ← html_to_plaintext_preserving_math_images X rationale_html;
  answer_letters ← list_field detail "correct_answer";
  correct_ids ← list_field detail "keys";
  options ← list_field detail "answerOptions";
  choices_norm ← mapM_result
    (λ ic, normalize_choice X answer_letters correct_ids ic.1 ic.2)
    (enumerate options);
  stim_media ← extract_media_from_html X stimulus_html;
  stem_media ← extract_media_from_html X stem_html;
  rat_media ← extract_media_from_html X rationale_html;
  externalid ← py_get detail "externalid";
  let q_id :=
    py_or externalid
      (py_or (opt_str (m_external_id meta))
         (py_or (opt_str (m_uId meta)) (opt_str (m_questionId meta)))) in
  correct_letters ← py_sorted X answer_letters;
  vaultid ← py_get detail "vaultid";
  origin ← py_get detail "origin";
  type_ ← py_get detail "type";
  templateclusterid ← py_get detail "templateclusterid";
  templateclustername ← py_get detail "templateclustername";
  parenttemplatename ← py_get detail "parenttemplatename";
  parenttemplateid ← py_get detail "parenttemplateid";
  position ← py_get detail "position";
  Ok {| n_id := q_id;
        n_external_id := m_external_id meta;
        n_uId := m_uId meta;
        n_questionId := m_questionId meta;
        n_program := m_program meta;
        n_domain := py_or (m_primary_class_cd meta) (m_domain meta);
        n_domain_desc := py_or (m_primary_class_cd_desc meta) (m_domain_desc meta);
        n_skill_cd := m_skill_cd meta;
        n_skill_desc := m_skill_desc meta;
        n_difficulty := m_difficulty meta;
        n_stimulus_html := stimulus_html;
        n_stimulus := stimulus_text;
        n_stem_html := stem_html;
        n_stem := stem_text;
        n_rationale_html := rationale_html;
        n_rationale := rationale_text;
        n_choices := choices_norm;
        n_correct_letters := correct_letters;
        n_correct_ids := correct_ids;
        n_media_stimulus := stim_media;
        n_media_stem := stem_media;
        n_media_rationale := rat_media;
        n_vaultid := vaultid;
        n_origin := origin;
        n_type := type_;
        n_templateclusterid := templateclusterid;
        n_templateclustername := templateclustername;
        n_parenttemplatename := parenttemplatename;
        n_parenttemplateid := parenttemplateid;
        n_position := position |}.

(** ** Serialisation, for the sentinel test *)

Definition dquote : string := String "034" "".

Definition hex_digit (n : nat) : string :=
  default "" ((λ c, String c "") <$> String.list_ascii_of_string "0123456789abcdef" !! n).

(** How [json.dumps(..., ensure_ascii=False)] writes one character of a
    string. *)
Definition escape_char (c : ascii) : string :=
  let n := nat_of_ascii c in
  if (n =? 34)%nat then "\" +:+ dquote
  else if (n =? 92)%nat then "\\"
  else if (n =? 10)%nat then "\n"
  else if (n =? 13)%nat then "\r"
  else if (n =? 9)%nat then "\t"
  else if (n =? 8)%nat then "\b"
  else if (n =? 12)%nat then "\f"
  else if (n <? 32)%nat then "\u00" +:+ hex_digit (n / 16) +:+ hex_digit (n mod 16)
  else String c "".

Definition json_string (s : string) : string :=
  dquote +:+ py_join "" (map escape_char (String.list_ascii_of_string s)) +:+ dquote.

(** [json.dumps(obj, ensure_ascii=False)] with the default separators. *)
Fixpoint json_dumps (x : json) : string :=
  match x with
  | JNull => "null"
  | JBool true => "true"
  | JBool false => "false"
  | JNum n => pretty n
  | JStr s => json_string s
  | JList l => "[" +:+ py_join ", " (map json_dumps l) +:+ "]"
  | JDict kv =>
      "{" +:+ py_join ", " (map (λ kv, json_string kv.1 +:+ ": " +:+ json_dumps kv.2) kv)
          +:+ "}"
  end.

Definition is_nosuchkey (obj : json) : bool :=
  match obj with
  | JDict kv =>
      if py_eq (of_opt (dict_get kv "name")) (JStr "NoSuchKey")
         || py_eq (of_opt (dict_get kv "Code")) (JStr "NoSuchKey")
      then true
      else py_contains "NoSuchKey" (json_dumps obj)
  | _ => false
  end.

(** ** The world: cache directory, persisted output, request log *)

(** A file of the cache directory: the serialisation of a JSON value, or
    text that [json.load] cannot read. *)
Inductive file :=
| JsonFile (j : json)
| Garbage.

Record world := {
  (** the files under the cache directory, by path *)
  cache : gmap string file;
  (** the POSTs sent to the detail endpoint, oldest first *)
  requests : list request;
  (** the paths written by the cache, oldest first *)
  cache_writes : list string;
  (** the persisted output, once written *)
  normalized_json : option (list NormalizedRecord);
  (** the persisted failure list, once written *)
  failures_json : option (list (string * string))
}.

Definition log_request (rq : request) (w : world) : world :=
  {| cache := cache w; requests := requests w ++ [rq];
     cache_writes := cache_writes w;
     normalized_json := normalized_json w; failures_json := failures_json w |}.

Definition write_cache (cp : string) (d : json) (w : world) : world :=
  {| cache := <[cp := JsonFile d]> (cache w); requests := requests w;
     cache_writes := cache_writes w ++ [cp];
     normalized_json := normalized_json w; failures_json := failures_json w |}.

Definition save_normalized (l : list NormalizedRecord) (w : world) : world :=
  {| cache := cache w; requests := requests w; cache_writes := cache_writes w;
     normalized_json := Some l; failures_json := failures_json w |}.

Definition save_failures (l : list (string * string)) (w : world) : world :=
  {| cache := cache w; requests := requests w; cache_writes := cache_writes w;
     normalized_json := normalized_json w; failures_json := Some l |}.

(** A computation that reads and changes the world and may raise; what it
    did before raising stays done. *)
Definition io (A : Type) : Type := world → result A * world.

Definition io_ret {A} (a : A) : io A := λ w, (Ok a, w).

Definition io_bind {A B} (f : A → io B) (m : io A) : io B :=
  λ w, match m w with
       | (Ok a, w') => f a w'
       | (Raise e, w') => (Raise e, w')
       end.

Notation "x ⇐ m ; k" := (io_bind (λ x, k) m)
  (at level 20, m at level 100, k at level 200, only parsing).

Definition lift {A} (r : result A) : io A := λ w, (r, w).

(** ** The resilient fetcher *)

Definition REQUEST_TIMEOUT_S : Z := 75.

Definition soft_status (status : Z) : bool :=
  bool_decide (status ∈ [429; 500; 502; 503; 504]).

(** [key in data]. *)
Definition py_has (key : string) (data : json) : result bool :=
  match data with
  | JDict kv => Ok (bool_decide (is_Some (dict_get kv key)))
  | JList l => Ok (py_in (JStr key) l)
  | JStr s => Ok (py_contains key s)
  | _ => Raise TypeError
  end.

(** [any(key in data for key in ("answerOptions", "stem", "stimulus"))]. *)
Definition has_content (data : json) : result bool :=
  a ← py_has "answerOptions" data;
  if a : bool then Ok true else
  b ← py_has "stem" data;
  if b : bool then Ok true else
  py_has "stimulus" data.

(** The loop [for k in range(tries)]; [ks] holds the values of [k] still to
    run.  Sleeping is not modelled. *)
Fixpoint fetch_loop (X : externals) (external_id : string) (tries : nat)
    (timeout : Z) (ks : list nat) : io json :=
  λ w,
  match ks with
  | [] => (Ok JNull, w)
  | k :: ks' =>
      let rq := {| req_id := external_id; req_timeout := timeout |} in
      let r := upstream X (length (requests w)) rq in
      let w := log_request rq w in
      let on_caught :=
        if (k =? tries - 1)%nat then (Ok JNull, w)
        else fetch_loop X external_id tries timeout ks' w in
      match r with
      | TransportError e => (Raise e, w)
      | Timeout => on_caught
      | Http status body =>
          if soft_status status then on_caught else
          match body with
          | None => on_caught
          | Some data =>
              if is_nosuchkey data then (Ok JNull, w) else
              match has_content data with
              | Raise e => (Raise e, w)
              | Ok true => (Ok data, w)
              | Ok false =>
                  if (k <? tries - 1)%nat
                  then fetch_loop X external_id tries timeout ks' w
                  else (Ok JNull, w)
              end
          end
      end
  end.

Definition fetch_detail_strong (X : externals) (external_id : string)
    (tries : nat) (timeout : Z) : io json :=
  fetch_loop X external_id tries timeout (seq 0 tries).

(** ** The detail cache *)

Definition cache_path (external_id : string) : string :=
  ".cache_qbank/" +:+ external_id +:+ ".json".

Definition get_detail_with_cache (X : externals) (external_id : string) : io json :=
  λ w,
  let cp := cache_path external_id in
  match cache w !! cp with
  | Some (JsonFile j) => (Ok j, w)
  | Some Garbage => (Raise JSONDecodeError, w)
  | None =>
      match fetch_detail_strong X external_id 5 REQUEST_TIMEOUT_S w with
      | (Ok d, w') =>
          if negb (py_truthy d) then (Ok JNull, w')
          else (Ok d, write_cache cp d w')
      | (Raise e, w') => (Raise e, w')
      end
  end.

(** ** The ingestion driver *)

Definition CHECKPOINT_EVERY : nat := 50.

Definition truthy_id (o : option string) : option string :=
  match o with
  | Some s => if str_nonempty s then Some s else None
  | None => None
  end.

(** The set of [external_id]s of the records that have one. *)
Definition external_ids (normalized : list NormalizedRecord) : gset string :=
  list_to_set (omap (λ q, truthy_id (n_external_id q)) normalized).

Record driver := {
  normalized : list NormalizedRecord;
  seen_ids : gset string;
  failures : list (string * string)
}.

(** [meta.get("questionId") or meta.get("uId") or "unknown"]. *)
Definition fallback_id (meta : ListMeta) : string :=
  match truthy_id (m_questionId meta) with
  | Some q => q
  | None => default "unknown" (truthy_id (m_uId meta))
  end.

(** The body of the loop of the primary pass. *)
Definition primary_step (X : externals) (st : driver) (meta : ListMeta) : io driver :=
  match truthy_id (m_external_id meta) with
  | None =>
      io_ret {| normalized := normalized st; seen_ids := seen_ids st;
              failures := failures st ++ [("missing_external_id", fallback_id meta)] |}
  | Some external_id =>
      if bool_decide (external_id ∈ seen_ids st) then io_ret st else
      detail ⇐ get_detail_with_cache X external_id;
      if negb (py_truthy detail) then
        io_ret {| normalized := normalized st; seen_ids := seen_ids st;
                failures := failures st ++ [("missing_or_timeout", external_id)] |}
      else
        norm ⇐ lift (normalize_detail X detail meta);
        let normalized' := normalized st ++ [norm] in
        let st' := {| normalized := normalized';
                      seen_ids := {[external_id]} ∪ seen_ids st;
                      failures := failures st |} in
        if (length normalized' mod CHECKPOINT_EVERY =? 0)%nat
        then λ w, (Ok st', save_normalized normalized' w)
        else io_ret st'
  end.

Fixpoint primary_pass (X : externals) (records : list ListMeta) (st : driver)
    : io driver :=
  match records with
  | [] => io_ret st
  | meta :: rest => st' ⇐ primary_step X st meta; primary_pass X rest st'
  end.

(** [{m.get("external_id"): m for m in records if m.get("external_id")}]. *)
Definition by_ext (records : list ListMeta) : gmap string ListMeta :=
  fold_left (λ acc m,
               match truthy_id (m_external_id m) with
               | Some e => <[e := m]> acc
               | None => acc
               end) records ∅.

(** [[ext for _, ext in failures if ext not in done]]. *)
Definition retry_todo (failures : list (string * string)) (done : gset string)
    : list string :=
  map snd (filter (λ f, f.2 ∉ done) failures).

(** The body of the loop of the recovery sweep; the state is the output
    list and the counter [recovered]. *)
Definition sweep_step (X : externals) (records_by_ext : gmap string ListMeta)
    (st : list NormalizedRecord * nat) (ext : string)
    : io (list NormalizedRecord * nat) :=
  let meta := default empty_meta (records_by_ext !! ext) in
  d ⇐ fetch_detail_strong X ext 6 90;
  if negb (py_truthy d) then io_ret st else
  norm ⇐ lift (normalize_detail X d meta);
  let normalized' := st.1 ++ [norm] in
  let recovered := S st.2 in
  if (recovered mod 20 =? 0)%nat
  then λ w, (Ok (normalized', recovered), save_normalized normalized' w)
  else io_ret (normalized', recovered).

Fixpoint sweep (X : externals) (records_by_ext : gmap string ListMeta)
    (todo : list string) (st : list NormalizedRecord * nat)
    : io (list NormalizedRecord * nat) :=
  match todo with
  | [] => io_ret st
  | ext :: rest => st' ⇐ sweep_step X records_by_ext st ext; sweep X records_by_ext rest st'
  end.

(** The identifiers the recovery sweep hands to the fetcher, in the order
    they are tried. *)
Definition sweep_todo (X : externals) (st : driver) : list string :=
  shuffle X (retry_todo (failures st) (external_ids (normalized st))).

(** The state the driver starts from, given the output a previous run
    persisted: the resumption set holds its external identifiers. *)
Definition start (prior : list NormalizedRecord) : driver :=
  {| normalized := prior; seen_ids := external_ids prior; failures := [] |}.

(** [main()], given the work queue of the list stage.  Printing and the CSV
    export are left out.  The result is the final output list and the
    failure list. *)
Definition main (X : externals) (records : list ListMeta)
    : io (list NormalizedRecord * list (string * string)) :=
  λ w,
  let prior := default [] (normalized_json w) in
  (st ⇐ primary_pass X records (start prior);
   _ ⇐ (λ w, (Ok (), save_failures (failures st) (save_normalized (normalized st) w)));
   if bool_decide (failures st = []) then io_ret (normalized st, failures st) else
   out ⇐ sweep X (by_ext records) (sweep_todo X st) (normalized st, 0%nat);
   _ ⇐ (λ w, (Ok (), save_normalized out.1 w));
   io_ret (out.1, failures st)) w.

(** ** The list stage *)

(** What [fetch_list] can raise: the POST times out or fails in the
    transport, [raise_for_status] refuses the status, the body or the raw
    list file is not JSON, or the body is neither a list nor a dict. *)
Inductive list_error :=
| ListTimeout
| ListTransportError (e : exn)
| ListHTTPError (status : Z)
| ListInvalidJSON
| ListUnreadableFile
| ListTypeError.

(** [r.raise_for_status()] raises on a client or server error. *)
Definition raises_for_status (status : Z) : bool :=
  (400 <=? status) && (status <? 600).

(** The records inside the answer of the list endpoint: a list is taken as
    it is; in a dict the first non-empty value among four keys is taken, and
    the dict itself, as one record, when there is none. *)
Definition unwrap_list (data : json) : option json :=
  match data with
  | JList _ => Some data
  | JDict kv =>
      Some (py_or (of_opt (dict_get kv "items"))
              (py_or (of_opt (dict_get kv "data"))
                 (py_or (of_opt (dict_get kv "rows"))
                    (py_or (of_opt (dict_get kv "questions")) (JList [data])))))
  | _ => None
  end.

(** [fetch_list()], given the raw list file, if there is one, and what the
    POST to the list endpoint comes back with; the result and the raw list
    file afterwards. *)
Definition fetch_list (raw : option file) (answer : response)
    : (list_error + json) * option file :=
  match raw with
  | Some (JsonFile j) => (inr j, raw)
  | Some Garbage => (inl ListUnreadableFile, raw)
  | None =>
      match answer with
      | Timeout => (inl ListTimeout, raw)
      | TransportError e => (inl (ListTransportError e), raw)
      | Http status body =>
          if raises_for_status status then (inl (ListHTTPError status), raw) else
          match body with
          | None => (inl ListInvalidJSON, raw)
          | Some data =>
              match unwrap_list data with
              | None => (inl ListTypeError, raw)
              | Some records => (inr records, Some (JsonFile records))
              end
          end
      end
  end.

(** ** The CSV export *)

(** [m.get("tag")]. *)
Definition media_tag (m : MediaItem) : string :=
  match m with
  | MImg _ _ _ _ => "img"
  | MSvg _ _ _ _ => "svg"
  | MFigcaption _ => "figcaption"
  | MRegion _ _ => "region"
  end.

(** [any(m.get("tag") == tag for m in media)]. *)
Definition has_tag (tag : string) (media : list MediaItem) : bool :=
  existsb (λ m, String.eqb (media_tag m) tag) media.

(** One line of the CSV file, before the writer turns the values into
    text. *)
Record CsvRow := {
  r_id : json;
  r_external_id : option string;
  r_uId : option string;
  r_questionId : option string;
  r_program : json;
  r_domain : json;
  r_domain_desc : json;
  r_skill_cd : json;
  r_skill_desc : json;
  r_difficulty : json;
  r_stimulus : string;
  r_stem : string;
  r_choices_text : string;
  r_correct_letters : string;
  r_rationale : string;
  r_has_img : Z;
  r_has_svg : Z;
  r_has_longdesc : Z
}.

(** The text of one choice in the export; a choice without a letter is
    written with the text of [None]. *)
Definition choice_line (c : NormalizedChoice) : string :=
  default "None" (c_key c) +:+ ". " +:+ c_text c.

(** The dict handed to [writerow] for the record [q]; [",".join] raises on a
    letter that is not a string. *)
Definition csv_row (q : NormalizedRecord) : result CsvRow :=
  let choices_text := py_join " | " (map choice_line (n_choices q)) in
  let stim_media := n_media_stimulus q in
  let has_img := has_tag "img" stim_media in
  let has_svg := has_tag "svg" stim_media in
  let has_long := has_tag "region" stim_media in
  match mapM as_str (n_correct_letters q) with
  | None => Raise TypeError
  | Some letters =>
      Ok {| r_id := n_id q;
            r_external_id := n_external_id q;
            r_uId := n_uId q;
            r_questionId := n_questionId q;
            r_program := n_program q;
            r_domain := n_domain q;
            r_domain_desc := n_domain_desc q;
            r_skill_cd := n_skill_cd q;
            r_skill_desc := n_skill_desc q;
            r_difficulty := n_difficulty q;
            r_stimulus := n_stimulus q;
            r_stem := n_stem q;
            r_choices_text := choices_text;
            r_correct_letters := py_join "," letters;
            r_rationale := n_rationale q;
            r_has_img := Z.b2z has_img;
            r_has_svg := Z.b2z has_svg;
            r_has_longdesc := Z.b2z has_long |}
  end.

(** [write_csv]: the lines written after the header, and how the loop
    ended.  The lines written before an exception stay written. *)
Fixpoint write_csv (rows : list NormalizedRecord) : list CsvRow * result () :=
  match rows with
  | [] => ([], Ok ())
  | q :: rest =>
      match csv_row q with
      | Raise e => ([], Raise e)
      | Ok row => let out := write_csv rest in (row :: out.1, out.2)
      end
  end.

(** ** File names for downloaded images *)

(** [os.path.basename(p)]: what follows the last separator; [cur] is what
    has been read since the last one. *)
Fixpoint basename_aux (cur : string) (p : string) : string :=
  match p with
  | EmptyString => cur
  | String c p' =>
      if Ascii.eqb c "/" then basename_aux "" p'
      else basename_aux (cur +:+ String c "") p'
  end.

Definition basename (p : string) : string := basename_aux "" p.

(** [filename_from_url(u)], given [urlparse(u).path] as [url_path u].  Both
    branches of the test for a dot return the same name. *)
Definition filename_from_url (url_path : string → string) (u : string) : string :=
  let base := basename (url_path u) in
  let base := if str_nonempty base then base else "image" in
  if negb (py_contains "." base) then base else base.

(** ** Auxiliary notions for the plaintext mirror *)

(** A loop [for el in found: el.replace_with(...)] in which [f], given the
    element as it was found and as it is now, says whether the element is
    replaced and by what text. *)
Definition replace_each (f : node → node → option string)
    (found : list (path * node)) (s : soup) : soup :=
  fold_left (λ cur pn, match f pn.2 (element_now pn cur) with
                       | Some t => replace_with pn.1 t cur
                       | None => cur
                       end) found s.

(** The region loop: the selection reads the attributes, the text is read
    from the element as it is now. *)
Definition loop_region_now (found now : node) : option string :=
  if has_attr "role" "region" found then
    if region_selected found then Some (compact_text (get_text now)) else None
  else None.

(** What the three loops of the source replace, and by what. *)
Definition loop_image (n : node) : option string :=
  if is_tag "img" n then Some (img_text n) else None.

Definition loop_svg (n : node) : option string :=
  if is_tag "svg" n then Some (svg_text n) else None.

Definition loop_region (n : node) : option string :=
  if has_attr "role" "region" n then
    if region_selected n then Some (compact_text (get_text n)) else None
  else None.

(** The words of the strings of the classes [types] under a node. *)
Fixpoint node_words (types : option string_class) (n : node) : list string :=
  match n with
  | Tag _ _ ch => flat_map (node_words types) ch
  | _ =>
      match string_of_types types n with
      | Some s => py_split s
      | None => []
      end
  end.

(** A word is not empty and has no blank in it. *)
Definition is_word (w : string) : Prop :=
  str_nonempty w = true ∧ Forall (λ t, is_blank t = false) (tokens w).

(** The bytes of a string, each read on its own. *)
Definition byte_tokens (w : string) : list token :=
  Byte <$> String.list_ascii_of_string w.

(** A list of tokens that is the reading of its own bytes: the bytes of a
    blank are a blank, and no byte of another character starts one. *)
Fixpoint well_read (l : list token) : Prop :=
  match l with
  | [] => True
  | Blank b :: l' => blank_len b = String.length b ∧ b ≠ "" ∧ well_read l'
  | Byte c :: l' => blank_len (String c (untokens l')) = 0%nat ∧ well_read l'
  end.

Fixpoint str_drop (n : nat) (s : string) : string :=
  match n, s with
  | S n', String _ s' => str_drop n' s'
  | _, _ => s
  end.

(** A string from its bytes. *)
Definition str_bytes (l : list nat) : string :=
  String.string_of_list_ascii (map ascii_of_nat l).

(** An element that the region loop replaces: it has the role, and the
    class or a label. *)
Definition is_region (n : node) : bool :=
  has_attr "role" "region" n && region_selected n.

(** A long-description region whose element is a string container: a
    [script], [style], [template], [rt] or [rp] element that the region loop
    replaces. *)
Definition container_region (n : node) : bool :=
  bool_decide (is_Some (interesting_string_types n)) && is_region n.

(** No element of the tree is a long-description region of that kind. *)
Fixpoint plain_regions (n : node) : bool :=
  negb (container_region n)
  && match n with
     | Tag _ _ ch => forallb plain_regions ch
     | _ => true
     end.

(** The tree in which every image with an empty alt attribute has lost that
    attribute. *)
Fixpoint drop_empty_alt (n : node) : node :=
  match n with
  | Tag nm at_ ch =>
      Tag nm
        (if String.eqb nm "img" && bool_decide (at_ !! "alt" = Some "")
         then delete "alt" at_ else at_)
        (map drop_empty_alt ch)
  | _ => n
  end.

(** A fragment with an image that has an alt text, an image that has none,
    an inline SVG without a label, and a hidden long description. *)
Definition soup_with_images : soup :=
  [NavigableString "In the figure ";
   Tag "img" {[ "alt" := "triangle diagram"; "src" := "/t.png" ]} [];
   NavigableString (" and " +:+ String "010" "" +:+ "  ");
   Tag "img" {[ "src" := "/u.png" ]} [];
   Tag "p" ∅
     [Tag "svg" {[ "viewbox" := "0 0 1 1" ]} [Tag "img" {[ "alt" := "inside" ]} []];
      Tag "div" {[ "role" := "region"; "class" := "note sr-only" ]}
        [NavigableString " long  description "]]].

(** A parser that reads the markup ["fragment"] as [soup_with_images] and
    the markup ["bracket"] as one image with the address ["//["], and rejects
    the markup ["rejected"]; a resolver that raises on the address ["//["]. *)
Definition fragment_externals : externals :=
  {| parse := λ h, if String.eqb h "fragment" then Some soup_with_images
                   else if String.eqb h "bracket"
                        then Some [Tag "img" {[ "src" := "//["; "alt" := "graph" ]} []]
                   else if String.eqb h "rejected" then None
                   else Some [NavigableString h];
     urljoin := λ base src, if String.eqb src "//[" then None else Some (base +:+ src);
     sorted_lists := λ _, None;
     tag_str := λ _, "";
     upstream := λ _ _, Timeout;
     shuffle := λ l, l |}.

(** ** Auxiliary notions for the cache *)

(** Nothing on disk differs between [w] and [w']. *)
Definition same_disk (w w' : world) : Prop :=
  cache w' = cache w ∧ cache_writes w' = cache_writes w
  ∧ normalized_json w' = normalized_json w ∧ failures_json w' = failures_json w.

(** No path has been written twice, and what was written is there. *)
Definition written_once (w : world) : Prop :=
  NoDup (cache_writes w) ∧ ∀ p, p ∈ cache_writes w → is_Some (cache w !! p).

(** From [w] to [w'] the cache only gained entries: each step writes, at a
    path that had no file, a record that is neither the sentinel nor empty. *)
Inductive cache_grows : world → world → Prop :=
| grows_same w w' :
    cache w' = cache w → cache_writes w' = cache_writes w → cache_grows w w'
| grows_write w w1 w' cp d :
    cache_grows w w1 →
    cache w1 !! cp = None →
    is_nosuchkey d = false →
    py_truthy d = true →
    cache w' = <[cp := JsonFile d]> (cache w1) →
    cache_writes w' = cache_writes w1 ++ [cp] →
    cache_grows w w'.

(** Every run of the computation [m] only lets the cache grow. *)
Definition grows_io {A} (m : io A) : Prop :=
  ∀ w r w', m w = (r, w') → cache_grows w w'.

(** ** Well-formed detail records *)

(** A markup field as the upstream sends it: a string, or nothing. *)
Definition is_markup (v : json) : bool :=
  match v with
  | JNull | JStr _ => true
  | _ => false
  end.

Definition is_ok {A} (r : result A) : bool :=
  match r with
  | Ok _ => true
  | Raise _ => false
  end.

(** The parser accepts the field (an empty field is never parsed). *)
Definition parses (X : externals) (v : json) : bool :=
  match v with
  | JStr s => negb (str_nonempty s) || bool_decide (is_Some (parse X s))
  | _ => true
  end.

(** The resolver accepts the address of every image of the field. *)
Definition resolves (X : externals) (v : json) : bool :=
  match v with
  | JStr s =>
      negb (str_nonempty s)
      || match parse X s with
         | Some sp => forallb (λ pn, is_ok (img_src X pn.2)) (find_all (is_tag "img") sp)
         | None => true
         end
  | _ => true
  end.

(** The parser accepts the field, and the resolver every image in it. *)
Definition accepts (X : externals) (v : json) : bool := parses X v && resolves X v.

Definition content_of (o : json) : json :=
  match o with
  | JDict kv => of_opt (dict_get kv "content")
  | _ => JNull
  end.

Definition is_dict (o : json) : bool :=
  match o with
  | JDict _ => true
  | _ => false
  end.

Definition items_of (v : json) : list json :=
  match v with
  | JList l => l
  | _ => []
  end.

Definition is_list_or_null (v : json) : bool :=
  match v with
  | JNull | JList _ => true
  | _ => false
  end.

(** The value of a field of the record, [None] when it is missing. *)
Definition field (detail : json) (k : string) : json :=
  match detail with
  | JDict kv => of_opt (dict_get kv k)
  | _ => JNull
  end.

(** The shape of a detail record: a dict whose markup fields are strings or
    absent, whose accepted letters are a list of strings or absent, whose
    accepted identifiers are a list or absent, and whose answer options are a
    list of dicts with a markup field [content], or absent. *)
Definition well_formed (detail : json) : bool :=
  is_dict detail
  && is_markup (field detail "stimulus")
  && is_markup (field detail "stem")
  && is_markup (field detail "rationale")
  && is_list_or_null (field detail "correct_answer")
  && forallb (λ x, bool_decide (is_Some (as_str x))) (items_of (field detail "correct_answer"))
  && is_list_or_null (field detail "keys")
  && is_list_or_null (field detail "answerOptions")
  && forallb (λ o, is_dict o && is_markup (content_of o)) (items_of (field detail "answerOptions")).

(** The parser accepts every markup field of the record, and the resolver
    the address of every image in them. *)
Definition accepted (X : externals) (detail : json) : bool :=
  accepts X (field detail "stimulus")
  && accepts X (field detail "stem")
  && accepts X (field detail "rationale")
  && forallb (λ o, accepts X (content_of o)) (items_of (field detail "answerOptions")).

(** ** Auxiliary notions for the driver *)

(** The external identifiers of the output, in output order. *)
Definition ids_of (l : list NormalizedRecord) : list string :=
  omap (λ q, truthy_id (n_external_id q)) l.

(** The two reasons the driver records. *)
Definition known_reason (f : string * string) : Prop :=
  f.1 = "missing_external_id" ∨ f.1 = "missing_or_timeout".

(** What the primary pass keeps true: the resumption set is the set of
    external identifiers of the output, and every recorded reason is one of
    the two. *)
Definition driver_inv (st : driver) : Prop :=
  seen_ids st = external_ids (normalized st)
  ∧ Forall known_reason (failures st).

(** ** Auxiliary notions for the retry loop *)

(** An answer after which the retry loop tries again, or gives up when it
    was the last attempt: a timeout, a soft status, a body that is not JSON,
    a record without content. *)
Definition transient (r : response) : bool :=
  match r with
  | Timeout => true
  | TransportError _ => false
  | Http status body =>
      soft_status status
      || match body with
         | None => true
         | Some data =>
             negb (is_nosuchkey data)
             && match has_content data with
                | Ok false => true
                | _ => false
                end
         end
  end.

(** An answer that carries the detail record [d]. *)
Definition delivers (r : response) (d : json) : Prop :=
  ∃ status, r = Http status (Some d) ∧ soft_status status = false
            ∧ is_nosuchkey d = false ∧ has_content d = Ok true.

(** The exception that an attempt raises and the retry loop does not catch,
    if the answer [r] leads to one. *)
Definition uncaught (r : response) : option exn :=
  match r with
  | Timeout => None
  | TransportError e => Some e
  | Http status body =>
      if soft_status status then None else
      match body with
      | None => None
      | Some data =>
          if is_nosuchkey data then None else
          match has_content data with
          | Raise e => Some e
          | Ok _ => None
          end
      end
  end.

(** A JSON value that is neither a string nor a container. *)
Definition is_scalar (x : json) : bool :=
  match x with
  | JNull | JBool _ | JNum _ => true
  | _ => false
  end.

(** The world after [n] more requests [rq]. *)
Definition log_requests (n : nat) (rq : request) (w : world) : world :=
  Nat.iter n (log_request rq) w.

(** ** Auxiliary notions for the sentinel test *)

(** Every string inside a JSON value: the string values and the keys, at
    any depth. *)
Fixpoint strings_in (x : json) : list string :=
  match x with
  | JStr s => [s]
  | JList l => flat_map strings_in l
  | JDict kv => flat_map (λ kv, kv.1 :: strings_in kv.2) kv
  | _ => []
  end.

(** [n] occurs in [h]. *)
Definition occurs_in (n h : string) : Prop := ∃ a b, h = a +:+ n +:+ b.

(** The serialisation writes the characters of [n] as they are. *)
Definition written_plainly (n : string) : Prop :=
  Forall (λ c, escape_char c = String c "") (String.list_ascii_of_string n).

(** ** Auxiliary notions for paths and file names *)

(** A name without a path separator.  For an identifier of this kind the
    path [CACHE_DIR / f"{external_id}.json"] is the directory, a separator and
    the file name, as [cache_path] has it. *)
Definition no_slash (s : string) : Prop :=
  Forall (λ c, c ≠ "/"%char) (String.list_ascii_of_string s).

(** ** Auxiliary notions for the words of the plaintext mirror *)

(** The words of the text of a soup once the images, the inline SVGs and
    the long-description regions are replaced. *)
Definition plain_words (s : soup) : list string :=
  flat_map (node_words None)
    (map (replace_elements loop_region)
       (map (replace_elements loop_svg) (map (replace_elements loop_image) s))).

(** ** Auxiliary notions for the checkpoints *)

(** The output on disk; no file reads as no record. *)
Definition persisted (w : world) : list NormalizedRecord :=
  default [] (normalized_json w).

(** The output on disk is the front of the output list [l] in memory, and
    what it lacks is at most the checkpoint counter modulo the checkpoint
    interval. *)
Definition checkpointed (every : nat) (l : list NormalizedRecord) (count : nat)
    (w : world) : Prop :=
  persisted w `prefix_of` l
  ∧ (length l - length (persisted w) ≤ count mod every)%nat.

(** ** Auxiliary notions for the CSV export *)

(** Every accepted letter of the record is a string. *)
Definition letters_are_strings (q : NormalizedRecord) : Prop :=
  Forall (λ x, is_Some (as_str x)) (n_correct_letters q).

(** ** Concrete inputs

    Instances of the outside world and inputs on which the statements below
    are evaluated. *)

Definition blank_world : world :=
  {| cache := ∅; requests := []; cache_writes := [];
     normalized_json := None; failures_json := None |}.

(** A parser that takes every markup for one piece of text, and an upstream
    service [up]. *)
Definition plain_externals (up : nat → request → response) : externals :=
  {| parse := λ h, Some [NavigableString h];
     urljoin := λ base src, Some (base +:+ src);
     sorted_lists := λ _, None;
     tag_str := λ _, "";
     upstream := up;
     shuffle := λ l, l |}.

Definition always_timeout : nat → request → response := λ _ _, Timeout.

Definition meta_with (external_id questionId : option string) : ListMeta :=
  {| m_external_id := external_id; m_uId := None; m_questionId := questionId;
     m_program := JNull; m_primary_class_cd := JNull; m_domain := JNull;
     m_primary_class_cd_desc := JNull; m_domain_desc := JNull;
     m_skill_cd := JNull; m_skill_desc := JNull; m_difficulty := JNull |}.

(** Two options; the letter marks the second, the identifier the first. *)
Definition detail_two_options : json :=
  JDict [("stem", JStr "Which one?");
         ("answerOptions",
          JList [JDict [("id", JStr "id-1"); ("content", JStr "C. first")];
                 JDict [("id", JStr "id-2"); ("content", JStr "A. second")]]);
         ("correct_answer", JList [JStr "B"]);
         ("keys", JList [JStr "id-1"])].

(** Twenty-seven options, one more than the alphabet has letters. *)
Definition detail_27_options : json :=
  JDict [("stem", JStr "Pick."); ("answerOptions", JList (replicate 27 (JDict [])))].

Definition answers_with (d : json) : nat → request → response :=
  λ _ _, Http 200 (Some d).

(** Two shapes of the "key not found" payload: a marker field, and the
    marker somewhere inside the payload. *)
Definition sentinel_by_field : json :=
  JDict [("Code", JStr "NoSuchKey"); ("Message", JStr "The specified key does not exist.")].

Definition sentinel_by_text : json :=
  JDict [("stem", JStr "x"); ("error", JList [JStr "S3: NoSuchKey for object"])].

Definition world_with_entry (external_id : string) (f : file) : world :=
  {| cache := {[ cache_path external_id := f ]}; requests := []; cache_writes := [];
     normalized_json := None; failures_json := None |}.

(** An upstream that times out for the first [n] requests and answers with
    [d] from then on. *)
Definition recovers_after (n : nat) (d : json) : nat → request → response :=
  λ k _, if (k <? n)%nat then Timeout else Http 200 (Some d).

(** A detail record whose accepted letters are numbers. *)
Definition detail_numbered_answers : json :=
  JDict [("stem", JStr "Pick."); ("correct_answer", JList [JNum 2; JNum 1])].

(** A detail record with an image in the stem and none in the stimulus. *)
Definition detail_image_in_stem : json :=
  JDict [("stimulus", JStr "no picture here"); ("stem", JStr "fragment")].

(** A detail record that the parser of [fragment_externals] rejects. *)
Definition detail_rejected : json := JDict [("stem", JStr "rejected")].

(** [fragment_externals] with an upstream that answers every request with
    [detail_rejected]. *)
Definition rejecting_externals : externals :=
  {| parse := parse fragment_externals;
     urljoin := urljoin fragment_externals;
     sorted_lists := sorted_lists fragment_externals;
     tag_str := tag_str fragment_externals;
     upstream := answers_with detail_rejected;
     shuffle := shuffle fragment_externals |}.

(** The answer of a list endpoint that found nothing. *)
Definition empty_envelope : json := JDict [("items", JList []); ("total", JNum 0)].

(** * Properties *)

(** ** Outcomes *)

Lemma bind_Ok {A B} (f : A → result B) (m : result A) (b : B) :
  m ≫= f = Ok b → ∃ a, m = Ok a ∧ f a = Ok b.
Proof. destruct m as [a|e]; [eauto | discriminate]. Qed.

(** Splits a chain of binds that ends well into its steps. *)
Ltac inv_bind H :=
  repeat (cbv beta zeta in H;
          let x := fresh "v" in
          let Hx := fresh "Hv" in
          apply bind_Ok in H as (x & Hx & H)).

Lemma mapM_result_lookup {A B} (f : A → result B) xs ys :
  mapM_result f xs = Ok ys →
  length ys = length xs ∧
  ∀ i y, ys !! i = Some y → ∃ x, xs !! i = Some x ∧ f x = Ok y.
Proof.
  revert ys. induction xs as [|x xs IH]; intros ys H; simpl in H.
  - injection H as <-. split; [done|]. intros i y Hy. by rewrite lookup_nil in Hy.
  - inv_bind H. injection H as <-.
    destruct (IH _ Hv0) as [Hlen Hall]. split; [simpl; lia|].
    intros [|i] y Hy; simpl in *.
    + injection Hy as <-. eauto.
    + eauto.
Qed.

Lemma enumerate_lookup {A} (l : list A) i j x :
  enumerate l !! i = Some (j, x) → j = i ∧ l !! i = Some x.
Proof.
  unfold enumerate. rewrite list_lookup_imap.
  destruct (l !! i) as [y|]; simpl; [|done]. intros [= <- <-]. done.
Qed.

(** ** The Python helpers on small inputs *)

Lemma py_split_example :
  py_split ("  two" +:+ String "009" "" +:+ "words " +:+ String "010" "") = ["two"; "words"].
Proof. reflexivity. Qed.

Lemma py_strip_example : py_strip "  a b  " = "a b".
Proof. reflexivity. Qed.

Lemma compact_text_example :
  compact_text (" a  b" +:+ String "010" "" +:+ "c ") = "a b c".
Proof. reflexivity. Qed.

Lemma py_eq_example :
  py_eq (JBool true) (JNum 1) = true
  ∧ py_eq (JStr "1") (JNum 1) = false
  ∧ py_eq (JDict [("a", JNull); ("b", JList [JNum 2])])
          (JDict [("b", JList [JNum 2]); ("a", JNull)]) = true.
Proof. repeat split. Qed.

Lemma py_split_blank_characters :
  py_split ("a" +:+ str_bytes [194; 160]%nat +:+ "b" +:+ str_bytes [226; 128; 131]%nat
            +:+ str_bytes [227; 128; 128]%nat +:+ "c" +:+ str_bytes [194; 133]%nat)
  = ["a"; "b"; "c"]
  ∧ py_strip (str_bytes [194; 160]%nat +:+ "a" +:+ str_bytes [226; 128; 175]%nat +:+ "b "
              +:+ str_bytes [225; 154; 128]%nat)
    = "a" +:+ str_bytes [226; 128; 175]%nat +:+ "b"
  ∧ compact_text ("a" +:+ str_bytes [194; 160]%nat +:+ "b") = "a b"
  ∧ py_split ("a" +:+ str_bytes [226; 128; 139]%nat +:+ "b" +:+ str_bytes [195; 160]%nat)
    = ["a" +:+ str_bytes [226; 128; 139]%nat +:+ "b" +:+ str_bytes [195; 160]%nat].
Proof. repeat split. Qed.

Lemma py_chars_example :
  py_chars ("a" +:+ str_bytes [195; 169]%nat +:+ "b" +:+ str_bytes [226; 130; 172]%nat)
  = ["a"; str_bytes [195; 169]%nat; "b"; str_bytes [226; 130; 172]%nat].
Proof. reflexivity. Qed.

Lemma py_sorted_example X :
  py_sorted X [JStr "C"; JStr "A"; JStr "B"] = Ok [JStr "A"; JStr "B"; JStr "C"]
  ∧ py_sorted X [JStr "A"; JNull] = Raise TypeError
  ∧ py_sorted X [JList []; JNum 1] = Raise TypeError
  ∧ (sorted_lists X [JList [JNum 2]; JList [JNum 1]] = Some [1; 0]%nat →
     py_sorted X [JList [JNum 2]; JList [JNum 1]] = Ok [JList [JNum 1]; JList [JNum 2]]).
Proof.
  split_and!; try reflexivity.
  intros H. unfold py_sorted. cbn [mapM as_str as_num mbind option_bind forallb is_list andb].
  by rewrite H.
Qed.

Lemma json_dumps_example :
  json_dumps (JDict [("a", JList [JNum 1; JNull]); ("b", JBool true)])
  = "{" +:+ dquote +:+ "a" +:+ dquote +:+ ": [1, null], "
        +:+ dquote +:+ "b" +:+ dquote +:+ ": true}".
Proof. reflexivity. Qed.

Lemma is_nosuchkey_example :
  is_nosuchkey sentinel_by_field = true
  ∧ is_nosuchkey sentinel_by_text = true
  ∧ is_nosuchkey detail_two_options = false.
Proof. repeat split. Qed.

(** ** Sorting keeps the members *)

Lemma insert_sorted_perm {A} (lt : A → A → bool) x l :
  insert_sorted lt x l ≡ₚ x :: l.
Proof.
  induction l as [|y l IH]; simpl; [done|].
  destruct (lt x y); [done|]. rewrite IH. apply Permutation_swap.
Qed.

Lemma stable_sort_perm {A} (lt : A → A → bool) l : stable_sort lt l ≡ₚ l.
Proof.
  unfold stable_sort.
  enough (∀ acc, fold_left (λ acc x, insert_sorted lt x acc) l acc ≡ₚ l ++ acc) as H.
  { rewrite H. by rewrite app_nil_r. }
  induction l as [|x l IH]; intros acc; simpl; [done|].
  rewrite IH, insert_sorted_perm. by rewrite Permutation_middle.
Qed.

Lemma mapM_as_str l ss : mapM as_str l = Some ss → l = JStr <$> ss.
Proof.
  revert ss. induction l as [|x l IH]; intros ss H; simpl in H.
  - by injection H as <-.
  - destruct x; simpl in H; try discriminate.
    destruct (mapM as_str l) as [ss'|]; simpl in H; [|discriminate].
    injection H as <-. simpl. f_equal. by apply IH.
Qed.

Lemma snd_imap_pair {A B} (f : nat → B) (l : list A) :
  snd <$> imap (λ i x, (f i, x)) l = l.
Proof.
  revert f. induction l as [|x l IH]; intros f; [done|].
  cbn [imap fmap list_fmap snd]. f_equal. apply (IH (f ∘ S)).
Qed.

Lemma py_sorted_perm X l l' : py_sorted X l = Ok l' → l' ≡ₚ l.
Proof.
  unfold py_sorted. destruct l as [|x [|y l]]; try (intros [= <-]; done).
  destruct (mapM as_str _) as [ss|] eqn:Hss.
  - intros [= <-]. apply mapM_as_str in Hss. rewrite Hss.
    apply fmap_Permutation, stable_sort_perm.
  - destruct (mapM as_num _); [intros [= <-]; apply stable_sort_perm|].
    destruct (forallb is_list _); [|discriminate].
    destruct (sorted_lists X _) as [ranks|]; [|discriminate]. intros [= <-].
    etrans; [apply fmap_Permutation, stable_sort_perm|].
    cbn [fmap list_fmap snd]. do 2 f_equiv.
    by rewrite <-(snd_imap_pair (λ i, default 0%nat (ranks !! S (S i))) l) at 2.
Qed.

Lemma py_in_perm x l l' : l ≡ₚ l' → py_in x l = py_in x l'.
Proof.
  unfold py_in. induction 1; simpl; try congruence.
  destruct (py_eq x x0), (py_eq x y); done.
Qed.

(** ** The normalizer, step by step *)

Lemma normalize_choice_ok X letters ids i o ch :
  normalize_choice X letters ids i o = Ok ch →
  c_key ch = letter_at i ∧
  py_get o "id" = Ok (c_id ch) ∧
  (∃ content, py_get o "content" = Ok content ∧ c_html ch = py_or content (JStr "")) ∧
  html_to_plaintext_preserving_math_images X (c_html ch) = Ok (c_text ch) ∧
  extract_media_from_html X (c_html ch) = Ok (c_media ch) ∧
  c_correct ch = py_in (opt_str (letter_at i)) letters || py_in (c_id ch) ids.
Proof.
  unfold normalize_choice. intros H. inv_bind H. injection H as <-. simpl. eauto 10.
Qed.

Lemma normalize_detail_choices X detail meta r :
  normalize_detail X detail meta = Ok r →
  ∃ letters options,
    list_field detail "correct_answer" = Ok letters ∧
    list_field detail "keys" = Ok (n_correct_ids r) ∧
    list_field detail "answerOptions" = Ok options ∧
    py_sorted X letters = Ok (n_correct_letters r) ∧
    length (n_choices r) = length options ∧
    ∀ i ch, n_choices r !! i = Some ch →
      ∃ o, options !! i = Some o ∧
           normalize_choice X letters (n_correct_ids r) i o = Ok ch.
Proof.
  unfold normalize_detail. intros H. inv_bind H. injection H as <-. simpl.
  match goal with
  | Hm : mapM_result _ (enumerate ?opts) = Ok _ |- _ =>
      apply mapM_result_lookup in Hm as [Hlen Hall]; exists v5, opts
  end.
  repeat split; try done.
  - rewrite Hlen. unfold enumerate. by rewrite length_imap.
  - intros i ch Hch.
    destruct (Hall _ _ Hch) as ([j o] & Hjo & Hf).
    apply enumerate_lookup in Hjo as [-> Ho]. eauto.
Qed.

Lemma letter_at_spec i :
  letter_at i =
  if (i <? 26)%nat then Some (String (ascii_of_nat (65 + i)) "") else None.
Proof. do 26 (destruct i as [|i]; [reflexivity|]). reflexivity. Qed.

(** ** Correctness flags and letters *)

(** C1. The correctness flag of a normalized choice is true exactly when its
    letter is among the accepted letters or its option identifier is among the
    accepted identifiers; the accepted letters are those of the detail
    record, which the output lists again in sorted order. *)
Theorem correct_iff_letter_or_id X detail meta r i ch :
  normalize_detail X detail meta = Ok r →
  n_choices r !! i = Some ch →
  (c_correct ch = true ↔
     py_in (opt_str (c_key ch)) (n_correct_letters r) = true
     ∨ py_in (c_id ch) (n_correct_ids r) = true)
  ∧ ∃ letters,
      list_field detail "correct_answer" = Ok letters
      ∧ list_field detail "keys" = Ok (n_correct_ids r)
      ∧ (c_correct ch = true ↔
           py_in (opt_str (c_key ch)) letters = true
           ∨ py_in (c_id ch) (n_correct_ids r) = true).
Proof.
  intros Hr Hch.
  destruct (normalize_detail_choices _ _ _ _ Hr)
    as (letters & options & Hl & Hk & _ & Hsort & _ & Hall).
  destruct (Hall _ _ Hch) as (o & _ & Hc).
  apply normalize_choice_ok in Hc as (Hkey & _ & _ & _ & _ & Hok).
  rewrite Hkey, Hok. split.
  - rewrite orb_true_iff.
    by rewrite (py_in_perm _ _ _ (py_sorted_perm _ _ _ Hsort)).
  - exists letters. by rewrite orb_true_iff.
Qed.

Lemma correct_iff_letter_or_id_witness :
  ∃ r ch,
    normalize_detail (plain_externals always_timeout) detail_two_options
      (meta_with (Some "q") None) = Ok r
    ∧ n_choices r !! 1%nat = Some ch
    ∧ c_correct ch = true
    ∧ py_in (opt_str (c_key ch)) (n_correct_letters r) = true
    ∧ py_in (c_id ch) (n_correct_ids r) = false.
Proof.
  eexists _, _.
  split; [vm_compute; reflexivity|].
  split; [reflexivity|].
  split; [|split; reflexivity].
  eapply (correct_iff_letter_or_id (plain_externals always_timeout)
            detail_two_options (meta_with (Some "q") None) _ 1%nat _).
  - vm_compute; reflexivity.
  - reflexivity.
  - left. reflexivity.
Defined.

(** C6 as the specification words it fails once a record has more options than
    the alphabet has letters: the 27th option gets no letter. *)
Lemma option_27_has_no_letter :
  ∃ r,
    normalize_detail (plain_externals always_timeout) detail_27_options
      (meta_with (Some "q") None) = Ok r
    ∧ length (n_choices r) = 27%nat
    ∧ c_key <$> n_choices r !! 25%nat = Some (Some "Z")
    ∧ c_key <$> n_choices r !! 26%nat = Some None.
Proof. eexists. split; [vm_compute; reflexivity|]. repeat split. Qed.

(** C6, amended.  The choices follow the options in upstream order, and the
    letter of a choice depends on its position alone: position [i] (counted
    from 0) gets the [i]-th upper-case letter while [i < 26], and no letter
    (a null key) from position 26 on.  The markup of the option plays no part. *)
Theorem letters_are_positional X detail meta r :
  normalize_detail X detail meta = Ok r →
  ∃ options,
    list_field detail "answerOptions" = Ok options
    ∧ length (n_choices r) = length options
    ∧ ∀ i ch, n_choices r !! i = Some ch →
        (∃ o content, options !! i = Some o
                      ∧ py_get o "id" = Ok (c_id ch)
                      ∧ py_get o "content" = Ok content
                      ∧ c_html ch = py_or content (JStr ""))
        ∧ c_key ch =
            if (i <? 26)%nat then Some (String (ascii_of_nat (65 + i)) "") else None.
Proof.
  intros Hr.
  destruct (normalize_detail_choices _ _ _ _ Hr)
    as (letters & options & _ & _ & Hopts & _ & Hlen & Hall).
  exists options. repeat split; try done.
  - destruct (Hall _ _ H) as (o & Ho & Hc).
    apply normalize_choice_ok in Hc as (_ & Hid & (content & Hcont & Hhtml) & _).
    eauto 10.
  - destruct (Hall _ _ H) as (o & _ & Hc).
    apply normalize_choice_ok in Hc as (Hkey & _).
    by rewrite Hkey, letter_at_spec.
Qed.

Lemma letters_are_positional_witness :
  ∃ r,
    normalize_detail (plain_externals always_timeout) detail_two_options
      (meta_with (Some "q") None) = Ok r
    ∧ c_key <$> n_choices r = [Some "A"; Some "B"]
    ∧ ∃ options,
        list_field detail_two_options "answerOptions" = Ok options
        ∧ length (n_choices r) = length options
        ∧ ∀ i ch, n_choices r !! i = Some ch →
            (∃ o content, options !! i = Some o
                          ∧ py_get o "id" = Ok (c_id ch)
                          ∧ py_get o "content" = Ok content
                          ∧ c_html ch = py_or content (JStr ""))
            ∧ c_key ch =
                if (i <? 26)%nat then Some (String (ascii_of_nat (65 + i)) "") else None.
Proof.
  eexists. split; [vm_compute; reflexivity|]. split; [reflexivity|].
  apply (letters_are_positional (plain_externals always_timeout)
           detail_two_options (meta_with (Some "q") None)).
  vm_compute; reflexivity.
Defined.

(** ** Loops over the parse tree are maps over it *)

Lemma node_forall_ind (P : node → Prop) :
  (∀ s, P (NavigableString s)) →
  (∀ s, P (Comment s)) →
  (∀ c s, P (SpecialString c s)) →
  (∀ nm at_ ch, Forall P ch → P (Tag nm at_ ch)) →
  ∀ n, P n.
Proof.
  intros Hs Hc Hk Ht. fix IH 1.
  intros [s|s|c s|nm at_ ch]; [apply Hs|apply Hc|apply Hk|].
  apply Ht. induction ch as [|c ch IHch]; constructor; [apply IH|apply IHch].
Qed.

Lemma descendants_Tag nm at_ ch :
  descendants (Tag nm at_ ch) = descendants_from 0 ch.
Proof.
  simpl. generalize 0%nat. induction ch as [|c ch IH]; intros k; simpl; [done|].
  by rewrite IH.
Qed.

Lemma replace_each_app f l1 l2 s :
  replace_each f (l1 ++ l2) s = replace_each f l2 (replace_each f l1 s).
Proof. apply fold_left_app. Qed.

Lemma descendants_from_paths k ch :
  Forall (λ pn : path * node, pn.1 ≠ []) (descendants_from k ch).
Proof.
  revert k. induction ch as [|c ch IH]; intros k; simpl; [constructor|].
  constructor; [done|]. apply Forall_app. split; [|apply IH].
  apply Forall_map. by apply Forall_true.
Qed.

Lemma descendants_paths n : Forall (λ pn : path * node, pn.1 ≠ []) (descendants n).
Proof.
  destruct n; try constructor. rewrite descendants_Tag. apply descendants_from_paths.
Qed.

Lemma node_at_below k p (cur : soup) nm at_ ch :
  p ≠ [] → cur !! k = Some (Tag nm at_ ch) → node_at (k :: p) cur = node_at p ch.
Proof. intros Hp Hk. destruct p; [done|]. simpl. by rewrite Hk. Qed.

Lemma node_at_detached k p (cur : soup) :
  p ≠ [] → (∀ nm at_ ch, cur !! k ≠ Some (Tag nm at_ ch)) →
  node_at (k :: p) cur = None.
Proof.
  intros Hp Hk. destruct p; [done|]. simpl.
  destruct (cur !! k) as [[| | |nm at_ ch]|] eqn:E; try done. by destruct (Hk nm at_ ch).
Qed.

Lemma replace_with_below k p t (cur : soup) nm at_ ch :
  p ≠ [] → cur !! k = Some (Tag nm at_ ch) →
  replace_with (k :: p) t cur = <[k := Tag nm at_ (replace_with p t ch)]> cur.
Proof. intros Hp Hk. destruct p; [done|]. simpl. by rewrite Hk. Qed.

Lemma replace_with_detached k p t (cur : soup) :
  p ≠ [] → (∀ nm at_ ch, cur !! k ≠ Some (Tag nm at_ ch)) →
  replace_with (k :: p) t cur = cur.
Proof.
  intros Hp Hk. destruct p; [done|]. simpl.
  destruct (cur !! k) as [[| | |nm at_ ch]|] eqn:E; try done. by destruct (Hk nm at_ ch).
Qed.

Lemma replace_each_cons f pn L cur :
  replace_each f (pn :: L) cur
  = replace_each f L (match f pn.2 (element_now pn cur) with
                      | Some t => replace_with pn.1 t cur
                      | None => cur
                      end).
Proof. reflexivity. Qed.

(** Below a position that holds an element, the loop works on the children
    of that element. *)
Lemma replace_each_below f k L :
  Forall (λ pn : path * node, pn.1 ≠ []) L →
  ∀ (cur : soup) nm at_ ch,
  cur !! k = Some (Tag nm at_ ch) →
  replace_each f (map (λ pn, (k :: pn.1, pn.2)) L) cur
  = <[k := Tag nm at_ (replace_each f L ch)]> cur.
Proof.
  induction 1 as [|[p n] L Hp _ IH]; intros cur nm at_ ch Hk.
  - simpl. by rewrite list_insert_id.
  - cbn [map]. rewrite !replace_each_cons. unfold element_now. cbn [fst snd] in *.
    rewrite (node_at_below _ _ _ _ _ _ Hp Hk).
    destruct (f n (default n (node_at p ch))) as [t|]; [|by apply IH].
    rewrite (replace_with_below _ _ _ _ _ _ _ Hp Hk).
    erewrite IH; [by rewrite list_insert_insert_eq|].
    apply list_lookup_insert_eq. by eapply lookup_lt_Some.
Qed.

(** Below a position that holds a string, the loop changes nothing. *)
Lemma replace_each_detached f k L (cur : soup) :
  Forall (λ pn : path * node, pn.1 ≠ []) L →
  (∀ nm at_ ch, cur !! k ≠ Some (Tag nm at_ ch)) →
  replace_each f (map (λ pn, (k :: pn.1, pn.2)) L) cur = cur.
Proof.
  intros HL Hk. induction HL as [|[p n] L Hp _ IH]; [done|].
  cbn [map]. rewrite replace_each_cons. cbn [fst snd] in *.
  destruct (f n _) as [t|]; [|done].
  by rewrite (replace_with_detached _ _ _ _ Hp Hk).
Qed.

Lemma replace_elements_some f n t :
  f n = Some t → replace_elements f n = NavigableString t.
Proof. intros H. destruct n; simpl; by rewrite H. Qed.

Lemma replace_elements_none f n :
  f n = None →
  replace_elements f n =
  match n with
  | Tag nm at_ ch => Tag nm at_ (map (replace_elements f) ch)
  | _ => n
  end.
Proof. intros H. destruct n; simpl; by rewrite H. Qed.

Lemma replace_each_forest f s :
  Forall (λ n, ∀ nm at_ ch, n = Tag nm at_ ch →
               replace_each f (descendants n) ch
               = map (replace_elements (λ m, f m m)) ch) s →
  ∀ pre, replace_each f (descendants_from (length pre) s) (pre ++ s)
         = pre ++ map (replace_elements (λ m, f m m)) s.
Proof.
  induction 1 as [|c s Hc _ IH]; intros pre; [done|].
  cbn [descendants_from map].
  assert (Hk : (pre ++ c :: s) !! length pre = Some c) by by apply list_lookup_middle.
  assert (Hins : ∀ x, <[length pre := x]> (pre ++ c :: s) = (pre ++ [x]) ++ s).
  { intros x. rewrite <-(Nat.add_0_r (length pre)), insert_app_r. simpl.
    by rewrite <-app_assoc. }
  assert (Hnext : ∀ x, replace_each f (descendants_from (S (length pre)) s) ((pre ++ [x]) ++ s)
                       = pre ++ x :: map (replace_elements (λ m, f m m)) s).
  { intros x. specialize (IH (pre ++ [x])). rewrite length_app in IH. simpl in IH.
    rewrite Nat.add_1_r in IH. rewrite IH. by rewrite <-app_assoc. }
  rewrite replace_each_cons, replace_each_app.
  unfold element_now at 1. cbn [fst snd node_at]. rewrite Hk.
  change (default c (Some c)) with c.
  destruct (f c c) as [t|] eqn:Hf.
  - rewrite (replace_elements_some (λ m, f m m) _ _ Hf).
    cbn [replace_with]. rewrite Hk, Hins.
    rewrite replace_each_detached; [apply Hnext|apply descendants_paths|].
    intros nm at_ ch. rewrite lookup_app_l, lookup_app_r by (rewrite ?length_app; simpl; lia).
    by rewrite Nat.sub_diag.
  - rewrite (replace_elements_none (λ m, f m m) _ Hf).
    destruct c as [t|t|k t|nm at_ ch].
    + simpl. rewrite <-Hnext. by rewrite <-app_assoc.
    + simpl. rewrite <-Hnext. by rewrite <-app_assoc.
    + simpl. rewrite <-Hnext. by rewrite <-app_assoc.
    + erewrite replace_each_below; [|apply descendants_paths|exact Hk].
      rewrite (Hc _ _ _ eq_refl), Hins. apply Hnext.
Qed.

Lemma replace_each_node f n nm at_ ch :
  n = Tag nm at_ ch →
  replace_each f (descendants n) ch = map (replace_elements (λ m, f m m)) ch.
Proof.
  revert nm at_ ch. induction n as [s|s|k s|nm' at' ch' IH] using node_forall_ind;
    intros nm at_ ch [=]. subst.
  rewrite descendants_Tag. apply (replace_each_forest f ch IH []).
Qed.

(** A loop over all the elements of the soup, in document order, is a map
    over the soup: what the loop reads of an element when its turn comes is
    what was there from the start. *)
Lemma replace_each_soup f (s : soup) :
  replace_each f (descendants_from 0 s) s = map (replace_elements (λ m, f m m)) s.
Proof.
  apply (replace_each_forest f s) with (pre := []).
  apply Forall_forall. intros n _ nm at_ ch. apply replace_each_node.
Qed.

(** ** Words *)

Lemma str_app_cons c a b : String c a +:+ b = String c (a +:+ b).
Proof. reflexivity. Qed.

Lemma str_app_nil_l a : "" +:+ a = a.
Proof. reflexivity. Qed.

Lemma str_app_nil_r a : a +:+ "" = a.
Proof. induction a as [|c a IH]; [done|]. rewrite str_app_cons. by f_equal. Qed.

Lemma str_app_assoc a b c : (a +:+ b) +:+ c = a +:+ (b +:+ c).
Proof. induction a as [|d a IH]; [done|]. rewrite !str_app_cons. by f_equal. Qed.

Lemma str_take_drop n s : str_take n s +:+ str_drop n s = s.
Proof.
  revert s. induction n as [|n IH]; intros [|c s]; try done.
  simpl. rewrite str_app_cons. by rewrite IH.
Qed.

Lemma tokens_from_skip k s : tokens_from k s = tokens (str_drop k s).
Proof.
  revert k. induction s as [|c s IH]; intros [|k]; try done. simpl. apply IH.
Qed.

Lemma untokens_tokens_from s k : untokens (tokens_from k s) = str_drop k s.
Proof.
  revert k. induction s as [|c s IH]; intros [|k]; try done.
  - cbn [tokens_from str_drop].
    destruct (blank_len (String c s)) as [|n] eqn:E.
    + cbn [untokens token_text]. rewrite IH. done.
    + cbn [untokens token_text]. rewrite IH. cbn [str_take]. rewrite str_app_cons.
      by rewrite str_take_drop.
  - simpl. apply IH.
Qed.

Lemma untokens_tokens s : untokens (tokens s) = s.
Proof. apply (untokens_tokens_from s 0). Qed.

Lemma untokens_app l1 l2 : untokens (l1 ++ l2) = untokens l1 +:+ untokens l2.
Proof.
  induction l1 as [|t l1 IH]; [done|]. simpl. by rewrite IH, str_app_assoc.
Qed.

(** A blank is recognised from its own bytes. *)
Lemma blank_len_app x y n : blank_len x = S n → blank_len (x +:+ y) = S n.
Proof.
  destruct x as [|c [|d [|e x]]]; rewrite ?str_app_cons, ?str_app_nil_l;
    cbn [blank_len]; try done.
  - destruct (is_space c); [done|]. done.
  - destruct (is_space c); [done|]. destruct (is_space2 c d); done.
Qed.

Lemma blank_len_take s n :
  blank_len s = S n →
  blank_len (str_take (S n) s) = S n ∧ String.length (str_take (S n) s) = S n.
Proof.
  destruct s as [|c [|d [|e x]]]; cbn [blank_len]; try done.
  - destruct (is_space c) eqn:Hc; [|done]. intros [= <-].
    cbn [str_take blank_len String.length]. by rewrite Hc.
  - destruct (is_space c) eqn:Hc;
      [intros [= <-]; cbn [str_take blank_len String.length]; by rewrite Hc|].
    destruct (is_space2 c d) eqn:Hd; [|done]. intros [= <-].
    cbn [str_take blank_len String.length]. by rewrite Hc, Hd.
  - destruct (is_space c) eqn:Hc;
      [intros [= <-]; cbn [str_take blank_len String.length]; by rewrite Hc|].
    destruct (is_space2 c d) eqn:Hd;
      [intros [= <-]; cbn [str_take blank_len String.length]; by rewrite Hc, Hd|].
    destruct (is_space3 c d e) eqn:He; [|done]. intros [= <-].
    cbn [str_take blank_len String.length]. by rewrite Hc, Hd, He.
Qed.

Lemma str_take_length_app x y : str_take (String.length x) (x +:+ y) = x.
Proof. induction x as [|c x IH]; [by destruct y|]. simpl. by rewrite IH. Qed.

Lemma str_drop_length_app x y : str_drop (String.length x) (x +:+ y) = y.
Proof. induction x as [|c x IH]; [by destruct y|]. simpl. by rewrite IH. Qed.

(** An ASCII byte after the bytes read so far completes no blank. *)
Lemma blank_len_before_ascii x c y :
  x ≠ "" → (nat_of_ascii c < 128)%nat →
  blank_len (x +:+ String c y) = blank_len x.
Proof.
  intros Hx Hc.
  assert (H2 : ∀ a, is_space2 a c = false).
  { intros a. unfold is_space2.
    destruct (Nat.eqb_spec (nat_of_ascii c) 133), (Nat.eqb_spec (nat_of_ascii c) 160);
      first [lia|by rewrite andb_false_r]. }
  assert (H3 : ∀ a b, is_space3 a c b = false).
  { intros a b. unfold is_space3.
    destruct (Nat.eqb_spec (nat_of_ascii c) 154), (Nat.eqb_spec (nat_of_ascii c) 128),
      (Nat.eqb_spec (nat_of_ascii c) 129);
      first [lia|by rewrite !andb_false_r]. }
  assert (H3' : ∀ a b, is_space3 a b c = false).
  { intros a b. unfold is_space3.
    destruct (Nat.eqb_spec (nat_of_ascii c) 128), (Nat.eqb_spec (nat_of_ascii c) 159),
      (Nat.eqb_spec (nat_of_ascii c) 168), (Nat.eqb_spec (nat_of_ascii c) 169),
      (Nat.eqb_spec (nat_of_ascii c) 175), (Nat.leb_spec 128 (nat_of_ascii c));
      first [lia|by rewrite !andb_false_r]. }
  destruct x as [|a [|b [|e x]]]; [done|..];
    rewrite ?str_app_cons, ?str_app_nil_l; cbn [blank_len]; [| |done].
  - rewrite H2. destruct y; [done|]. by rewrite H3.
  - by rewrite H3'.
Qed.

(** *** Token lists that are the reading of a string *)

Lemma tokens_from_well_read s k : well_read (tokens_from k s).
Proof.
  revert k. induction s as [|c s IH]; intros [|k]; try done; [|apply IH].
  cbn [tokens_from]. destruct (blank_len (String c s)) as [|n] eqn:E.
  - cbn [well_read]. split; [|apply IH].
    by rewrite (untokens_tokens_from s 0).
  - destruct (blank_len_take _ _ E) as [H1 H2].
    cbn [well_read]. split; [congruence|]. split; [|apply IH].
    by cbn [str_take].
Qed.

Lemma tokens_well_read s : well_read (tokens s).
Proof. apply tokens_from_well_read. Qed.

Lemma tokens_untokens l : well_read l → tokens (untokens l) = l.
Proof.
  induction l as [|[b|c] l IH]; [done| |].
  - intros (Hb & Hne & Hl). cbn [untokens token_text].
    destruct b as [|c b]; [done|]. rewrite str_app_cons. unfold tokens.
    cbn [tokens_from]. rewrite <-str_app_cons.
    simpl String.length in Hb.
    rewrite (blank_len_app _ _ _ Hb).
    rewrite tokens_from_skip.
    rewrite str_drop_length_app, IH by done. do 2 f_equal.
    apply (str_take_length_app (String c b)).
  - intros (Hc & Hl). cbn [untokens token_text]. rewrite str_app_cons, str_app_nil_l.
    unfold tokens. cbn [tokens_from]. rewrite Hc. f_equal. by apply IH.
Qed.

Lemma well_read_app l1 l2 : well_read (l1 ++ l2) → well_read l1 ∧ well_read l2.
Proof.
  induction l1 as [|[b|c] l1 IH]; [done| |]; cbn [app well_read].
  - intros (?&?&H). by destruct (IH H).
  - intros (Hc & H). destruct (IH H). split; [|done]. split; [|done].
    destruct (blank_len (String c (untokens l1))) as [|n] eqn:E; [done|].
    rewrite untokens_app, <-str_app_cons in Hc.
    by rewrite (blank_len_app _ _ _ E) in Hc.
Qed.

Lemma well_read_sep l1 c y l2 :
  untokens l2 = String c y → (nat_of_ascii c < 128)%nat →
  well_read l1 → well_read l2 → well_read (l1 ++ l2).
Proof.
  intros Hy Hc H1 H2. induction l1 as [|[b|d] l1 IH]; [done| |]; cbn [app well_read] in *.
  - destruct H1 as (?&?&?). auto.
  - destruct H1 as (Hd & H1). split; [|auto].
    rewrite untokens_app, Hy, <-str_app_cons.
    by rewrite blank_len_before_ascii.
Qed.

Lemma tokens_sep a b : tokens (a +:+ " " +:+ b) = tokens a ++ Blank " " :: tokens b.
Proof.
  rewrite <-(tokens_untokens (tokens a ++ Blank " " :: tokens b)).
  - rewrite untokens_app. cbn [untokens token_text]. by rewrite !untokens_tokens.
  - eapply (well_read_sep _ " " (untokens (tokens b))); [done|by apply Nat.ltb_lt|apply tokens_well_read|].
    cbn [well_read]. repeat split; [done|apply tokens_well_read].
Qed.

Lemma py_split_aux_space w l1 b l2 :
  py_split_aux w (l1 ++ Blank b :: l2) = py_split_aux w l1 ++ py_split_aux "" l2.
Proof.
  revert w. induction l1 as [|[b'|c] l1 IH]; intros w; cbn [app py_split_aux].
  - by destruct (str_nonempty w).
  - destruct (str_nonempty w); simpl; by rewrite IH.
  - apply IH.
Qed.

Lemma py_split_sep a b : py_split (a +:+ " " +:+ b) = py_split a ++ py_split b.
Proof. unfold py_split. rewrite tokens_sep. apply py_split_aux_space. Qed.

Lemma py_split_join l : py_split (py_join " " l) = flat_map py_split l.
Proof.
  induction l as [|x [|y l] IH]; [done| |].
  - simpl. by rewrite app_nil_r.
  - change (py_join " " (x :: y :: l)) with (x +:+ " " +:+ py_join " " (y :: l)).
    rewrite py_split_sep, IH. done.
Qed.

Lemma py_split_aux_lstrip l : py_split_aux "" (lstrip l) = py_split_aux "" l.
Proof. induction l as [|[b|c] l IH]; done. Qed.

Lemma py_split_aux_rstrip w l : py_split_aux w (rstrip l) = py_split_aux w l.
Proof.
  revert w. induction l as [|[b|c] l IH]; intros w; [done| |].
  - cbn [rstrip]. destruct (rstrip l) as [|t r] eqn:Hr.
    + cbn [py_split_aux]. rewrite <-(IH ""). simpl. by destruct (str_nonempty w).
    + cbn [py_split_aux]. by rewrite <-!IH.
  - cbn [rstrip]. replace (match rstrip l with [] => Byte c :: rstrip l | _ => Byte c :: rstrip l end)
      with (Byte c :: rstrip l) by by destruct (rstrip l).
    cbn [py_split_aux]. apply IH.
Qed.

Lemma lstrip_suffix l : ∃ pre, l = pre ++ lstrip l.
Proof.
  induction l as [|[b|c] l [pre IH]]; [by exists []| |by exists []].
  exists (Blank b :: pre). simpl. by f_equal.
Qed.

Lemma rstrip_prefix l : ∃ post, l = rstrip l ++ post.
Proof.
  induction l as [|t l [post IH]]; [by exists []|].
  cbn [rstrip]. destruct t as [b|c].
  - destruct (rstrip l) as [|t' r] eqn:Hr.
    + exists (Blank b :: l). done.
    + exists post. simpl. by f_equal.
  - exists post. destruct (rstrip l); simpl; by f_equal.
Qed.

Lemma py_split_strip s : py_split (py_strip s) = py_split s.
Proof.
  unfold py_strip, py_split. rewrite tokens_untokens.
  - by rewrite py_split_aux_rstrip, py_split_aux_lstrip.
  - pose proof (tokens_well_read s) as H.
    destruct (lstrip_suffix (tokens s)) as [pre Hpre]. rewrite Hpre in H.
    apply well_read_app in H as [_ H].
    destruct (rstrip_prefix (lstrip (tokens s))) as [post Hpost]. rewrite Hpost in H.
    by apply well_read_app in H as [H _].
Qed.

Lemma py_split_nil_of_empty s : str_nonempty s = false → py_split s = [].
Proof.
  unfold str_nonempty. intros H. apply negb_false_iff, String.eqb_eq in H. by subst.
Qed.

Lemma str_nonempty_snoc w c : str_nonempty (w +:+ String c "") = true.
Proof. by destruct w. Qed.

Lemma list_ascii_snoc w c :
  String.list_ascii_of_string (w +:+ String c "") = String.list_ascii_of_string w ++ [c].
Proof. induction w as [|d w IH]; [done|]. rewrite str_app_cons. simpl. by rewrite IH. Qed.

Lemma untokens_byte_tokens w : untokens (byte_tokens w) = w.
Proof.
  induction w as [|c w IH]; [done|].
  change (byte_tokens (String c w)) with (Byte c :: byte_tokens w).
  cbn [untokens token_text]. by rewrite IH.
Qed.

Lemma byte_tokens_snoc w c : byte_tokens (w +:+ String c "") = byte_tokens w ++ [Byte c].
Proof. unfold byte_tokens. by rewrite list_ascii_snoc, fmap_app. Qed.

Lemma byte_tokens_not_blank w : Forall (λ t, is_blank t = false) (byte_tokens w).
Proof. unfold byte_tokens. apply Forall_fmap, Forall_true. done. Qed.

(** The words of a string that was read: every run of bytes between two
    blanks reads as itself. *)
Lemma py_split_aux_words w l :
  well_read (byte_tokens w ++ l) → Forall is_word (py_split_aux w l).
Proof.
  assert (Hword : ∀ w l, well_read (byte_tokens w ++ l) → str_nonempty w = true → is_word w).
  { intros w' l' H Hne. split; [done|].
    apply well_read_app in H as [H _]. apply tokens_untokens in H.
    rewrite untokens_byte_tokens in H. rewrite H. apply byte_tokens_not_blank. }
  revert w. induction l as [|[b|c] l IH]; intros w Hw; cbn [py_split_aux].
  - destruct (str_nonempty w) eqn:E; [|constructor]. repeat constructor; by eapply Hword.
  - assert (Forall is_word (py_split_aux "" l)) as Hl.
    { apply IH. apply well_read_app in Hw as [_ Hw]. by destruct Hw as (_&_&Hw). }
    destruct (str_nonempty w) eqn:E; [|done]. constructor; [by eapply Hword|done].
  - apply IH. rewrite byte_tokens_snoc, <-app_assoc. done.
Qed.

Lemma py_split_words s : Forall is_word (py_split s).
Proof. apply py_split_aux_words. apply tokens_well_read. Qed.

Lemma py_split_aux_bytes w0 l :
  Forall (λ t, is_blank t = false) l →
  py_split_aux w0 l = if str_nonempty (w0 +:+ untokens l) then [w0 +:+ untokens l] else [].
Proof.
  revert w0. induction l as [|[b|c] l IH]; intros w0 Hl; cbn [py_split_aux untokens token_text].
  - by rewrite str_app_nil_r.
  - by inversion Hl.
  - inversion Hl; subst. rewrite IH by done. by rewrite str_app_assoc.
Qed.

Lemma py_split_word w : is_word w → py_split w = [w].
Proof.
  intros [Hne Hw]. unfold py_split. rewrite py_split_aux_bytes by done.
  rewrite str_app_nil_l, untokens_tokens. by rewrite Hne.
Qed.

Lemma py_split_compact s : py_split (compact_text s) = py_split s.
Proof.
  unfold compact_text. rewrite py_split_join.
  induction (py_split_words s) as [|w l Hw _ IH]; [done|]. simpl. by rewrite py_split_word, IH.
Qed.

(** *** Joining the words is collapsing the blanks *)

Lemma py_split_aux_nonempty w l :
  str_nonempty w = true → ∃ x l', py_split_aux w l = x :: l'.
Proof.
  revert w. induction l as [|[b|c] l IH]; intros w Hw; cbn [py_split_aux].
  - rewrite Hw. eauto.
  - rewrite Hw; eauto.
  - apply IH, str_nonempty_snoc.
Qed.

Lemma py_join_cons sep x y l :
  py_join sep (x :: y :: l) = x +:+ sep +:+ py_join sep (y :: l).
Proof. reflexivity. Qed.

Lemma join_split_collapse l :
  (∀ w, str_nonempty w = true →
        py_join " " (py_split_aux w l) = w +:+ collapse_aux true false l)
  ∧ (∀ x, py_join " " (x :: py_split_aux "" l) = x +:+ collapse_aux true true l)
  ∧ (∀ p, py_join " " (py_split_aux "" l) = collapse_aux false p l).
Proof.
  induction l as [|[b|c] l (IH1 & IH2 & IH3)].
  - repeat split.
    + intros w Hw. simpl. rewrite Hw. simpl. by rewrite str_app_nil_r.
    + intros x. simpl. by rewrite str_app_nil_r.
  - repeat split.
    + intros w Hw. cbn [py_split_aux collapse_aux]. rewrite Hw. apply IH2.
    + intros x. cbn [py_split_aux collapse_aux]. apply IH2.
    + intros p. cbn [py_split_aux collapse_aux]. apply IH3.
  - assert (Hone : py_join " " (py_split_aux (String c "") l)
                   = String c (collapse_aux true false l)).
    { rewrite IH1 by done. reflexivity. }
    repeat split.
    + intros w Hw. cbn [py_split_aux collapse_aux andb].
      rewrite IH1 by apply str_nonempty_snoc. by rewrite str_app_assoc.
    + intros x. cbn [py_split_aux collapse_aux andb].
      rewrite str_app_nil_l.
      destruct (py_split_aux_nonempty (String c "") l eq_refl) as (y & l' & Hyl).
      rewrite Hyl, py_join_cons, <-Hyl, Hone. done.
    + intros p. cbn [py_split_aux collapse_aux andb].
      rewrite str_app_nil_l. apply Hone.
Qed.

Lemma compact_text_collapse s : compact_text s = collapse_blanks s.
Proof. apply join_split_collapse. Qed.

Lemma stripped_strings_words types n :
  flat_map py_split (stripped_strings types n) = node_words types n.
Proof.
  assert (Hs : ∀ s, flat_map py_split
                      (let t := py_strip s in if str_nonempty t then [t] else [])
                    = py_split s).
  { intros s. cbv zeta. destruct (str_nonempty (py_strip s)) eqn:E; simpl.
    - by rewrite app_nil_r, py_split_strip.
    - apply py_split_nil_of_empty in E. by rewrite py_split_strip in E. }
  induction n as [s|s|k s|nm at_ ch IH] using node_forall_ind;
    cbn [stripped_strings node_words].
  - destruct (string_of_types types _); [apply Hs|done].
  - destruct (string_of_types types _); [apply Hs|done].
  - destruct (string_of_types types _); [apply Hs|done].
  - induction IH as [|c ch Hc _ IHch]; [done|]. simpl.
    by rewrite flat_map_app, Hc, IHch.
Qed.

Lemma get_text_words n :
  py_split (get_text n) = node_words (interesting_string_types n) n.
Proof. unfold get_text. by rewrite py_split_join, stripped_strings_words. Qed.

Lemma soup_get_text_words (s : soup) :
  py_split (soup_get_text s) = flat_map (node_words None) s.
Proof.
  unfold soup_get_text. rewrite py_split_join.
  induction s as [|c s IH]; [done|]. simpl.
  by rewrite flat_map_app, stripped_strings_words, IH.
Qed.

(** ** The plaintext mirror *)

Lemma spec_image_loop n : spec_image n = loop_image n.
Proof.
  unfold spec_image, loop_image, img_text, attr_or, nonempty_attr.
  destruct (is_tag "img" n); [|done].
  destruct (attr_get n "alt") as [a|]; [destruct (str_nonempty a)|];
    destruct (attr_get n "aria-label") as [l|]; try destruct (str_nonempty l); done.
Qed.

Lemma spec_svg_loop n : spec_svg n = loop_svg n.
Proof.
  unfold spec_svg, loop_svg, svg_text, attr_or, nonempty_attr.
  destruct (is_tag "svg" n); [|done].
  destruct (attr_get n "aria-label") as [l|]; try destruct (str_nonempty l); done.
Qed.

Lemma replace_elements_ext f g n :
  (∀ m, f m = g m) → replace_elements f n = replace_elements g n.
Proof.
  intros Hfg. induction n as [s|s|k s|nm at_ ch IH] using node_forall_ind; simpl;
    rewrite <-Hfg; [done..|].
  destruct (f _); [done|]. f_equal.
  induction IH as [|c ch Hc _ IHch]; [done|]. simpl. by rewrite Hc, IHch.
Qed.

(** A loop over [find_all] is a loop over all descendants that skips the
    ones the search does not select. *)
Lemma fold_find_all (p : node → bool) (F : soup → path * node → soup)
    (f : node → node → option string) (s cur : soup) :
  (∀ c pn, (if p pn.2 then F c pn else c)
           = match f pn.2 (element_now pn c) with
             | Some t => replace_with pn.1 t c
             | None => c
             end) →
  fold_left F (find_all p s) cur = replace_each f (descendants_from 0 s) cur.
Proof.
  intros HF. unfold find_all, replace_each. revert cur.
  induction (descendants_from 0 s) as [|pn L IH]; intros cur; [done|].
  rewrite filter_cons. simpl. rewrite <-HF.
  destruct (p pn.2) eqn:E.
  - rewrite decide_True by done. simpl. apply IH.
  - rewrite decide_False by done. apply IH.
Qed.

Lemma soup_to_plaintext_maps (s : soup) :
  soup_to_plaintext s =
  compact_text (soup_get_text
    (map (replace_elements loop_region)
       (map (replace_elements loop_svg) (map (replace_elements loop_image) s)))).
Proof.
  unfold soup_to_plaintext. cbv zeta.
  rewrite (fold_find_all (is_tag "img") _ (λ found _, loop_image found)),
    replace_each_soup.
  2:{ intros c pn. unfold loop_image. by destruct (is_tag "img" pn.2). }
  rewrite (fold_find_all (is_tag "svg") _ (λ found _, loop_svg found)),
    replace_each_soup.
  2:{ intros c pn. unfold loop_svg. by destruct (is_tag "svg" pn.2). }
  rewrite (fold_find_all (has_attr "role" "region") _ loop_region_now),
    replace_each_soup.
  2:{ intros c pn. unfold loop_region_now.
      destruct (has_attr "role" "region" pn.2); [|done].
      by destruct (region_selected pn.2). }
  done.
Qed.

(** Two replacements that agree on which elements they replace, and on the
    words of what they put in their place, leave the same words. *)
Lemma node_words_replace2 f g types n :
  (∀ m, match f m, g m with
        | Some t, Some t' => py_split t = py_split t'
        | None, None => True
        | _, _ => False
        end) →
  node_words types (replace_elements f n) = node_words types (replace_elements g n).
Proof.
  intros Hfg.
  assert (Hsome : ∀ m t t', f m = Some t → g m = Some t' →
            node_words types (replace_elements f m)
            = node_words types (replace_elements g m)).
  { intros m t t' Hf Hg. rewrite (replace_elements_some _ _ _ Hf),
      (replace_elements_some _ _ _ Hg). specialize (Hfg m). rewrite Hf, Hg in Hfg.
    cbn [node_words string_of_types]. destruct types; [done|exact Hfg]. }
  assert (Hleaf : ∀ m, (∀ nm at_ ch, m ≠ Tag nm at_ ch) →
            node_words types (replace_elements f m)
            = node_words types (replace_elements g m)).
  { intros m Hm. pose proof (Hfg m) as H.
    destruct (f m) as [t|] eqn:Hf; destruct (g m) as [t'|] eqn:Hg; try done;
      [by eapply Hsome|].
    rewrite (replace_elements_none _ _ Hf), (replace_elements_none _ _ Hg).
    destruct m as [| | |nm at_ ch]; [done..|by destruct (Hm nm at_ ch)]. }
  induction n as [s|s|k s|nm at_ ch IH] using node_forall_ind;
    [by apply Hleaf..|].
  pose proof (Hfg (Tag nm at_ ch)) as H.
  destruct (f (Tag nm at_ ch)) as [t|] eqn:Hf;
    destruct (g (Tag nm at_ ch)) as [t'|] eqn:Hg; try done; [by eapply Hsome|].
  rewrite (replace_elements_none _ _ Hf), (replace_elements_none _ _ Hg).
  cbn [node_words]. clear Hf Hg H.
  induction IH as [|c ch Hc _ IHch]; [done|]. simpl. by rewrite Hc, IHch.
Qed.

Lemma loop_region_words m t :
  loop_region m = Some t → py_split t = node_words (interesting_string_types m) m.
Proof.
  unfold loop_region. destruct (has_attr _ _ _); [|done].
  destruct (region_selected m); [|done]. intros [= <-].
  by rewrite py_split_compact, get_text_words.
Qed.

(** The pieces of text of the specification hold the words of the strings
    that [get_text] gives. *)
Lemma text_pieces_words kind types n :
  (∀ m, kind m = bool_decide (is_Some (string_of_types types m))) →
  flat_map py_split (text_pieces kind n) = node_words types n.
Proof.
  intros Hk.
  assert (Hleaf : ∀ m s, (∀ t, string_of_types types m = Some t → t = s) →
            flat_map py_split (if kind m then [s] else [])
            = match string_of_types types m with
              | Some t => py_split t
              | None => []
              end).
  { intros m s Hs. rewrite (Hk m).
    destruct (string_of_types types m) as [t|] eqn:E.
    - rewrite bool_decide_eq_true_2 by done. rewrite (Hs t eq_refl). simpl.
      by rewrite app_nil_r.
    - by rewrite bool_decide_eq_false_2 by by intros []. }
  induction n as [s|s|k s|nm at_ ch IH] using node_forall_ind;
    cbn [text_pieces node_words].
  - apply Hleaf. intros t. destruct types; simpl; congruence.
  - apply Hleaf. intros t. destruct types; simpl; congruence.
  - apply Hleaf. intros t.
    destruct k, types as [k'|]; cbn [string_of_types]; try case_decide; congruence.
  - induction IH as [|c ch Hc _ IHch]; [done|]. simpl.
    by rewrite flat_map_app, Hc, IHch.
Qed.

Lemma is_text_types m : is_text m = bool_decide (is_Some (string_of_types None m)).
Proof.
  destruct m as [s|s|k s|nm at_ ch]; cbn [is_text string_of_types].
  - by rewrite bool_decide_eq_true_2.
  - by rewrite bool_decide_eq_false_2 by by intros [].
  - destruct k; first [by rewrite bool_decide_eq_true_2
                      |by rewrite bool_decide_eq_false_2 by by intros []].
  - by rewrite bool_decide_eq_false_2 by by intros [].
Qed.

Lemma has_class_types c m :
  has_class c m = bool_decide (is_Some (string_of_types (Some c) m)).
Proof.
  destruct m as [s|s|k s|nm at_ ch]; cbn [has_class string_of_types].
  1,2,4: by rewrite bool_decide_eq_false_2 by by intros [].
  destruct (decide (k = c)) as [->|Hne].
  - rewrite bool_decide_eq_true_2 by done.
    destruct c; by rewrite bool_decide_eq_true_2.
  - rewrite bool_decide_eq_false_2 by done.
    destruct k; by rewrite bool_decide_eq_false_2 by by intros [].
Qed.

Lemma text_kind_types n m :
  text_kind n m
  = bool_decide (is_Some (string_of_types (interesting_string_types n) m)).
Proof.
  unfold text_kind, interesting_string_types, string_container.
  destruct n as [s|s|k s|nm at_ ch]; cbn [is_tag]; try apply is_text_types.
  destruct (String.eqb nm "script") eqn:E1.
  { apply String.eqb_eq in E1 as ->. apply has_class_types. }
  destruct (String.eqb nm "style") eqn:E2.
  { apply String.eqb_eq in E2 as ->. apply has_class_types. }
  destruct (String.eqb nm "template") eqn:E3.
  { apply String.eqb_eq in E3 as ->. apply has_class_types. }
  destruct (String.eqb nm "rt") eqn:E4.
  { apply String.eqb_eq in E4 as ->. apply has_class_types. }
  destruct (String.eqb nm "rp") eqn:E5.
  { apply String.eqb_eq in E5 as ->. apply has_class_types. }
  apply is_text_types.
Qed.

Lemma spec_region_words m t :
  spec_region m = Some t → py_split t = node_words (interesting_string_types m) m.
Proof.
  unfold spec_region. destruct (_ && _); [|done]. intros [= <-].
  rewrite py_split_join. apply text_pieces_words, text_kind_types.
Qed.

(** The selection of the regions in the source is the one the specification
    names. *)
Lemma loop_region_selects n : is_Some (loop_region n) ↔ is_Some (spec_region n).
Proof.
  unfold loop_region, spec_region, region_selected, attr_or, nonempty_attr.
  destruct (has_attr "role" "region" n); [|done]. simpl.
  destruct (bool_decide ("sr-only" ∈ attr_class n)); [done|]. simpl.
  destruct (attr_get n "aria-label") as [l|]; [|done].
  destruct (str_nonempty l) eqn:E; [|done]. rewrite E.
  by rewrite bool_decide_eq_true_2.
Qed.

Lemma loop_region_spec_words m :
  match loop_region m, spec_region m with
  | Some t, Some t' => py_split t = py_split t'
  | None, None => True
  | _, _ => False
  end.
Proof.
  pose proof (loop_region_selects m) as [H1 H2].
  destruct (loop_region m) as [t|] eqn:Hl, (spec_region m) as [t'|] eqn:Hs.
  - by rewrite (loop_region_words _ _ Hl), (spec_region_words _ _ Hs).
  - by destruct H1.
  - by destruct H2.
  - done.
Qed.

Lemma soup_to_plaintext_spec (s : soup) : soup_to_plaintext s = spec_plaintext s.
Proof.
  rewrite soup_to_plaintext_maps. unfold spec_plaintext. cbv zeta.
  rewrite <-compact_text_collapse. unfold compact_text.
  f_equal. rewrite soup_get_text_words, py_split_join.
  rewrite (map_ext _ _ (λ n, replace_elements_ext _ _ n spec_svg_loop)).
  rewrite (map_ext _ _ (λ n, replace_elements_ext _ _ n spec_image_loop)).
  induction (map (replace_elements loop_svg) (map (replace_elements loop_image) s))
    as [|n l IH]; [done|].
  cbn [map flat_map]. rewrite flat_map_app, IH. f_equal.
  rewrite (text_pieces_words _ None _ is_text_types).
  apply node_words_replace2, loop_region_spec_words.
Qed.

(** C5. The plaintext mirror of a markup field is what the specification
    describes: every image replaced by its alt text, else its aria-label,
    else ["[image]"]; every inline SVG by its aria-label, else
    ["[svg graphic]"]; the text of the long-description regions inlined;
    then, of the text that is left, blanks collapsed and trimmed.  An absent
    or empty field gives the empty text; when the parser rejects the field,
    its error is the outcome. *)
Theorem plaintext_mirror X html :
  html_to_plaintext_preserving_math_images X html =
  if py_truthy html then s ← make_soup X html; Ok (spec_plaintext s) else Ok "".
Proof.
  unfold html_to_plaintext_preserving_math_images.
  destruct (py_truthy html); [|done]. simpl.
  destruct (make_soup X html) as [s|e]; [|done]. simpl.
  by rewrite soup_to_plaintext_spec.
Qed.

(** The two examples the specification gives, and the fallbacks. *)
Lemma plaintext_of_fragment :
  html_to_plaintext_preserving_math_images fragment_externals (JStr "fragment")
  = Ok "In the figure triangle diagram and [image] [svg graphic] long description".
Proof. reflexivity. Qed.

(** A script that stands as a long-description region: the region loop
    inlines its source text, which the text of the page otherwise leaves
    out. *)
Lemma plaintext_of_script_region :
  soup_to_plaintext
    [NavigableString "a";
     Tag "script" {[ "role" := "region"; "class" := "sr-only" ]}
       [SpecialString Script "var x"];
     Tag "script" ∅ [SpecialString Script "var y"];
     Tag "p" ∅ [NavigableString "b"; Comment "c"; SpecialString CData "d"]]
  = "a var x b d".
Proof. reflexivity. Qed.

(** ** Images without a usable alt text *)

Lemma img_text_empty_alt nm at_ ch ch' :
  at_ !! "alt" = Some "" →
  img_text (Tag nm (delete "alt" at_) ch') = img_text (Tag nm at_ ch).
Proof.
  intros H. unfold img_text, attr_or. simpl.
  rewrite H, lookup_delete_eq, lookup_delete_ne by done. done.
Qed.

Lemma img_text_nonempty n : str_nonempty (img_text n) = true.
Proof.
  unfold img_text, attr_or.
  destruct (attr_get n "alt") as [a|]; [destruct (str_nonempty a) eqn:E; [done|]|];
    (destruct (attr_get n "aria-label") as [l|];
     [destruct (str_nonempty l) eqn:E'|]; done).
Qed.

Lemma loop_image_tag nm at_ ch :
  loop_image (Tag nm at_ ch) =
  if String.eqb nm "img" then Some (img_text (Tag nm at_ ch)) else None.
Proof. reflexivity. Qed.

Lemma replace_images_drop_empty_alt n :
  replace_elements loop_image (drop_empty_alt n) = replace_elements loop_image n.
Proof.
  induction n as [s|s|k s|nm at_ ch IH] using node_forall_ind; [done..|].
  cbn [replace_elements drop_empty_alt]. rewrite !loop_image_tag.
  destruct (String.eqb nm "img") eqn:Hnm; cbn [andb].
  - f_equal. case_bool_decide as Halt; [|done]. by apply img_text_empty_alt.
  - f_equal. rewrite map_map.
    induction IH as [|c ch Hc _ IHch]; [done|]. simpl. by rewrite Hc, IHch.
Qed.

(** C10. An image whose alt attribute is the empty string is treated as an
    image without alt attribute: its replacement is the aria-label when that
    is not empty and ["[image]"] otherwise, the replacement text of an image
    is never empty, and the plaintext of a whole fragment does not change
    when the empty alt attributes are taken away. *)
Theorem empty_alt_falls_back :
  (∀ at_ ch,
     img_text (Tag "img" (<["alt" := ""]> at_) ch)
     = img_text (Tag "img" (delete "alt" at_) ch)
     ∧ img_text (Tag "img" (<["alt" := ""]> at_) ch)
       = match at_ !! "aria-label" with
         | Some label => if str_nonempty label then label else "[image]"
         | None => "[image]"
         end
     ∧ img_text (Tag "img" (<["aria-label" := ""]> (<["alt" := ""]> at_)) ch)
       = "[image]")
  ∧ (∀ img, str_nonempty (img_text img) = true)
  ∧ (∀ s : soup, soup_to_plaintext (map drop_empty_alt s) = soup_to_plaintext s).
Proof.
  split; [|split].
  - intros at_ ch. unfold img_text, attr_or. simpl.
    rewrite !lookup_insert_eq, lookup_delete_eq.
    rewrite !lookup_insert_ne, lookup_delete_ne by done. simpl.
    rewrite lookup_insert_eq. done.
  - apply img_text_nonempty.
  - intros s. rewrite !soup_to_plaintext_maps. do 4 f_equal.
    rewrite map_map. apply map_ext. intros n. apply replace_images_drop_empty_alt.
Qed.

Lemma plaintext_with_empty_alt :
  soup_to_plaintext
    [NavigableString "a"; Tag "img" {[ "alt" := ""; "aria-label" := "graph" ]} [];
     Tag "img" {[ "alt" := "" ]} []; Tag "img" {[ "alt" := ""; "aria-label" := "" ]} []]
  = "a graph [image] [image]".
Proof. reflexivity. Qed.

(** ** The fetcher and the cache *)

Lemma fetch_loop_frame X id tries timeout ks w r w' :
  fetch_loop X id tries timeout ks w = (r, w') →
  same_disk w w'
  ∧ ∃ n, (n ≤ length ks)%nat
         ∧ requests w' = requests w ++ replicate n {| req_id := id; req_timeout := timeout |}.
Proof.
  revert w. induction ks as [|k ks IH]; intros w H; simpl in H.
  - injection H as <- <-. split; [done|]. exists 0%nat. simpl. by rewrite app_nil_r.
  - set (rq := {| req_id := id; req_timeout := timeout |}) in *.
    assert (Hstop : ∀ r0, (r0, log_request rq w) = (r, w') →
              same_disk w w' ∧ ∃ n, (n ≤ S (length ks))%nat
                ∧ requests w' = requests w ++ replicate n rq).
    { intros r0 [= <- <-]. split; [done|]. exists 1%nat. split; [lia|done]. }
    assert (Hgo : fetch_loop X id tries timeout ks (log_request rq w) = (r, w') →
              same_disk w w' ∧ ∃ n, (n ≤ S (length ks))%nat
                ∧ requests w' = requests w ++ replicate n rq).
    { intros Hrec. apply IH in Hrec as [Hd (n & Hn & Hreq)]. split; [done|].
      exists (S n). split; [lia|]. rewrite Hreq. simpl. by rewrite <-app_assoc. }
    destruct (upstream X (length (requests w)) rq) as [|e|status [data|]].
    + destruct (k =? tries - 1)%nat; eauto.
    + eauto.
    + destruct (soft_status status); [destruct (k =? tries - 1)%nat; eauto|].
      destruct (is_nosuchkey data); [eauto|].
      destruct (has_content data) as [[]|]; [eauto| |eauto].
      destruct (k <? tries - 1)%nat; eauto.
    + destruct (soft_status status); destruct (k =? tries - 1)%nat; eauto.
Qed.

Lemma fetch_loop_result X id tries timeout ks w d w' :
  fetch_loop X id tries timeout ks w = (Ok d, w') →
  d = JNull ∨ (is_nosuchkey d = false ∧ has_content d = Ok true).
Proof.
  revert w. induction ks as [|k ks IH]; intros w H; simpl in H.
  - injection H as <- <-. by left.
  - set (rq := {| req_id := id; req_timeout := timeout |}) in *.
    assert (Hstop : ∀ w0, (Ok JNull, w0) = (Ok d, w') →
              d = JNull ∨ (is_nosuchkey d = false ∧ has_content d = Ok true)).
    { intros w0 [= <- <-]. by left. }
    destruct (upstream X (length (requests w)) rq) as [|e|status [data|]].
    + destruct (k =? tries - 1)%nat; eauto.
    + done.
    + destruct (soft_status status); [destruct (k =? tries - 1)%nat; eauto|].
      destruct (is_nosuchkey data) eqn:Hs; [eauto|].
      destruct (has_content data) as [[]|] eqn:Hc; [|destruct (k <? tries - 1)%nat; eauto|done].
      injection H as <- <-. by right.
    + destruct (soft_status status); destruct (k =? tries - 1)%nat; eauto.
Qed.



Lemma fetch_detail_strong_frame X id tries timeout w r w' :
  fetch_detail_strong X id tries timeout w = (r, w') → same_disk w w'.
Proof. intros H. by apply fetch_loop_frame in H as [? _]. Qed.

Lemma fetch_detail_strong_result X id tries timeout w d w' :
  fetch_detail_strong X id tries timeout w = (Ok d, w') →
  py_truthy d = true →
  is_nosuchkey d = false.
Proof.
  intros H Ht. apply fetch_loop_result in H as [->|[? _]]; done.
Qed.

(** The three ways a lookup can go. *)
Lemma get_detail_with_cache_cases X id w :
  (∃ d, cache w !! cache_path id = Some (JsonFile d)
        ∧ get_detail_with_cache X id w = (Ok d, w))
  ∨ (cache w !! cache_path id = Some Garbage
     ∧ get_detail_with_cache X id w = (Raise JSONDecodeError, w))
  ∨ (cache w !! cache_path id = None
     ∧ ∃ r w1,
         fetch_detail_strong X id 5 REQUEST_TIMEOUT_S w = (r, w1)
         ∧ same_disk w w1
         ∧ ((∃ e, r = Raise e ∧ get_detail_with_cache X id w = (Raise e, w1))
            ∨ (∃ d, r = Ok d ∧ py_truthy d = false
                    ∧ get_detail_with_cache X id w = (Ok JNull, w1))
            ∨ (∃ d, r = Ok d ∧ py_truthy d = true ∧ is_nosuchkey d = false
                    ∧ get_detail_with_cache X id w
                      = (Ok d, write_cache (cache_path id) d w1)))).
Proof.
  unfold get_detail_with_cache.
  destruct (cache w !! cache_path id) as [[d|]|] eqn:Hc; [eauto|eauto|].
  right. right. split; [done|].
  destruct (fetch_detail_strong X id 5 REQUEST_TIMEOUT_S w) as [r w1] eqn:Hf.
  exists r, w1. split; [done|]. split; [by eapply fetch_detail_strong_frame|].
  destruct r as [d|e]; [|eauto].
  destruct (py_truthy d) eqn:Ht; simpl; [|eauto 10].
  right. right. exists d. repeat split; try done.
  by eapply fetch_detail_strong_result.
Qed.




(** ** The cache only grows *)

Lemma cache_grows_same_disk w w' : same_disk w w' → cache_grows w w'.
Proof. intros (Hc & Hw & _). by apply grows_same. Qed.

Lemma cache_grows_refl w : cache_grows w w.
Proof. by apply grows_same. Qed.

Lemma cache_grows_trans w1 w2 w3 :
  cache_grows w1 w2 → cache_grows w2 w3 → cache_grows w1 w3.
Proof.
  intros H12 H23. induction H23 as [w2 w3 Hc Hw|w2 w w3 cp d _ IH Hn Hs Ht Hc Hw].
  - clear -H12 Hc Hw. revert w3 Hc Hw.
    induction H12 as [w1 w2 Hc' Hw'|w1 w w2 cp d H1 IH Hn Hs Ht Hc' Hw'];
      intros w3 Hc Hw.
    + apply grows_same; congruence.
    + eapply grows_write; [exact H1|exact Hn|exact Hs|exact Ht|congruence|congruence].
  - eapply grows_write; [by apply IH|exact Hn|exact Hs|exact Ht|exact Hc|exact Hw].
Qed.

(** What is in the cache stays as it is. *)
Lemma cache_grows_keeps w w' :
  cache_grows w w' → ∀ p f, cache w !! p = Some f → cache w' !! p = Some f.
Proof.
  induction 1 as [w w' Hc Hw|w w1 w' cp d _ IH Hn Hs Ht Hc Hw]; intros p f Hp.
  - by rewrite Hc.
  - apply IH in Hp. rewrite Hc.
    destruct (decide (cp = p)) as [->|Hne]; [congruence|].
    by rewrite lookup_insert_ne.
Qed.

(** What is new in the cache is a real record. *)
Lemma cache_grows_entries w w' :
  cache_grows w w' →
  ∀ p f, cache w' !! p = Some f →
    cache w !! p = Some f
    ∨ (cache w !! p = None
       ∧ ∃ d, f = JsonFile d ∧ is_nosuchkey d = false ∧ py_truthy d = true).
Proof.
  induction 1 as [w w' Hc Hw|w w1 w' cp d H1 IH Hn Hs Ht Hc Hw]; intros p f Hp.
  - left. by rewrite <-Hc.
  - rewrite Hc in Hp. destruct (decide (cp = p)) as [->|Hne].
    + rewrite lookup_insert_eq in Hp. injection Hp as <-.
      right. split; [|eauto].
      destruct (cache w !! p) as [f0|] eqn:E; [|done].
      apply (cache_grows_keeps _ _ H1) in E. congruence.
    + rewrite lookup_insert_ne in Hp by done. by apply IH.
Qed.

(** No path is written twice. *)
Lemma cache_grows_written_once w w' :
  cache_grows w w' → written_once w → written_once w'.
Proof.
  induction 1 as [w w' Hc Hw|w w1 w' cp d H1 IH Hn Hs Ht Hc Hw]; intros Hwo.
  - unfold written_once. by rewrite Hc, Hw.
  - destruct (IH Hwo) as [Hnd Hin]. unfold written_once. rewrite Hc, Hw. split.
    + apply NoDup_app. split; [done|]. split; [|apply NoDup_singleton].
      intros p Hp Hp'. apply list_elem_of_singleton in Hp' as ->.
      apply Hin in Hp as [? Hp]. congruence.
    + intros p Hp. apply elem_of_app in Hp as [Hp|Hp];
        [|apply list_elem_of_singleton in Hp as ->].
      * destruct (decide (cp = p)) as [->|Hne].
        -- rewrite lookup_insert_eq. eauto.
        -- rewrite lookup_insert_ne by done. by apply Hin.
      * rewrite lookup_insert_eq. eauto.
Qed.

(** *** Computations that only let the cache grow *)

Lemma io_bind_inv {A B} (f : A → io B) (m : io A) w r w' :
  io_bind f m w = (r, w') →
  (∃ a w1, m w = (Ok a, w1) ∧ f a w1 = (r, w'))
  ∨ (∃ e, m w = (Raise e, w') ∧ r = Raise e).
Proof.
  unfold io_bind. destruct (m w) as [[a|e] w1]; [eauto|].
  intros [= <- <-]. eauto.
Qed.

Lemma grows_ret {A} (a : A) : grows_io (io_ret a).
Proof. intros w r w' [= <- <-]. apply cache_grows_refl. Qed.

Lemma grows_lift {A} (x : result A) : grows_io (lift x).
Proof. intros w r w' [= <- <-]. apply cache_grows_refl. Qed.

Lemma grows_bind {A B} (f : A → io B) (m : io A) :
  grows_io m → (∀ a, grows_io (f a)) → grows_io (io_bind f m).
Proof.
  intros Hm Hf w r w' H. apply io_bind_inv in H as [(a & w1 & H1 & H2)|(e & H1 & _)].
  - eapply cache_grows_trans; [by eapply Hm|by eapply Hf].
  - by eapply Hm.
Qed.

Lemma grows_save {A} (a : A) l :
  grows_io (λ w, (Ok a, save_normalized l w)).
Proof. intros w r w' [= <- <-]. by apply grows_same. Qed.

Lemma grows_fetch X id tries timeout : grows_io (fetch_detail_strong X id tries timeout).
Proof.
  intros w r w' H. apply cache_grows_same_disk.
  by eapply fetch_detail_strong_frame.
Qed.

Lemma grows_get_detail X id : grows_io (get_detail_with_cache X id).
Proof.
  intros w r w' H.
  destruct (get_detail_with_cache_cases X id w)
    as [(d0 & Hc & Hout)|[(Hc & Hout)|(Hc & r0 & w1 & Hf & Hd & Hout)]].
  - rewrite Hout in H. injection H as <- <-. apply cache_grows_refl.
  - rewrite Hout in H. injection H as <- <-. apply cache_grows_refl.
  - destruct Hout as [(e & -> & Hout)|[(d0 & -> & Ht & Hout)|(d0 & -> & Ht & Hs & Hout)]];
      rewrite Hout in H; injection H as <- <-.
    + by apply cache_grows_same_disk.
    + by apply cache_grows_same_disk.
    + destruct Hd as (Hcw & Hww & _).
      eapply (grows_write w w1 _ (cache_path id) d0);
        [by apply grows_same|by rewrite Hcw|done|done|done|done].
Qed.

Lemma grows_primary_step X st meta : grows_io (primary_step X st meta).
Proof.
  unfold primary_step. destruct (truthy_id _) as [id|]; [|apply grows_ret].
  case_bool_decide; [apply grows_ret|].
  apply grows_bind; [apply grows_get_detail|]. intros d.
  destruct (negb (py_truthy d)); [apply grows_ret|].
  apply grows_bind; [apply grows_lift|]. intros norm. cbv zeta.
  destruct (_ =? _)%nat; [apply grows_save|apply grows_ret].
Qed.

Lemma grows_primary_pass X records st : grows_io (primary_pass X records st).
Proof.
  revert st. induction records as [|meta rest IH]; intros st; simpl.
  - apply grows_ret.
  - apply grows_bind; [apply grows_primary_step|]. intros st'. apply IH.
Qed.

Lemma grows_sweep_step X m st ext : grows_io (sweep_step X m st ext).
Proof.
  unfold sweep_step. apply grows_bind; [apply grows_fetch|]. intros d.
  destruct (negb (py_truthy d)); [apply grows_ret|].
  apply grows_bind; [apply grows_lift|]. intros norm. cbv zeta.
  destruct (_ =? _)%nat; [apply grows_save|apply grows_ret].
Qed.

Lemma grows_sweep X m todo st : grows_io (sweep X m todo st).
Proof.
  revert st. induction todo as [|ext rest IH]; intros st; simpl.
  - apply grows_ret.
  - apply grows_bind; [apply grows_sweep_step|]. intros st'. apply IH.
Qed.

Lemma grows_main X records : grows_io (main X records).
Proof.
  intros w r w' H. unfold main in H. cbv zeta in H.
  revert H. generalize (default [] (normalized_json w)). intros prior H.
  refine ((_ : grows_io _) w r w' H).
  apply grows_bind; [apply grows_primary_pass|]. intros st.
  apply grows_bind.
  { intros w0 r0 w0' [= <- <-]. by apply grows_same. }
  intros _. case_bool_decide; [apply grows_ret|].
  apply grows_bind; [apply grows_sweep|]. intros out.
  apply grows_bind; [|intros _; apply grows_ret].
  intros w0 r0 w0' [= <- <-]. by apply grows_same.
Qed.

(** C8. A payload that matches the "key not found" sentinel makes the
    fetcher return the absent outcome at once, at whatever attempt it
    arrives; what the fetcher returns as a record is never the sentinel; a
    lookup adds to the cache at most the record it returns, which is neither
    absent nor the sentinel; and over a whole run of the driver every file
    that is new in the cache is such a record. *)
Theorem sentinel_never_cached X id w :
  (∀ tries timeout k ks status data,
     upstream X (length (requests w)) {| req_id := id; req_timeout := timeout |}
       = Http status (Some data) →
     soft_status status = false →
     is_nosuchkey data = true →
     fetch_loop X id tries timeout (k :: ks) w
       = (Ok JNull, log_request {| req_id := id; req_timeout := timeout |} w))
  ∧ (∀ tries timeout d w',
       fetch_detail_strong X id tries timeout w = (Ok d, w') →
       d = JNull ∨ is_nosuchkey d = false)
  ∧ (∀ p f, cache (get_detail_with_cache X id w).2 !! p = Some f →
       cache w !! p = Some f
       ∨ (p = cache_path id ∧ cache w !! p = None
          ∧ ∃ d, f = JsonFile d ∧ (get_detail_with_cache X id w).1 = Ok d
                 ∧ is_nosuchkey d = false ∧ py_truthy d = true))
  ∧ (∀ records p f, cache (main X records w).2 !! p = Some f →
       cache w !! p = Some f
       ∨ (cache w !! p = None
          ∧ ∃ d, f = JsonFile d ∧ is_nosuchkey d = false ∧ py_truthy d = true)).
Proof.
  split; [|split; [|split]].
  - intros tries timeout k ks status data Hup Hsoft Hs. simpl.
    by rewrite Hup, Hsoft, Hs.
  - intros tries timeout d w' H. apply fetch_loop_result in H as [->|[? _]]; eauto.
  - intros p f.
    destruct (get_detail_with_cache_cases X id w)
      as [(d0 & Hc & ->)|[(Hc & ->)|(Hc & r0 & w1 & Hf & Hd & Hout)]]; simpl; [eauto..|].
    destruct Hd as (Hcw & _).
    destruct Hout as [(e & -> & ->)|[(d0 & -> & Ht & ->)|(d0 & -> & Ht & Hs & ->)]];
      simpl; rewrite Hcw; [eauto..|].
    destruct (decide (cache_path id = p)) as [<-|Hne].
    + rewrite lookup_insert_eq. intros [= <-]. right. eauto 10.
    + rewrite lookup_insert_ne by done. eauto.
  - intros records p f.
    destruct (main X records w) as [r w'] eqn:Hm. simpl.
    apply grows_main in Hm. by apply cache_grows_entries.
Qed.

Lemma sentinel_never_cached_witness :
  fetch_detail_strong (plain_externals (answers_with sentinel_by_text)) "q1" 5 75
    blank_world
  = (Ok JNull, log_request {| req_id := "q1"; req_timeout := 75 |} blank_world)
  ∧ cache (get_detail_with_cache (plain_externals (answers_with sentinel_by_field))
             "q1" blank_world).2 = ∅.
Proof.
  split.
  - apply (proj1 (sentinel_never_cached (plain_externals (answers_with sentinel_by_text))
                    "q1" blank_world) 5%nat 75 0%nat (seq 1 4) 200 sentinel_by_text);
      reflexivity.
  - reflexivity.
Defined.

(** ** A cache entry that cannot be read *)

(** C4 as the specification words it fails: with an unreadable entry for "q1" the
    lookup raises, and so does the whole run, although upstream would answer
    every request; nothing is fetched and nothing is saved. *)
Lemma unreadable_entry_aborts_run :
  get_detail_with_cache (plain_externals (answers_with detail_two_options)) "q1"
    (world_with_entry "q1" Garbage)
  = (Raise JSONDecodeError, world_with_entry "q1" Garbage)
  ∧ main (plain_externals (answers_with detail_two_options))
      [meta_with (Some "q1") None; meta_with (Some "q2") None]
      (world_with_entry "q1" Garbage)
    = (Raise JSONDecodeError, world_with_entry "q1" Garbage).
Proof. split; reflexivity. Qed.

(** C4, amended.  A cache entry that exists and cannot be deserialised is
    not taken for a miss: the lookup raises the decoding error, sends no
    request and leaves the cache as it is; the driver does not catch the
    error, so the primary pass and the run stop at that item. *)
Theorem unreadable_entry_raises X id w :
  cache w !! cache_path id = Some Garbage →
  get_detail_with_cache X id w = (Raise JSONDecodeError, w)
  ∧ (∀ st meta rest,
       truthy_id (m_external_id meta) = Some id →
       id ∉ seen_ids st →
       primary_pass X (meta :: rest) st w = (Raise JSONDecodeError, w))
  ∧ (∀ meta rest,
       truthy_id (m_external_id meta) = Some id →
       id ∉ external_ids (default [] (normalized_json w)) →
       main X (meta :: rest) w = (Raise JSONDecodeError, w)).
Proof.
  intros Hc.
  assert (Hget : get_detail_with_cache X id w = (Raise JSONDecodeError, w)).
  { unfold get_detail_with_cache. by rewrite Hc. }
  assert (Hpass : ∀ st meta rest,
            truthy_id (m_external_id meta) = Some id →
            id ∉ seen_ids st →
            primary_pass X (meta :: rest) st w = (Raise JSONDecodeError, w)).
  { intros st meta rest Hid Hseen. simpl. unfold io_bind at 1, primary_step.
    rewrite Hid, bool_decide_eq_false_2 by done.
    unfold io_bind at 1. by rewrite Hget. }
  split; [done|]. split; [done|].
  intros meta rest Hid Hseen. unfold main. cbv zeta.
  unfold io_bind at 1. by rewrite Hpass.
Qed.

Lemma unreadable_entry_raises_witness :
  get_detail_with_cache (plain_externals always_timeout) "q1"
    (world_with_entry "q1" Garbage)
  = (Raise JSONDecodeError, world_with_entry "q1" Garbage)
  ∧ main (plain_externals always_timeout) [meta_with (Some "q1") None]
      (world_with_entry "q1" Garbage)
    = (Raise JSONDecodeError, world_with_entry "q1" Garbage).
Proof.
  destruct (unreadable_entry_raises (plain_externals always_timeout) "q1"
              (world_with_entry "q1" Garbage) (lookup_singleton_eq _ _))
    as (Hget & _ & Hmain).
  split; [exact Hget|].
  apply Hmain; [reflexivity|]. simpl. apply not_elem_of_empty.
Defined.

(** ** When the normalizer returns *)

Lemma plaintext_ok X v :
  is_markup v = true →
  is_ok (html_to_plaintext_preserving_math_images X (py_or v (JStr ""))) = parses X v.
Proof.
  destruct v as [| | |s| |]; try done.
  unfold py_or, html_to_plaintext_preserving_math_images, parses. simpl.
  unfold str_nonempty. destruct (String.eqb s "") eqn:E; simpl; [done|].
  rewrite E. simpl. by destruct (parse X s).
Qed.

Lemma mapM_result_is_ok {A B} (f : A → result B) xs :
  is_ok (mapM_result f xs) = forallb (λ x, is_ok (f x)) xs.
Proof.
  induction xs as [|x xs IH]; [done|]. simpl.
  destruct (f x); simpl; [|done]. by destruct (mapM_result f xs).
Qed.

Lemma img_item_is_ok X img : is_ok (img_item X img) = is_ok (img_src X img).
Proof. unfold img_item. by destruct (img_src X img). Qed.

Lemma media_ok X v :
  is_markup v = true →
  is_ok (extract_media_from_html X (py_or v (JStr ""))) = accepts X v.
Proof.
  destruct v as [| | |s| |]; try done.
  unfold py_or, extract_media_from_html, accepts, parses, resolves. simpl.
  unfold str_nonempty. destruct (String.eqb s "") eqn:E; simpl; [done|].
  rewrite E. simpl. destruct (parse X s) as [sp|]; [|done]. simpl. intros _.
  transitivity (is_ok (mapM_result (λ pn, img_item X pn.2) (find_all (is_tag "img") sp)));
    [by destruct (mapM_result _ _)|].
  rewrite mapM_result_is_ok.
  induction (find_all (is_tag "img") sp) as [|pn l IH]; [done|].
  simpl. by rewrite img_item_is_ok, IH.
Qed.

Lemma list_field_ok kv k :
  is_list_or_null (field (JDict kv) k) = true →
  list_field (JDict kv) k = Ok (items_of (field (JDict kv) k)).
Proof.
  unfold list_field, field. simpl. by destruct (of_opt (dict_get kv k)) as [| | | |[]|].
Qed.

Lemma mapM_all_str l :
  forallb (λ x, bool_decide (is_Some (as_str x))) l = true →
  ∃ ss, mapM as_str l = Some ss.
Proof.
  induction l as [|x l IH]; simpl; [eauto|].
  intros [Hx Hl]%andb_prop. destruct (IH Hl) as [ss Hss].
  destruct x; try done. simpl. rewrite Hss. simpl. eauto.
Qed.

Lemma py_sorted_ok X l :
  forallb (λ x, bool_decide (is_Some (as_str x))) l = true → ∃ l', py_sorted X l = Ok l'.
Proof.
  intros H. unfold py_sorted. destruct l as [|x [|y l]]; [eauto|eauto|].
  destruct (mapM_all_str _ H) as [ss ->]. eauto.
Qed.

Lemma normalize_choice_is_ok X letters ids i o :
  is_dict o = true → is_markup (content_of o) = true →
  is_ok (normalize_choice X letters ids i o) = accepts X (content_of o).
Proof.
  destruct o as [| | | | |kv]; try done. intros _ Hm.
  unfold normalize_choice. simpl.
  pose proof (plaintext_ok X _ Hm) as Hp. pose proof (media_ok X _ Hm) as Hq.
  unfold accepts in *. simpl in *.
  destruct (html_to_plaintext_preserving_math_images X _); simpl in *;
    rewrite <-Hp; [|done].
  destruct (extract_media_from_html X _); simpl in *; rewrite <-Hp in Hq; done.
Qed.

Lemma choices_ok X letters ids (l : list json) :
  forallb (λ o, is_dict o && is_markup (content_of o)) l = true →
  forallb (λ ic, is_ok (normalize_choice X letters ids ic.1 ic.2)) (enumerate l)
  = forallb (λ o, accepts X (content_of o)) l.
Proof.
  unfold enumerate.
  assert (∀ (g : nat → nat) ,
    forallb (λ o, is_dict o && is_markup (content_of o)) l = true →
    forallb (λ ic, is_ok (normalize_choice X letters ids ic.1 ic.2))
      (imap (λ i x, (g i, x)) l)
    = forallb (λ o, accepts X (content_of o)) l) as H.
  { induction l as [|o l IH]; intros g Hl; [done|]. simpl in *.
    apply andb_prop in Hl as [[Hd Hm]%andb_prop Hl].
    rewrite normalize_choice_is_ok by done. f_equal.
    apply (IH (g ∘ S) Hl). }
  intros Hl. exact (H id Hl).
Qed.

Lemma normalize_detail_is_ok X detail meta :
  well_formed detail = true →
  is_ok (normalize_detail X detail meta) = accepted X detail.
Proof.
  unfold well_formed. intros Hwf.
  repeat (apply andb_prop in Hwf as [Hwf ?]).
  destruct detail as [| | | | |kv]; try done. clear Hwf.
  unfold normalize_detail, accepted.
  cbn [py_get mbind result_mbind result_bind].
  rewrite !list_field_ok by done.
  cbn [mbind result_mbind result_bind].
  match goal with
  | H : forallb _ (items_of (field _ "answerOptions")) = true |- _ =>
      rewrite <-(choices_ok X (items_of (field (JDict kv) "correct_answer"))
                   (items_of (field (JDict kv) "keys")) _ H)
  end.
  rewrite <-mapM_result_is_ok.
  match goal with
  | H : forallb _ (items_of (field _ "correct_answer")) = true |- _ =>
      destruct (py_sorted_ok X _ H) as [sorted Hsorted]
  end.
  rewrite Hsorted.
  simpl field in *.
  repeat match goal with
  | H : is_markup ?v = true |- _ =>
      let Hm := fresh "Hm" in
      let Hp := fresh "Hp" in
      pose proof (media_ok X _ H) as Hm;
      pose proof (plaintext_ok X _ H) as Hp;
      rewrite <-Hm; unfold accepts in Hm; rewrite <-Hp in Hm; clear H Hp
  end.
  repeat match goal with
  | |- context [html_to_plaintext_preserving_math_images X ?v] =>
      destruct (html_to_plaintext_preserving_math_images X v); simpl in *
  end;
  repeat match goal with
  | H : is_ok ?m = false |- _ => rewrite H; clear H
  end; rewrite ?andb_false_r; try done.
  destruct (mapM_result _ _); simpl; [|by rewrite ?andb_false_r].
  repeat match goal with
  | |- context [extract_media_from_html X ?v] =>
      destruct (extract_media_from_html X v); simpl in *
  end; done.
Qed.

Lemma py_get_field detail k v : py_get detail k = Ok v → v = field detail k.
Proof. destruct detail; try done. by intros [= <-]. Qed.

Lemma normalize_detail_fields X detail meta r :
  normalize_detail X detail meta = Ok r →
  (n_stimulus_html r = py_or (field detail "stimulus") (JStr "")
   ∧ html_to_plaintext_preserving_math_images X (n_stimulus_html r) = Ok (n_stimulus r)
   ∧ extract_media_from_html X (n_stimulus_html r) = Ok (n_media_stimulus r))
  ∧ (n_stem_html r = py_or (field detail "stem") (JStr "")
     ∧ html_to_plaintext_preserving_math_images X (n_stem_html r) = Ok (n_stem r)
     ∧ extract_media_from_html X (n_stem_html r) = Ok (n_media_stem r))
  ∧ (n_rationale_html r = py_or (field detail "rationale") (JStr "")
     ∧ html_to_plaintext_preserving_math_images X (n_rationale_html r)
       = Ok (n_rationale r)
     ∧ extract_media_from_html X (n_rationale_html r) = Ok (n_media_rationale r)).
Proof.
  unfold normalize_detail. intros H. inv_bind H. injection H as <-. simpl.
  repeat match goal with
  | H : py_get _ _ = Ok _ |- _ => apply py_get_field in H; try subst
  end.
  done.
Qed.

Lemma empty_field_plain X v :
  py_truthy v = false →
  html_to_plaintext_preserving_math_images X (py_or v (JStr "")) = Ok ""
  ∧ extract_media_from_html X (py_or v (JStr "")) = Ok [].
Proof. intros H. unfold py_or. by rewrite H. Qed.

Lemma mapM_result_raises {A B} (f : A → result B) xs e :
  mapM_result f xs = Raise e → ∃ x, x ∈ xs ∧ f x = Raise e.
Proof.
  induction xs as [|x xs IH]; [done|]. cbn [mapM_result].
  destruct (f x) as [y|e'] eqn:Hx; cbn.
  - destruct (mapM_result f xs) as [ys|e'] eqn:Hxs; cbn; [done|].
    intros [= ->]. destruct (IH eq_refl) as (x' & Hin & Hx').
    exists x'. split; [by apply list_elem_of_further|done].
  - intros [= ->]. exists x. split; [apply list_elem_of_here|done].
Qed.

Lemma img_item_raises X img e : img_item X img = Raise e → e = ValueError.
Proof.
  unfold img_item, img_src. destruct (attr_get img "src") as [src|]; [|done].
  destruct (str_nonempty src); [|done]. destruct (urljoin X base_url src); [done|].
  by intros [= <-].
Qed.

(** C9 as the specification words it fails for a field that is not empty and
    that the parser does not accept, for a field with an image whose address
    the resolver does not accept, and for a field that is not a string: the
    record as a whole fails. *)
Lemma rejected_markup_fails_record :
  well_formed (JDict [("stem", JStr "rejected")]) = true
  ∧ html_to_plaintext_preserving_math_images fragment_externals (JStr "rejected")
    = Raise ParserRejectedMarkup
  ∧ extract_media_from_html fragment_externals (JStr "rejected")
    = Raise ParserRejectedMarkup
  ∧ normalize_detail fragment_externals (JDict [("stem", JStr "rejected")])
      (meta_with (Some "q") None)
    = Raise ParserRejectedMarkup
  ∧ well_formed (JDict [("stem", JStr "bracket")]) = true
  ∧ html_to_plaintext_preserving_math_images fragment_externals (JStr "bracket")
    = Ok "graph"
  ∧ extract_media_from_html fragment_externals (JStr "bracket") = Raise ValueError
  ∧ normalize_detail fragment_externals (JDict [("stem", JStr "bracket")])
      (meta_with (Some "q") None)
    = Raise ValueError
  ∧ normalize_detail fragment_externals (JDict [("stem", JNum 5)])
      (meta_with (Some "q") None)
    = Raise TypeError.
Proof. repeat split. Qed.

(** C9, amended.  On a well-formed detail record the normalizer returns a
    record exactly when the parser accepts every markup field that is not
    empty and the resolver accepts the address of every image in them; it
    never raises for another reason.  A markup field that is missing, null or
    empty gives the empty plaintext and the empty media list, in the record
    and in each choice.  Markup that the parser rejects is not turned into
    empty text: the parser's error is the outcome.  Nor is an image whose
    address the resolver rejects left out of the media list: the plaintext
    of its field is made, and the resolver's error is the outcome of the
    inventory. *)
Theorem normalizer_returns_on_accepted_markup X detail meta :
  well_formed detail = true →
  ((∃ r, normalize_detail X detail meta = Ok r) ↔ accepted X detail = true)
  ∧ (∀ v, py_truthy v = false →
          html_to_plaintext_preserving_math_images X v = Ok ""
          ∧ extract_media_from_html X v = Ok [])
  ∧ (∀ r, normalize_detail X detail meta = Ok r →
       (py_truthy (field detail "stimulus") = false →
        n_stimulus r = "" ∧ n_media_stimulus r = [])
       ∧ (py_truthy (field detail "stem") = false →
          n_stem r = "" ∧ n_media_stem r = [])
       ∧ (py_truthy (field detail "rationale") = false →
          n_rationale r = "" ∧ n_media_rationale r = [])
       ∧ (∀ i ch, n_choices r !! i = Some ch → c_html ch = JStr "" →
                  c_text ch = "" ∧ c_media ch = []))
  ∧ (∀ s, str_nonempty s = true → parse X s = None →
          html_to_plaintext_preserving_math_images X (JStr s)
            = Raise ParserRejectedMarkup
          ∧ extract_media_from_html X (JStr s) = Raise ParserRejectedMarkup)
  ∧ (∀ s sp, str_nonempty s = true → parse X s = Some sp →
          html_to_plaintext_preserving_math_images X (JStr s) = Ok (soup_to_plaintext sp)
          ∧ (resolves X (JStr s) = false →
             extract_media_from_html X (JStr s) = Raise ValueError)).
Proof.
  intros Hwf. split_and!.
  - rewrite <-(normalize_detail_is_ok X detail meta Hwf).
    destruct (normalize_detail X detail meta); simpl; split; eauto; try done.
    by intros [? ?].
  - intros v Hv.
    unfold html_to_plaintext_preserving_math_images, extract_media_from_html.
    by rewrite Hv.
  - intros r Hr.
    destruct (normalize_detail_fields _ _ _ _ Hr)
      as ((E1 & P1 & M1) & (E2 & P2 & M2) & (E3 & P3 & M3)).
    split; [|split; [|split]].
    + intros Hv. destruct (empty_field_plain X _ Hv) as [Hp Hm].
      rewrite <-E1 in Hp, Hm. split; congruence.
    + intros Hv. destruct (empty_field_plain X _ Hv) as [Hp Hm].
      rewrite <-E2 in Hp, Hm. split; congruence.
    + intros Hv. destruct (empty_field_plain X _ Hv) as [Hp Hm].
      rewrite <-E3 in Hp, Hm. split; congruence.
    + intros i ch Hch Hhtml.
      destruct (normalize_detail_choices _ _ _ _ Hr)
        as (letters & options & _ & _ & _ & _ & _ & Hall).
      destruct (Hall _ _ Hch) as (o & _ & Hc).
      apply normalize_choice_ok in Hc as (_ & _ & _ & Hp & Hm & _).
      rewrite Hhtml in Hp, Hm. injection Hp as <-. injection Hm as <-. done.
  - intros s Hs Hp.
    unfold html_to_plaintext_preserving_math_images, extract_media_from_html.
    simpl. unfold str_nonempty in Hs. rewrite Hs. simpl. by rewrite Hp.
  - intros s sp Hs Hp. split.
    + unfold html_to_plaintext_preserving_math_images. simpl.
      unfold str_nonempty in Hs. rewrite Hs. simpl. by rewrite Hp.
    + intros Hr. pose proof (media_ok X (JStr s) eq_refl) as Hm.
      unfold accepts, parses in Hm. rewrite Hr, andb_false_r in Hm.
      assert (py_or (JStr s) (JStr "") = JStr s) as E.
      { unfold py_or. cbn. unfold str_nonempty in Hs. by rewrite Hs. }
      rewrite E in Hm. clear E Hr.
      unfold extract_media_from_html, make_soup in *. cbn [py_truthy] in *.
      unfold str_nonempty in Hs. rewrite Hs, Hp in *.
      cbn [negb mbind result_mbind result_bind] in *.
      destruct (mapM_result _ _) as [v|e] eqn:Hv; [done|]. cbn.
      apply mapM_result_raises in Hv as (pn & _ & Hv).
      by apply img_item_raises in Hv as ->.
Qed.

Lemma normalizer_returns_on_accepted_markup_witness :
  ∃ r, normalize_detail (plain_externals always_timeout) detail_two_options
         (meta_with (Some "q") None) = Ok r.
Proof.
  apply (proj1 (normalizer_returns_on_accepted_markup (plain_externals always_timeout)
                  detail_two_options (meta_with (Some "q") None) eq_refl)).
  reflexivity.
Defined.

(** ** The driver *)

Lemma normalize_detail_external_id X d meta r :
  normalize_detail X d meta = Ok r → n_external_id r = m_external_id meta.
Proof. unfold normalize_detail. intros H. inv_bind H. injection H as <-. reflexivity. Qed.

Lemma external_ids_snoc l q :
  external_ids (l ++ [q]) =
  match truthy_id (n_external_id q) with
  | Some e => {[e]} ∪ external_ids l
  | None => external_ids l
  end.
Proof.
  unfold external_ids. rewrite omap_app, list_to_set_app_L. simpl.
  destruct (truthy_id _); simpl.
  - rewrite union_empty_r_L. apply (comm_L (∪)).
  - apply union_empty_r_L.
Qed.

(** What one step of the primary pass does to the state. *)
Lemma primary_step_cases X st meta w st' w' :
  primary_step X st meta w = (Ok st', w') →
  (st' = st
   ∧ ∃ id, truthy_id (m_external_id meta) = Some id ∧ (id ∈ seen_ids st) ∧ w' = w)
  ∨ (normalized st' = normalized st ∧ seen_ids st' = seen_ids st
     ∧ failures st' = failures st ++ [("missing_external_id", fallback_id meta)]
     ∧ truthy_id (m_external_id meta) = None ∧ w' = w)
  ∨ (∃ id, truthy_id (m_external_id meta) = Some id ∧ (id ∉ seen_ids st)
       ∧ normalized st' = normalized st ∧ seen_ids st' = seen_ids st
       ∧ failures st' = failures st ++ [("missing_or_timeout", id)]
       ∧ ∃ d, get_detail_with_cache X id w = (Ok d, w') ∧ py_truthy d = false)
  ∨ (∃ id d norm w1, truthy_id (m_external_id meta) = Some id ∧ (id ∉ seen_ids st)
       ∧ get_detail_with_cache X id w = (Ok d, w1) ∧ py_truthy d = true
       ∧ normalize_detail X d meta = Ok norm
       ∧ normalized st' = normalized st ++ [norm]
       ∧ seen_ids st' = {[id]} ∪ seen_ids st
       ∧ failures st' = failures st
       ∧ requests w' = requests w1 ∧ cache w' = cache w1).
Proof.
  unfold primary_step. destruct (truthy_id (m_external_id meta)) as [id|] eqn:Hid.
  - case_bool_decide as Hseen.
    + intros [= <- <-]. left. eauto.
    + intros H. apply io_bind_inv in H as [(d & w1 & Hget & H)|(e & _ & ?)]; [|done].
      destruct (py_truthy d) eqn:Ht; simpl in H.
      * apply io_bind_inv in H as [(norm & w2 & Hn & H)|(e & _ & ?)]; [|done].
        injection Hn as Hn <-. cbv zeta in H.
        right. right. right. exists id, d, norm, w1.
        destruct (_ =? _)%nat; injection H as <- <-; simpl; eauto 15.
      * injection H as <- <-. right. right. left. exists id. simpl. eauto 10.
  - intros [= <- <-]. right. left. simpl. eauto.
Qed.

Lemma primary_step_inv X st meta w st' w' :
  driver_inv st → primary_step X st meta w = (Ok st', w') → driver_inv st'.
Proof.
  intros (Hseen & Hf) H.
  apply primary_step_cases in H
    as [(-> & _)|[(Hn & Hs & Hfl & _)|[(id & _ & _ & Hn & Hs & Hfl & _)
       |(id & d & norm & w1 & Hid & Hnot & _ & _ & Hnorm & Hn & Hs & Hfl & _)]]].
  - done.
  - unfold driver_inv. rewrite Hn, Hs, Hfl. split; [done|].
    apply Forall_app. split; [done|]. constructor; [by left|constructor].
  - unfold driver_inv. rewrite Hn, Hs, Hfl. split; [done|].
    apply Forall_app. split; [done|]. constructor; [by right|constructor].
  - unfold driver_inv. rewrite Hn, Hs, Hfl.
    apply normalize_detail_external_id in Hnorm. split; [|done].
    rewrite external_ids_snoc, Hnorm, Hid. by rewrite Hseen.
Qed.

Lemma primary_pass_inv X records st w st' w' :
  driver_inv st → primary_pass X records st w = (Ok st', w') → driver_inv st'.
Proof.
  revert st w. induction records as [|meta rest IH]; intros st w Hinv H; simpl in H.
  - by injection H as <- <-.
  - apply io_bind_inv in H as [(st1 & w1 & H1 & H)|(e & _ & ?)]; [|done].
    eapply IH; [|exact H]. by eapply primary_step_inv.
Qed.

Lemma start_inv prior : driver_inv (start prior).
Proof. split; [done|constructor]. Qed.

(** The primary pass adds no identifier twice. *)
Lemma primary_step_unique X st meta w st' w' :
  driver_inv st → NoDup (ids_of (normalized st)) →
  primary_step X st meta w = (Ok st', w') →
  NoDup (ids_of (normalized st')).
Proof.
  intros (Hseen & _) Hnd H.
  apply primary_step_cases in H
    as [(-> & _)|[(Hn & _)|[(id & _ & _ & Hn & _)
       |(id & d & norm & w1 & Hid & Hnot & _ & _ & Hnorm & Hn & _)]]];
    rewrite ?Hn; try done.
  apply normalize_detail_external_id in Hnorm.
  unfold ids_of. rewrite omap_app. simpl. rewrite Hnorm, Hid. simpl.
  apply NoDup_app. split; [done|]. split; [|apply NoDup_singleton].
  intros x Hx ->%list_elem_of_singleton. apply Hnot. rewrite Hseen.
  unfold external_ids. by apply elem_of_list_to_set.
Qed.

Lemma primary_pass_unique X records st w st' w' :
  driver_inv st → NoDup (ids_of (normalized st)) →
  primary_pass X records st w = (Ok st', w') →
  NoDup (ids_of (normalized st')).
Proof.
  revert st w. induction records as [|meta rest IH]; intros st w Hinv Hnd H; simpl in H.
  - by injection H as <- <-.
  - apply io_bind_inv in H as [(st1 & w1 & H1 & H)|(e & _ & ?)]; [|done].
    eapply IH; [| |exact H]; [by eapply primary_step_inv|by eapply primary_step_unique].
Qed.

(** *** The recovery sweep *)

Lemma fetch_loop_sends X id tries timeout k ks w r w' :
  fetch_loop X id tries timeout (k :: ks) w = (r, w') →
  ∃ n, requests w' = requests w ++ replicate (S n) {| req_id := id; req_timeout := timeout |}.
Proof.
  intros H. simpl in H.
  set (rq := {| req_id := id; req_timeout := timeout |}) in *.
  assert (Hstop : ∀ r0, (r0, log_request rq w) = (r, w') →
            ∃ n, requests w' = requests w ++ replicate (S n) rq).
  { intros r0 [= <- <-]. by exists 0%nat. }
  assert (Hgo : fetch_loop X id tries timeout ks (log_request rq w) = (r, w') →
            ∃ n, requests w' = requests w ++ replicate (S n) rq).
  { intros Hrec. apply fetch_loop_frame in Hrec as [_ (n & _ & Hreq)].
    exists n. rewrite Hreq. simpl. by rewrite <-app_assoc. }
  destruct (upstream X (length (requests w)) rq) as [|e|status [data|]].
  - destruct (k =? tries - 1)%nat; eauto.
  - eauto.
  - destruct (soft_status status); [destruct (k =? tries - 1)%nat; eauto|].
    destruct (is_nosuchkey data); [eauto|].
    destruct (has_content data) as [[]|]; [eauto| |eauto].
    destruct (k <? tries - 1)%nat; eauto.
  - destruct (soft_status status); destruct (k =? tries - 1)%nat; eauto.
Qed.

(** One step of the sweep sends its requests, at least one, for the
    identifier it was given, with the longer timeout. *)
Lemma sweep_step_requests X m st ext w r w' :
  sweep_step X m st ext w = (r, w') →
  ∃ n, requests w' = requests w ++ replicate (S n) {| req_id := ext; req_timeout := 90 |}.
Proof.
  unfold sweep_step. intros H.
  apply io_bind_inv in H as [(d & w1 & Hf & H)|(e & Hf & _)].
  - apply fetch_loop_sends in Hf as [n Hn]. exists n. rewrite <-Hn. clear Hn.
    destruct (negb (py_truthy d)); [by injection H as <- <-|].
    apply io_bind_inv in H as [(norm & w2 & Hn & H)|(e & Hn & _)].
    + injection Hn as _ <-. cbv zeta in H.
      destruct (_ =? _)%nat; by injection H as <- <-.
    + by injection Hn as _ <-.
  - by apply fetch_loop_sends in Hf.
Qed.

Lemma sweep_requests X m todo st w r w' :
  sweep X m todo st w = (r, w') →
  ∃ new, requests w' = requests w ++ new
         ∧ Forall (λ rq, req_id rq ∈ todo ∧ req_timeout rq = 90) new
         ∧ (is_ok r = true → ∀ ext, ext ∈ todo → ∃ rq, rq ∈ new ∧ req_id rq = ext).
Proof.
  revert st w. induction todo as [|ext rest IH]; intros st w H; simpl in H.
  - injection H as <- <-. exists []. rewrite app_nil_r. repeat split; [constructor|].
    intros _ ext Hext. by apply elem_of_nil in Hext.
  - apply io_bind_inv in H as [(st1 & w1 & H1 & H)|(e & H1 & ->)].
    + apply sweep_step_requests in H1 as [n Hn].
      apply IH in H as (new & Hnew & Hall & Hsome).
      exists (replicate (S n) {| req_id := ext; req_timeout := 90 |} ++ new).
      split; [by rewrite Hnew, Hn, <-app_assoc|]. split.
      * apply Forall_app. split.
        -- apply Forall_replicate. simpl. split; [by left|done].
        -- eapply Forall_impl; [exact Hall|]. simpl. intros rq [? ?]. split; [by right|done].
      * intros Hok x Hx. apply elem_of_cons in Hx as [->|Hx].
        -- exists {| req_id := ext; req_timeout := 90 |}. split; [|done].
           apply elem_of_app. left. simpl. by left.
        -- destruct (Hsome Hok x Hx) as (rq & Hrq & Hid). exists rq.
           split; [|done]. apply elem_of_app. by right.
    + apply sweep_step_requests in H1 as [n Hn].
      exists (replicate (S n) {| req_id := ext; req_timeout := 90 |}).
      split; [done|]. split; [|done].
      apply Forall_replicate. simpl. split; [by left|done].
Qed.

Lemma retry_todo_elem fl done ext :
  ext ∈ retry_todo fl done ↔ (∃ reason, (reason, ext) ∈ fl) ∧ ext ∉ done.
Proof.
  unfold retry_todo. rewrite list_elem_of_fmap. split.
  - intros ([reason e] & -> & Hin). apply list_elem_of_filter in Hin as [Hd Hin].
    simpl in *. eauto.
  - intros [[reason Hin] Hd]. exists (reason, ext). split; [done|].
    apply list_elem_of_filter. done.
Qed.

(** A detail response that matches the sentinel is recorded like a timeout. *)
Lemma sentinel_recorded_as_timeout X st meta id w status data :
  truthy_id (m_external_id meta) = Some id →
  id ∉ seen_ids st →
  cache w !! cache_path id = None →
  upstream X (length (requests w)) {| req_id := id; req_timeout := REQUEST_TIMEOUT_S |}
    = Http status (Some data) →
  soft_status status = false →
  is_nosuchkey data = true →
  primary_step X st meta w
  = (Ok {| normalized := normalized st; seen_ids := seen_ids st;
           failures := failures st ++ [("missing_or_timeout", id)] |},
     log_request {| req_id := id; req_timeout := REQUEST_TIMEOUT_S |} w).
Proof.
  intros Hid Hseen Hc Hup Hsoft Hs. unfold primary_step.
  rewrite Hid, bool_decide_eq_false_2 by done.
  unfold io_bind at 1, get_detail_with_cache, fetch_detail_strong. rewrite Hc.
  simpl. by rewrite Hup, Hsoft, Hs.
Qed.

(** C2 as the specification words it fails.  Every detail request is answered
    with the sentinel; the first item has no external identifier.  The sweep
    then asks the fetcher for "q-17", recorded as a missing identifier, and
    for "e1", whose answer was the sentinel. *)
Lemma sweep_retries_missing_id_and_not_found :
  ∃ w',
    main (plain_externals (answers_with sentinel_by_field))
      [meta_with None (Some "q-17"); meta_with (Some "e1") None] blank_world
    = (Ok ([], [("missing_external_id", "q-17"); ("missing_or_timeout", "e1")]), w')
    ∧ requests w'
      = [{| req_id := "e1"; req_timeout := 75 |};
         {| req_id := "q-17"; req_timeout := 90 |};
         {| req_id := "e1"; req_timeout := 90 |}].
Proof. eexists. split; reflexivity. Qed.

(** C2, amended.  After the primary pass the resumption set is the set of
    external identifiers of the output, and the only recorded reasons are
    missing_external_id and missing_or_timeout.  Every failure recorded as
    missing_or_timeout whose identifier is not in the resumption set is
    handed to the fetcher again; nothing in the resumption set is, and
    nothing that is not the identifier of a recorded failure.  The requests of
    the sweep are for these identifiers, with the longer timeout, and a sweep
    that ends well has asked for each of them.  A detail response that
    matches the sentinel is recorded as missing_or_timeout, so it is retried
    like a timeout. *)
Theorem sweep_retries_recorded_failures X records prior w st w1 :
  (∀ l, shuffle X l ≡ₚ l) →
  primary_pass X records (start prior) w = (Ok st, w1) →
  seen_ids st = external_ids (normalized st)
  ∧ Forall known_reason (failures st)
  ∧ (∀ ext, ("missing_or_timeout", ext) ∈ failures st → ext ∉ seen_ids st →
            ext ∈ sweep_todo X st)
  ∧ (∀ ext, ext ∈ sweep_todo X st →
            (ext ∉ seen_ids st) ∧ ∃ reason, (reason, ext) ∈ failures st)
  ∧ (∀ out w2,
       sweep X (by_ext records) (sweep_todo X st) (normalized st, 0%nat) w1 = (out, w2) →
       ∃ new, requests w2 = requests w1 ++ new
              ∧ Forall (λ rq, req_id rq ∈ sweep_todo X st ∧ req_timeout rq = 90) new
              ∧ (is_ok out = true →
                 ∀ ext, ext ∈ sweep_todo X st → ∃ rq, rq ∈ new ∧ req_id rq = ext))
  ∧ (∀ st0 meta id w0 status data,
       truthy_id (m_external_id meta) = Some id →
       id ∉ seen_ids st0 →
       cache w0 !! cache_path id = None →
       upstream X (length (requests w0))
         {| req_id := id; req_timeout := REQUEST_TIMEOUT_S |} = Http status (Some data) →
       soft_status status = false →
       is_nosuchkey data = true →
       primary_step X st0 meta w0
       = (Ok {| normalized := normalized st0; seen_ids := seen_ids st0;
                failures := failures st0 ++ [("missing_or_timeout", id)] |},
          log_request {| req_id := id; req_timeout := REQUEST_TIMEOUT_S |} w0)).
Proof.
  intros Hshuffle Hpass.
  destruct (primary_pass_inv _ _ _ _ _ _ (start_inv prior) Hpass) as [Hseen Hreasons].
  assert (Htodo : ∀ ext, (ext ∈ sweep_todo X st) ↔
            (∃ reason, (reason, ext) ∈ failures st) ∧ ext ∉ seen_ids st).
  { intros ext. unfold sweep_todo. rewrite Hshuffle, retry_todo_elem. by rewrite Hseen. }
  split; [done|]. split; [done|]. split; [|split; [|split]].
  - intros ext Hin Hnot. apply Htodo. eauto.
  - intros ext Hin. apply Htodo in Hin as [? ?]. done.
  - intros out w2 Hsweep. by apply sweep_requests in Hsweep.
  - intros st0 meta id w0 status data Hid Hnot Hc Hup Hsoft Hs.
    by eapply sentinel_recorded_as_timeout.
Qed.

Lemma sweep_retries_recorded_failures_witness :
  ∃ st w1,
    primary_pass (plain_externals always_timeout)
      [meta_with (Some "e1") None] (start []) blank_world = (Ok st, w1)
    ∧ failures st = [("missing_or_timeout", "e1")]
    ∧ "e1" ∈ sweep_todo (plain_externals always_timeout) st.
Proof.
  eexists _, _. split; [vm_compute; reflexivity|]. split; [reflexivity|].
  refine (proj1 (proj2 (proj2 (sweep_retries_recorded_failures
            (plain_externals always_timeout) [meta_with (Some "e1") None] []
            blank_world _ _ (λ l, reflexivity l) _))) "e1" _ _).
  - vm_compute; reflexivity.
  - by left.
  - simpl. apply not_elem_of_empty.
Defined.

(** ** Unique identifiers *)

(** C7, at a failing input.  The work queue names "e" twice; upstream times
    out during the primary pass and answers during the recovery sweep.  Both
    failures are retried, both retries succeed, and the output that is
    persisted holds two records with the external identifier "e". *)
Lemma recovery_sweep_duplicates_identifier :
  ∃ out w',
    main (plain_externals (recovers_after 10 (JDict [("stem", JStr "x")])))
      [meta_with (Some "e") None; meta_with (Some "e") None] blank_world
    = (Ok out, w')
    ∧ out.2 = [("missing_or_timeout", "e"); ("missing_or_timeout", "e")]
    ∧ n_external_id <$> out.1 = [Some "e"; Some "e"]
    ∧ normalized_json w' = Some out.1.
Proof. eexists _, _. split; [vm_compute; reflexivity|]. repeat split. Qed.

(** ** Running the driver again *)

Lemma primary_step_grows X st meta w st' w' :
  primary_step X st meta w = (Ok st', w') →
  (∃ l, failures st' = failures st ++ l) ∧ seen_ids st ⊆ seen_ids st'.
Proof.
  intros H. apply primary_step_cases in H
    as [(-> & _)|[(Hn & Hs & Hfl & _)|[(id & _ & _ & Hn & Hs & Hfl & _)
       |(id & d & norm & w1 & Hid & Hnot & _ & _ & Hnorm & Hn & Hs & Hfl & _)]]].
  - split; [exists []; by rewrite app_nil_r|done].
  - rewrite Hs, Hfl. eauto.
  - rewrite Hs, Hfl. eauto.
  - rewrite Hs, Hfl. split; [exists []; by rewrite app_nil_r|]. apply union_subseteq_r.
Qed.

Lemma primary_pass_grows X records st w st' w' :
  primary_pass X records st w = (Ok st', w') →
  (∃ l, failures st' = failures st ++ l) ∧ seen_ids st ⊆ seen_ids st'.
Proof.
  revert st w. induction records as [|meta rest IH]; intros st w H; simpl in H.
  - injection H as <- <-. split; [exists []; by rewrite app_nil_r|done].
  - apply io_bind_inv in H as [(st1 & w1 & H1 & H)|(e & _ & ?)]; [|done].
    apply primary_step_grows in H1 as [[l1 Hl1] Hs1].
    apply IH in H as [[l2 Hl2] Hs2].
    split; [|by etrans]. exists (l1 ++ l2). by rewrite Hl2, Hl1, <-app_assoc.
Qed.

(** After a pass that recorded no failure every item of the queue is in the
    resumption set. *)
Lemma primary_pass_all_seen X records st w st' w' :
  primary_pass X records st w = (Ok st', w') →
  failures st' = failures st →
  ∀ meta, meta ∈ records →
    ∃ id, truthy_id (m_external_id meta) = Some id ∧ id ∈ seen_ids st'.
Proof.
  revert st w. induction records as [|meta rest IH]; intros st w H Hf m Hm.
  - by apply elem_of_nil in Hm.
  - simpl in H. apply io_bind_inv in H as [(st1 & w1 & H1 & H)|(e & _ & ?)]; [|done].
    pose proof (primary_pass_grows _ _ _ _ _ _ H) as [[l2 Hl2] Hs2].
    pose proof (primary_step_grows _ _ _ _ _ _ H1) as [[l1 Hl1] _].
    assert (l1 = [] ∧ l2 = []) as [-> ->].
    { rewrite Hl2, Hl1, <-app_assoc in Hf.
      apply (f_equal length) in Hf. rewrite !length_app in Hf.
      destruct l1, l2; simpl in Hf; try lia. done. }
    rewrite app_nil_r in Hl1, Hl2.
    apply elem_of_cons in Hm as [->|Hm]; [|by eapply IH].
    apply primary_step_cases in H1
      as [(-> & id & Hid & Hin & _)|[(_ & _ & Hfl & _)|[(id & _ & _ & _ & _ & Hfl & _)
         |(id & d & norm & w2 & Hid & _ & _ & _ & _ & _ & Hs & _)]]].
    + exists id. split; [done|]. by apply Hs2.
    + rewrite Hl1 in Hfl. apply (f_equal length) in Hfl.
      rewrite length_app in Hfl. simpl in Hfl. lia.
    + rewrite Hl1 in Hfl. apply (f_equal length) in Hfl.
      rewrite length_app in Hfl. simpl in Hfl. lia.
    + exists id. split; [done|]. apply Hs2. rewrite Hs.
      apply elem_of_union_l, elem_of_singleton. reflexivity.
Qed.

(** A pass over items that are all in the resumption set does nothing. *)
Lemma primary_pass_skips X records st w :
  (∀ meta, meta ∈ records →
     ∃ id, truthy_id (m_external_id meta) = Some id ∧ id ∈ seen_ids st) →
  primary_pass X records st w = (Ok st, w).
Proof.
  induction records as [|meta rest IH]; intros Hall; simpl; [done|].
  destruct (Hall meta) as (id & Hid & Hin); [by left|].
  unfold io_bind at 1, primary_step. rewrite Hid, bool_decide_eq_true_2 by done.
  simpl. apply IH. intros m Hm. apply Hall. by right.
Qed.

(** X1. The primary pass skips what is in the resumption set and never adds
    an external identifier a second time. *)
Theorem primary_pass_keeps_ids_unique X records prior w st w1 :
  NoDup (ids_of prior) →
  primary_pass X records (start prior) w = (Ok st, w1) →
  NoDup (ids_of (normalized st))
  ∧ seen_ids st = external_ids (normalized st)
  ∧ (∀ st0 meta id w0,
       truthy_id (m_external_id meta) = Some id → id ∈ seen_ids st0 →
       primary_step X st0 meta w0 = (Ok st0, w0)).
Proof.
  intros Hnd Hpass. split; [|split].
  - by eapply primary_pass_unique; [apply start_inv| |exact Hpass].
  - by eapply primary_pass_inv; [apply start_inv|exact Hpass].
  - intros st0 meta id w0 Hid Hin. unfold primary_step.
    by rewrite Hid, bool_decide_eq_true_2.
Qed.

Lemma primary_pass_keeps_ids_unique_witness :
  ∃ st w1,
    primary_pass (plain_externals (answers_with detail_two_options))
      [meta_with (Some "e") None; meta_with (Some "e") None] (start []) blank_world
    = (Ok st, w1)
    ∧ ids_of (normalized st) = ["e"]
    ∧ NoDup (ids_of (normalized st)).
Proof.
  eexists _, _. split; [vm_compute; reflexivity|]. split; [reflexivity|].
  refine (proj1 (primary_pass_keeps_ids_unique
            (plain_externals (answers_with detail_two_options))
            [meta_with (Some "e") None; meta_with (Some "e") None] []
            blank_world _ _ (NoDup_nil_2 : NoDup (ids_of [])) _)).
  vm_compute; reflexivity.
Defined.

(** X2. After a run that recorded no failure, running the driver again over
    the same work queue changes nothing, whatever upstream does: every item is
    skipped, the same output is persisted, no request is sent.  If the prior
    output had no external identifier twice, neither has the output. *)
Theorem rerun_after_clean_run X X' records w out w1 :
  main X records w = (Ok (out, []), w1) →
  main X' records w1 = (Ok (out, []), w1)
  ∧ (NoDup (ids_of (default [] (normalized_json w))) → NoDup (ids_of out)).
Proof.
  intros H. unfold main in H. cbv zeta in H.
  apply io_bind_inv in H as [(st & w0 & Hpass & H)|(e & _ & ?)]; [|done].
  apply io_bind_inv in H as [([] & w0' & Hsave & H)|(e & ? & _)]; [|done].
  injection Hsave as <-.
  pose proof (primary_pass_inv _ _ _ _ _ _ (start_inv _) Hpass) as [Hseen _].
  case_bool_decide as Hf.
  - injection H as <- _ <-. rewrite Hf. split.
    + pose proof (primary_pass_all_seen _ _ _ _ _ _ Hpass Hf) as Hall.
      unfold main. cbv zeta. simpl normalized_json. simpl default.
      unfold io_bind at 1.
      rewrite primary_pass_skips.
      2:{ intros meta Hm. simpl. rewrite <-Hseen. by apply Hall. }
      reflexivity.
    + intros Hnd. by eapply primary_pass_unique; [apply start_inv| |exact Hpass].
  - apply io_bind_inv in H as [(o & w2 & _ & H)|(e & _ & ?)]; [|done].
    apply io_bind_inv in H as [([] & w3 & _ & H)|(e & _ & ?)]; [|done].
    injection H as _ Hnil _. done.
Qed.

Lemma rerun_after_clean_run_witness :
  ∃ out w1,
    main (plain_externals (answers_with detail_two_options))
      [meta_with (Some "e1") None; meta_with (Some "e2") None] blank_world
    = (Ok (out, []), w1)
    ∧ ids_of out = ["e1"; "e2"]
    ∧ main (plain_externals always_timeout)
        [meta_with (Some "e1") None; meta_with (Some "e2") None] w1
      = (Ok (out, []), w1).
Proof.
  eexists _, _. split; [vm_compute; reflexivity|]. split; [reflexivity|].
  refine (proj1 (rerun_after_clean_run
            (plain_externals (answers_with detail_two_options))
            (plain_externals always_timeout)
            [meta_with (Some "e1") None; meta_with (Some "e2") None]
            blank_world _ _ _)).
  vm_compute; reflexivity.
Defined.

(** X3. Over a run of the driver the cache is append-only: a file that is
    there stays as it is, and no path is written twice. *)
Theorem cache_is_append_only X records w :
  (∀ p f, cache w !! p = Some f → cache (main X records w).2 !! p = Some f)
  ∧ (written_once w → written_once (main X records w).2).
Proof.
  destruct (main X records w) as [r w'] eqn:Hm. apply grows_main in Hm. simpl. split.
  - by apply cache_grows_keeps.
  - by apply cache_grows_written_once.
Qed.

(** X4. [compact_text] collapses every run of blanks to one space and trims;
    it keeps the words, and doing it twice is doing it once.  The blanks are
    the characters that [str.isspace] accepts: a no-break space (U+00A0) or an
    em space (U+2003) between two words is collapsed as a space is, a
    zero-width space (U+200B) is not. *)
Theorem compact_text_collapses_blanks s :
  compact_text s = collapse_blanks s
  ∧ py_split (compact_text s) = py_split s
  ∧ compact_text (compact_text s) = compact_text s
  ∧ compact_text (s +:+ " " +:+ str_bytes [194; 160]%nat +:+ " x"
                  +:+ str_bytes [226; 128; 131]%nat)
    = compact_text (s +:+ " x")
  ∧ compact_text ("a" +:+ str_bytes [226; 128; 139]%nat +:+ "b")
    = "a" +:+ str_bytes [226; 128; 139]%nat +:+ "b".
Proof.
  split_and!.
  - apply compact_text_collapse.
  - apply py_split_compact.
  - unfold compact_text at 1 3. by rewrite py_split_compact.
  - unfold compact_text. f_equal.
    change (s +:+ " x") with (s +:+ " " +:+ "x").
    by rewrite !(py_split_sep s).
  - reflexivity.
Qed.

Lemma forallb_Forall {A} (f : A → bool) (l : list A) :
  forallb f l = true ↔ Forall (λ x, f x = true) l.
Proof.
  induction l as [|x l IH]; simpl; [by split; [constructor|]|].
  rewrite andb_true_iff, IH. split; [intros []; by constructor|by inversion 1].
Qed.

Lemma plain_regions_tag nm at_ ch :
  plain_regions (Tag nm at_ ch) = true →
  container_region (Tag nm at_ ch) = false ∧ Forall (λ c, plain_regions c = true) ch.
Proof.
  cbn [plain_regions]. intros [H1 H2]%andb_prop. split; [by apply negb_true_iff|].
  by apply forallb_Forall.
Qed.

Lemma plain_regions_replace f n :
  plain_regions n = true → plain_regions (replace_elements f n) = true.
Proof.
  induction n as [s|s|k s|nm at_ ch IH] using node_forall_ind; intros Hn.
  1-3: by (cbn [replace_elements]; destruct (f _)).
  destruct (f (Tag nm at_ ch)) as [t|] eqn:E.
  - by rewrite (replace_elements_some _ _ _ E).
  - rewrite (replace_elements_none _ _ E).
    apply plain_regions_tag in Hn as [Hc Hch].
    cbn [plain_regions]. apply andb_true_intro. split.
    + apply negb_true_iff. exact Hc.
    + apply forallb_Forall, Forall_map. clear Hc E. revert Hch.
      induction IH as [|c ch Hc' _ IHch]; intros Hch; [constructor|].
      inversion Hch; subst. constructor; auto.
Qed.

(** Where no region is a string container, the text of a region is made of
    the strings that the text of the soup has anyway. *)
Lemma loop_region_plain_words m t :
  container_region m = false → loop_region m = Some t → py_split t = node_words None m.
Proof.
  intros Hc Hl. rewrite (loop_region_words _ _ Hl). revert Hc Hl.
  unfold container_region, is_region, loop_region.
  destruct (has_attr "role" "region" m); [|done].
  destruct (region_selected m); [|done]. rewrite !andb_true_r.
  destruct (interesting_string_types m) as [k|]; [|done].
  by rewrite bool_decide_eq_true_2.
Qed.

Lemma node_words_region n :
  plain_regions n = true →
  node_words None (replace_elements loop_region n) = node_words None n.
Proof.
  induction n as [s|s|k s|nm at_ ch IH] using node_forall_ind; intros Hn; [done..|].
  apply plain_regions_tag in Hn as [Hc Hch].
  destruct (loop_region (Tag nm at_ ch)) as [t|] eqn:E.
  - rewrite (replace_elements_some _ _ _ E).
    apply (loop_region_plain_words _ _ Hc E).
  - rewrite (replace_elements_none _ _ E). cbn [node_words]. clear E Hc.
    induction IH as [|c ch Hc _ IHch]; [done|].
    inversion Hch; subst. cbn [map flat_map]. by rewrite Hc, IHch.
Qed.

(** X5. Where no long-description region is a [script], [style],
    [template], [rt] or [rp] element, the loop over the regions leaves the
    plaintext as it is: the text of a region is part of the text of the soup
    with or without the replacement. *)
Theorem region_loop_keeps_plaintext (s : soup) :
  forallb plain_regions s = true →
  soup_to_plaintext s
  = compact_text (soup_get_text
      (map (replace_elements loop_svg) (map (replace_elements loop_image) s))).
Proof.
  intros Hs. rewrite soup_to_plaintext_maps. unfold compact_text. f_equal.
  rewrite !soup_get_text_words.
  assert (Hall : Forall (λ n, plain_regions n = true)
            (map (replace_elements loop_svg) (map (replace_elements loop_image) s))).
  { apply forallb_Forall in Hs. apply Forall_map, Forall_map.
    eapply Forall_impl; [exact Hs|]. intros n Hn. cbn.
    by do 2 apply plain_regions_replace. }
  induction Hall as [|n l Hn _ IH]; [done|].
  cbn [map flat_map]. by rewrite node_words_region, IH.
Qed.

Lemma region_loop_keeps_plaintext_witness :
  forallb plain_regions soup_with_images = true
  ∧ soup_to_plaintext soup_with_images
    = "In the figure triangle diagram and [image] [svg graphic] long description"
  ∧ soup_to_plaintext soup_with_images
    = compact_text (soup_get_text
        (map (replace_elements loop_svg)
           (map (replace_elements loop_image) soup_with_images))).
Proof.
  split; [reflexivity|]. split; [reflexivity|].
  apply (region_loop_keeps_plaintext soup_with_images). reflexivity.
Defined.

(** ** The retry loop of the fetcher *)

Lemma log_requests_S n rq w :
  log_requests (S n) rq w = log_requests n rq (log_request rq w).
Proof. unfold log_requests. by rewrite Nat.iter_succ_r. Qed.

Lemma requests_log_requests n rq w :
  requests (log_requests n rq w) = requests w ++ replicate n rq.
Proof.
  revert w. induction n as [|n IH]; intros w.
  - simpl. by rewrite app_nil_r.
  - rewrite log_requests_S, IH. simpl. by rewrite <-app_assoc.
Qed.

(** When every answer is transient the loop runs to its end. *)
Lemma fetch_loop_transient X id tries timeout n a w :
  (a + n = tries)%nat →
  (∀ j, (j < n)%nat →
     transient (upstream X (length (requests w) + j)
                  {| req_id := id; req_timeout := timeout |}) = true) →
  fetch_loop X id tries timeout (seq a n) w
  = (Ok JNull, log_requests n {| req_id := id; req_timeout := timeout |} w).
Proof.
  set (rq := {| req_id := id; req_timeout := timeout |}).
  revert a w. induction n as [|n IH]; intros a w Ha Htr; [done|].
  rewrite log_requests_S. cbn [seq fetch_loop]. fold rq.
  assert (Hrest : fetch_loop X id tries timeout (seq (S a) n) (log_request rq w)
                  = (Ok JNull, log_requests n rq (log_request rq w))).
  { apply IH; [lia|]. intros j Hj. simpl. rewrite length_app. simpl.
    replace (length (requests w) + 1 + j)%nat with (length (requests w) + S j)%nat by lia.
    apply Htr. lia. }
  assert (Hlast : (a =? tries - 1)%nat = true → n = 0%nat).
  { intros H%Nat.eqb_eq. lia. }
  assert (Hcaught : (if (a =? tries - 1)%nat then (Ok JNull, log_request rq w)
                     else fetch_loop X id tries timeout (seq (S a) n) (log_request rq w))
                    = (Ok JNull, log_requests n rq (log_request rq w))).
  { destruct (a =? tries - 1)%nat eqn:E; [|done]. by rewrite (Hlast eq_refl). }
  specialize (Htr 0%nat ltac:(lia)). rewrite Nat.add_0_r in Htr.
  destruct (upstream X (length (requests w)) rq) as [|e|status body]; simpl in Htr;
    [done|done|].
  destruct (soft_status status); [done|]. simpl in Htr.
  destruct body as [data|]; [|done].
  destruct (is_nosuchkey data); [done|]. simpl in Htr.
  destruct (has_content data) as [[|]|]; try done.
  destruct (a <? tries - 1)%nat eqn:E; [done|].
  apply Nat.ltb_ge in E. assert (n = 0%nat) as -> by lia. done.
Qed.

(** The loop stops at the first answer that carries a record. *)
Lemma fetch_loop_delivers X id tries timeout ks1 k ks2 w d :
  (∀ j k', ks1 !! j = Some k' → (k' < tries - 1)%nat) →
  (∀ j, (j < length ks1)%nat →
     transient (upstream X (length (requests w) + j)
                  {| req_id := id; req_timeout := timeout |}) = true) →
  delivers (upstream X (length (requests w) + length ks1)
              {| req_id := id; req_timeout := timeout |}) d →
  fetch_loop X id tries timeout (ks1 ++ k :: ks2) w
  = (Ok d, log_requests (S (length ks1)) {| req_id := id; req_timeout := timeout |} w).
Proof.
  set (rq := {| req_id := id; req_timeout := timeout |}).
  revert w. induction ks1 as [|k1 ks1 IH]; intros w Hk Htr Hd.
  - simpl in Hd. rewrite Nat.add_0_r in Hd. destruct Hd as (status & E & Hs & Hn & Hc).
    cbn [app fetch_loop]. fold rq. rewrite E, Hs, Hn, Hc. done.
  - rewrite log_requests_S. cbn [app fetch_loop]. fold rq.
    assert (Hrest : fetch_loop X id tries timeout (ks1 ++ k :: ks2) (log_request rq w)
                    = (Ok d, log_requests (S (length ks1)) rq (log_request rq w))).
    { apply IH.
      - intros j k' H. apply (Hk (S j)). done.
      - intros j Hj. simpl. rewrite length_app. simpl.
        replace (length (requests w) + 1 + j)%nat with (length (requests w) + S j)%nat by lia.
        apply Htr. simpl. lia.
      - simpl. rewrite length_app. simpl.
        replace (length (requests w) + 1 + length ks1)%nat
          with (length (requests w) + length (k1 :: ks1))%nat by (simpl; lia).
        done. }
    pose proof (Hk 0%nat k1 eq_refl) as Hk1.
    assert ((k1 =? tries - 1)%nat = false) as -> by (apply Nat.eqb_neq; lia).
    assert ((k1 <? tries - 1)%nat = true) as -> by (apply Nat.ltb_lt; lia).
    specialize (Htr 0%nat ltac:(simpl; lia)). rewrite Nat.add_0_r in Htr.
    destruct (upstream X (length (requests w)) rq) as [|e|status body]; simpl in Htr;
      [done|done|].
    destruct (soft_status status); [done|]. simpl in Htr.
    destruct body as [data|]; [|done].
    destruct (is_nosuchkey data); [done|]. simpl in Htr.
    destruct (has_content data) as [[|]|]; done.
Qed.

Lemma fetch_detail_strong_budget X id tries timeout w r w' :
  fetch_detail_strong X id tries timeout w = (r, w') →
  same_disk w w'
  ∧ ∃ n, (n ≤ tries)%nat
         ∧ requests w' = requests w ++ replicate n {| req_id := id; req_timeout := timeout |}.
Proof.
  intros H. unfold fetch_detail_strong in H.
  destruct (fetch_loop_frame _ _ _ _ _ _ _ _ H) as (Hd & n & Hn & Hr).
  rewrite length_seq in Hn. split; [done|]. by exists n.
Qed.

(** X6. The fetcher tries again after a timeout, a soft status, a body that
    is not JSON or a record without content, up to [tries] times.  It returns
    the first record that an attempt delivers, after exactly that many
    requests; when every attempt fails in one of these ways it returns [None]
    after [tries] requests.  However it ends, it has sent at most [tries]
    requests, at least one when [tries] is positive, all of them for the same
    identifier with the same timeout, and it has changed nothing on disk. *)
Theorem fetch_retries_until_answer X id tries timeout w :
  let rq := {| req_id := id; req_timeout := timeout |} in
  (∀ k d, (k < tries)%nat →
     (∀ j, (j < k)%nat → transient (upstream X (length (requests w) + j) rq) = true) →
     delivers (upstream X (length (requests w) + k) rq) d →
     fetch_detail_strong X id tries timeout w = (Ok d, log_requests (S k) rq w))
  ∧ ((∀ j, (j < tries)%nat →
        transient (upstream X (length (requests w) + j) rq) = true) →
     fetch_detail_strong X id tries timeout w = (Ok JNull, log_requests tries rq w))
  ∧ (∀ r w', fetch_detail_strong X id tries timeout w = (r, w') →
       same_disk w w'
       ∧ ∃ n, (n ≤ tries)%nat ∧ (0 < tries → 0 < n)%nat
              ∧ requests w' = requests w ++ replicate n rq).
Proof.
  intros rq. split; [|split].
  - intros k d Hk Htr Hd. unfold fetch_detail_strong.
    replace tries with (k + S (tries - S k))%nat at 2 by lia.
    rewrite seq_app. cbn [seq].
    pose proof (fetch_loop_delivers X id tries timeout (seq 0 k) (0 + k)%nat
                  (seq (S (0 + k)) (tries - S k)) w d) as H.
    rewrite length_seq in H. apply H; [|done..].
    intros j k' Hj. apply lookup_seq in Hj. lia.
  - intros Htr. unfold fetch_detail_strong. by apply fetch_loop_transient.
  - intros r w' H.
    destruct (fetch_detail_strong_budget _ _ _ _ _ _ _ H) as (Hd & n & Hn & Hr).
    split; [done|]. exists n. split_and!; [done| |done]. intros Ht.
    unfold fetch_detail_strong in H. destruct tries as [|t]; [lia|].
    cbn [seq] in H. destruct (fetch_loop_sends _ _ _ _ _ _ _ _ _ H) as (m & Hm).
    rewrite Hr in Hm. apply app_inv_head in Hm.
    apply (f_equal length) in Hm. rewrite !length_replicate in Hm. lia.
Qed.

Lemma fetch_retries_until_answer_witness :
  fetch_detail_strong (plain_externals (recovers_after 2 detail_two_options)) "q1" 5 75
    blank_world
  = (Ok detail_two_options,
     log_requests 3 {| req_id := "q1"; req_timeout := 75 |} blank_world).
Proof.
  apply (proj1 (fetch_retries_until_answer
                  (plain_externals (recovers_after 2 detail_two_options)) "q1" 5 75
                  blank_world) 2%nat detail_two_options).
  - lia.
  - intros [|[|j]] Hj; [reflexivity|reflexivity|lia].
  - exists 200. split_and!; reflexivity.
Defined.

(** ** The marker inside a payload *)

Lemma json_forall_ind (P : json → Prop) :
  P JNull → (∀ b, P (JBool b)) → (∀ n, P (JNum n)) → (∀ s, P (JStr s)) →
  (∀ l, Forall P l → P (JList l)) →
  (∀ kv, Forall (λ kv, P kv.2) kv → P (JDict kv)) →
  ∀ x, P x.
Proof.
  intros Hn Hb Hz Hs Hl Hd. fix IH 1. intros [|b|n|s|l|kv].
  - exact Hn.
  - apply Hb.
  - apply Hz.
  - apply Hs.
  - apply Hl. induction l as [|x l IHl]; constructor; [apply IH|apply IHl].
  - apply Hd. induction kv as [|[k v] kv IHkv]; constructor; [apply IH|apply IHkv].
Qed.

Lemma prefix_app n b : String.prefix n (n +:+ b) = true.
Proof.
  induction n as [|c n IH]; [by destruct b|].
  rewrite str_app_cons. simpl. destruct (ascii_dec c c); [exact IH|congruence].
Qed.

Lemma prefix_inv n h : String.prefix n h = true → ∃ b, h = n +:+ b.
Proof.
  revert h. induction n as [|c n IH]; intros h H.
  - by exists h.
  - destruct h as [|c' h]; simpl in H; [done|].
    destruct (ascii_dec c c') as [->|]; [|done].
    destruct (IH _ H) as (b & ->). by exists b.
Qed.

Lemma py_contains_occurs n h : py_contains n h = true ↔ occurs_in n h.
Proof.
  split.
  - induction h as [|c h IH]; cbn [py_contains]; intros H.
    + rewrite orb_false_r in H. apply prefix_inv in H as (b & ->). by exists "", b.
    + apply orb_true_iff in H as [H|H].
      * apply prefix_inv in H as (b & ->). by exists "", b.
      * destruct (IH H) as (a & b & ->). by exists (String c a), b.
  - intros (a & b & ->). induction a as [|c a IH].
    + rewrite str_app_nil_l. destruct (n +:+ b) eqn:E; cbn [py_contains].
      * rewrite <-E, prefix_app. done.
      * rewrite <-E, prefix_app. done.
    + rewrite str_app_cons. cbn [py_contains]. rewrite IH. apply orb_true_r.
Qed.

Lemma occurs_in_app n a h b : occurs_in n h → occurs_in n (a +:+ h +:+ b).
Proof.
  intros (x & y & ->). exists (a +:+ x), (y +:+ b).
  by rewrite !str_app_assoc.
Qed.

Lemma occurs_in_app_l n a h : occurs_in n h → occurs_in n (a +:+ h).
Proof.
  intros H. rewrite <-(str_app_nil_r h). by apply occurs_in_app.
Qed.

Lemma occurs_in_app_r n h b : occurs_in n h → occurs_in n (h +:+ b).
Proof.
  intros H. rewrite <-(str_app_nil_l (h +:+ b)). by apply occurs_in_app.
Qed.

Lemma occurs_in_join n sep l x :
  x ∈ l → occurs_in n x → occurs_in n (py_join sep l).
Proof.
  intros Hx Hn. induction l as [|y l IH]; [by apply elem_of_nil in Hx|].
  destruct l as [|z l].
  - apply list_elem_of_singleton in Hx as ->. done.
  - rewrite py_join_cons. apply elem_of_cons in Hx as [->|Hx].
    + by apply occurs_in_app_r.
    + apply occurs_in_app_l, occurs_in_app_l. by apply IH.
Qed.

Lemma py_join_empty_app l1 l2 :
  py_join "" (l1 ++ l2) = py_join "" l1 +:+ py_join "" l2.
Proof.
  induction l1 as [|x l1 IH]; [done|].
  assert (E : ∀ l, py_join "" (x :: l) = x +:+ py_join "" l).
  { intros [|y l]; [by rewrite str_app_nil_r|by rewrite py_join_cons]. }
  cbn [app]. by rewrite !E, IH, str_app_assoc.
Qed.

Lemma escape_plain n :
  written_plainly n → py_join "" (map escape_char (String.list_ascii_of_string n)) = n.
Proof.
  unfold written_plainly. induction n as [|c n IH]; intros H; [done|].
  cbn [String.list_ascii_of_string map] in *. apply Forall_cons in H as [Hc H].
  change (escape_char c :: ?l) with ([escape_char c] ++ l).
  rewrite py_join_empty_app, (IH H). cbn [py_join]. by rewrite Hc.
Qed.

Lemma list_ascii_app a b :
  String.list_ascii_of_string (a +:+ b)
  = String.list_ascii_of_string a ++ String.list_ascii_of_string b.
Proof.
  induction a as [|c a IH]; [done|].
  rewrite str_app_cons. cbn [String.list_ascii_of_string app]. by rewrite IH.
Qed.

Lemma occurs_in_json_string n s :
  written_plainly n → occurs_in n s → occurs_in n (json_string s).
Proof.
  intros Hn (a & b & ->). unfold json_string.
  apply occurs_in_app. rewrite !list_ascii_app, !map_app, !py_join_empty_app.
  rewrite (escape_plain n Hn). by eexists _, _.
Qed.

(** What occurs in a string of a value occurs in its serialisation. *)
Lemma occurs_in_json_dumps n x s :
  written_plainly n → s ∈ strings_in x → occurs_in n s → occurs_in n (json_dumps x).
Proof.
  intros Hn. revert x. refine (json_forall_ind _ _ _ _ _ _ _); cbn [strings_in json_dumps].
  - by intros ?%elem_of_nil.
  - by intros b ?%elem_of_nil.
  - by intros z ?%elem_of_nil.
  - intros s' Hs%list_elem_of_singleton Ho. subst. by apply occurs_in_json_string.
  - intros l IH Hs Ho. apply occurs_in_app.
    apply list_elem_of_In, in_flat_map in Hs as (y & Hy%list_elem_of_In & Hs%list_elem_of_In).
    rewrite Forall_forall in IH.
    apply (occurs_in_join _ _ _ (json_dumps y)); [|by apply IH].
    apply list_elem_of_fmap. by exists y.
  - intros kv IH Hs Ho. apply occurs_in_app.
    apply list_elem_of_In, in_flat_map in Hs as (y & Hy%list_elem_of_In & Hs%list_elem_of_In).
    rewrite Forall_forall in IH.
    apply (occurs_in_join _ _ _ (json_string y.1 +:+ ": " +:+ json_dumps y.2)).
    + apply list_elem_of_fmap. by exists y.
    + apply elem_of_cons in Hs as [->|Hs].
      * by apply occurs_in_app_r, occurs_in_json_string.
      * apply occurs_in_app_l, occurs_in_app_l. by apply IH.
Qed.

(** X7. A dict that has the marker [NoSuchKey] inside any of its strings, a
    value or a key at any depth, is taken for the payload that says the key
    was not found: the fetcher returns [None] for it at once, without a
    further attempt. *)
Theorem marker_anywhere_is_sentinel kv s :
  s ∈ strings_in (JDict kv) →
  py_contains "NoSuchKey" s = true →
  is_nosuchkey (JDict kv) = true
  ∧ ∀ X id tries timeout k ks w status,
      upstream X (length (requests w)) {| req_id := id; req_timeout := timeout |}
        = Http status (Some (JDict kv)) →
      soft_status status = false →
      fetch_loop X id tries timeout (k :: ks) w
      = (Ok JNull, log_request {| req_id := id; req_timeout := timeout |} w).
Proof.
  intros Hs Hc.
  assert (H : is_nosuchkey (JDict kv) = true).
  { unfold is_nosuchkey. destruct (_ || _); [done|].
    apply py_contains_occurs. apply (occurs_in_json_dumps _ _ s); [|done|].
    - unfold written_plainly. cbn. repeat constructor.
    - by apply py_contains_occurs. }
  split; [done|]. intros X id tries timeout k ks w status Hu Hsoft.
  cbn [fetch_loop]. by rewrite Hu, Hsoft, H.
Qed.

Lemma marker_anywhere_is_sentinel_witness :
  is_nosuchkey
    (JDict [("stem", JStr "Which S3 error code is NoSuchKey?");
            ("answerOptions", JList [])]) = true.
Proof.
  refine (proj1 (marker_anywhere_is_sentinel _ "Which S3 error code is NoSuchKey?" _ _)).
  - cbn. set_solver.
  - reflexivity.
Defined.

(** ** Exceptions that end the run *)

Lemma fetch_loop_uncaught X id tries timeout k ks w e :
  uncaught (upstream X (length (requests w)) {| req_id := id; req_timeout := timeout |})
    = Some e →
  fetch_loop X id tries timeout (k :: ks) w
  = (Raise e, log_request {| req_id := id; req_timeout := timeout |} w).
Proof.
  intros H. cbn [fetch_loop].
  destruct (upstream X (length (requests w)) _) as [|e'|status [data|]]; cbn in H.
  - done.
  - by injection H as ->.
  - destruct (soft_status status); [done|]. destruct (is_nosuchkey data); [done|].
    destruct (has_content data) as [b|e']; [done|]. by injection H as ->.
  - by destruct (soft_status status).
Qed.

(** X8. What the retry loop does not catch ends the run: a failure of the
    transport other than a timeout, or a body that is a JSON number, boolean
    or null, on which the test for content raises a [TypeError].  The
    exception leaves the fetcher, the cache look-up, the primary pass and
    [main]; the one request is logged and nothing is written. *)
Theorem uncaught_answer_aborts_run X id w e :
  uncaught (upstream X (length (requests w))
              {| req_id := id; req_timeout := REQUEST_TIMEOUT_S |}) = Some e →
  cache w !! cache_path id = None →
  let w' := log_request {| req_id := id; req_timeout := REQUEST_TIMEOUT_S |} w in
  get_detail_with_cache X id w = (Raise e, w')
  ∧ (∀ st meta rest,
       truthy_id (m_external_id meta) = Some id → id ∉ seen_ids st →
       primary_pass X (meta :: rest) st w = (Raise e, w'))
  ∧ (∀ meta rest,
       truthy_id (m_external_id meta) = Some id →
       id ∉ external_ids (default [] (normalized_json w)) →
       main X (meta :: rest) w = (Raise e, w'))
  ∧ (∀ status data, soft_status status = false → is_scalar data = true →
       uncaught (Http status (Some data)) = Some TypeError).
Proof.
  intros Hu Hc w'.
  assert (Hg : get_detail_with_cache X id w = (Raise e, w')).
  { unfold get_detail_with_cache. rewrite Hc. unfold fetch_detail_strong.
    cbn [seq]. by rewrite (fetch_loop_uncaught _ _ _ _ _ _ _ _ Hu). }
  assert (Hp : ∀ st meta rest,
       truthy_id (m_external_id meta) = Some id → id ∉ seen_ids st →
       primary_pass X (meta :: rest) st w = (Raise e, w')).
  { intros st meta rest Hid Hseen. cbn [primary_pass]. unfold io_bind, primary_step.
    rewrite Hid. rewrite bool_decide_eq_false_2 by done. unfold io_bind. by rewrite Hg. }
  split_and!; [done|done| |].
  - intros meta rest Hid Hseen. unfold main. cbv zeta. unfold io_bind at 1.
    rewrite Hp; [done|done|]. by cbn.
  - intros status data Hs Hd. cbn [uncaught]. rewrite Hs.
    by destruct data.
Qed.

Lemma uncaught_answer_aborts_run_witness :
  main (plain_externals (answers_with (JNum 7)))
    [meta_with (Some "e1") None; meta_with (Some "e2") None] blank_world
  = (Raise TypeError, log_request {| req_id := "e1"; req_timeout := 75 |} blank_world).
Proof.
  apply (proj1 (proj2 (proj2 (uncaught_answer_aborts_run
           (plain_externals (answers_with (JNum 7))) "e1" blank_world TypeError
           eq_refl eq_refl))) (meta_with (Some "e1") None) [meta_with (Some "e2") None]
           eq_refl).
  cbn. set_solver.
Defined.

(** ** One cache entry for each identifier *)

Lemma list_ascii_inj a b :
  String.list_ascii_of_string a = String.list_ascii_of_string b → a = b.
Proof.
  intros H. rewrite <-(String.string_of_list_ascii_of_string a),
    <-(String.string_of_list_ascii_of_string b). by rewrite H.
Qed.

Lemma str_app_inv_tail a b s : a +:+ s = b +:+ s → a = b.
Proof.
  intros H. apply list_ascii_inj. apply (f_equal String.list_ascii_of_string) in H.
  rewrite !list_ascii_app in H. by apply app_inv_tail in H.
Qed.

Lemma cache_path_inj id id' : cache_path id = cache_path id' → id = id'.
Proof.
  unfold cache_path. intros H. apply String.app_inj in H.
  by apply str_app_inv_tail in H.
Qed.

Lemma get_detail_other_paths X id w p :
  p ≠ cache_path id → cache (get_detail_with_cache X id w).2 !! p = cache w !! p.
Proof.
  intros Hp.
  destruct (get_detail_with_cache_cases X id w)
    as [(d & _ & ->)|[(_ & ->)|(_ & r & w1 & _ & Hd
         & [(e & _ & ->)|[(d & _ & _ & ->)|(d & _ & _ & _ & ->)]])]];
    cbn [snd write_cache cache]; try done.
  - destruct Hd as (-> & _). done.
  - destruct Hd as (-> & _). done.
  - destruct Hd as (-> & _). by rewrite lookup_insert_ne.
Qed.

(** X9. Two identifiers without a path separator have two cache paths, and
    looking one of them up through the cache leaves the entry of the other,
    and every file but its own, as it was. *)
Theorem cache_entries_are_separate X id id' w :
  no_slash id → no_slash id' → id ≠ id' →
  cache_path id ≠ cache_path id'
  ∧ cache (get_detail_with_cache X id w).2 !! cache_path id' = cache w !! cache_path id'
  ∧ (∀ p, p ≠ cache_path id → cache (get_detail_with_cache X id w).2 !! p = cache w !! p).
Proof.
  intros _ _ Hne.
  assert (Hp : cache_path id ≠ cache_path id') by (intros H; by apply cache_path_inj in H).
  split; [done|]. split.
  - by apply get_detail_other_paths.
  - intros p. apply get_detail_other_paths.
Qed.

Lemma cache_entries_are_separate_witness :
  cache (get_detail_with_cache (plain_externals (answers_with detail_two_options)) "q1"
           (world_with_entry "q2" Garbage)).2 !! cache_path "q2" = Some Garbage.
Proof.
  assert (H1 : no_slash "q1") by (unfold no_slash; cbn; repeat constructor; discriminate).
  assert (H2 : no_slash "q2") by (unfold no_slash; cbn; repeat constructor; discriminate).
  assert (H3 : "q1" ≠ "q2") by discriminate.
  etrans; [exact (proj1 (proj2 (cache_entries_are_separate
             (plain_externals (answers_with detail_two_options)) "q1" "q2"
             (world_with_entry "q2" Garbage) H1 H2 H3)))|].
  reflexivity.
Defined.

(** ** A record is cached before it is normalized *)

(** X10. A record is written to the cache before it is normalized.  When
    the normalizer raises on a record that was just fetched, the primary pass
    ends with that exception, the persisted output is as it was, and the
    record is in the cache: a later run reads it from there and ends with the
    same exception at the same item, whatever the upstream answers, and leaves
    the world as it found it, so that the next run does the same. *)
Theorem rejected_record_stays_cached X st meta id w d w1 e :
  truthy_id (m_external_id meta) = Some id →
  id ∉ seen_ids st →
  cache w !! cache_path id = None →
  fetch_detail_strong X id 5 REQUEST_TIMEOUT_S w = (Ok d, w1) →
  py_truthy d = true →
  normalize_detail X d meta = Raise e →
  let w2 := write_cache (cache_path id) d w1 in
  primary_step X st meta w = (Raise e, w2)
  ∧ cache w2 !! cache_path id = Some (JsonFile d)
  ∧ normalized_json w2 = normalized_json w
  ∧ ∀ X' rest,
      normalize_detail X' d meta = Raise e →
      primary_pass X' (meta :: rest) st w2 = (Raise e, w2)
      ∧ (id ∉ external_ids (default [] (normalized_json w2)) →
         main X' (meta :: rest) w2 = (Raise e, w2)).
Proof.
  intros Hid Hseen Hc Hf Ht Hn w2.
  assert (Hg : get_detail_with_cache X id w = (Ok d, w2)).
  { unfold get_detail_with_cache. by rewrite Hc, Hf, Ht. }
  assert (Hhit : ∀ X', get_detail_with_cache X' id w2 = (Ok d, w2)).
  { intros X'. unfold get_detail_with_cache, w2. cbn [write_cache cache].
    by rewrite lookup_insert_eq. }
  assert (Hstep : ∀ X' st0 w0, id ∉ seen_ids st0 →
            get_detail_with_cache X' id w0 = (Ok d, w2) →
            normalize_detail X' d meta = Raise e →
            primary_step X' st0 meta w0 = (Raise e, w2)).
  { intros X' st0 w0 Hs0 Hg0 Hn0. unfold primary_step. rewrite Hid.
    rewrite bool_decide_eq_false_2 by done. unfold io_bind. rewrite Hg0, Ht.
    cbn [negb]. unfold lift. by rewrite Hn0. }
  split_and!.
  - by apply Hstep.
  - unfold w2. cbn. by rewrite lookup_insert_eq.
  - unfold w2. cbn. by destruct (fetch_detail_strong_frame _ _ _ _ _ _ _ Hf) as (_ & _ & -> & _).
  - intros X' rest Hn'.
    assert (Hp : ∀ st0, id ∉ seen_ids st0 →
              primary_pass X' (meta :: rest) st0 w2 = (Raise e, w2)).
    { intros st0 Hs0. cbn [primary_pass]. unfold io_bind at 1.
      by rewrite (Hstep X' st0 w2 Hs0 (Hhit X') Hn'). }
    split; [by apply Hp|]. intros Hs. unfold main. cbv zeta. unfold io_bind at 1.
    rewrite Hp; [done|]. by cbn.
Qed.

Lemma rejected_record_stays_cached_witness :
  ∃ w2,
    primary_step rejecting_externals (start []) (meta_with (Some "e1") None) blank_world
    = (Raise ParserRejectedMarkup, w2)
    ∧ cache w2 !! cache_path "e1" = Some (JsonFile detail_rejected)
    ∧ main fragment_externals [meta_with (Some "e1") None] w2
      = (Raise ParserRejectedMarkup, w2).
Proof.
  destruct (rejected_record_stays_cached rejecting_externals (start [])
              (meta_with (Some "e1") None) "e1" blank_world detail_rejected
              (log_request {| req_id := "e1"; req_timeout := 75 |} blank_world)
              ParserRejectedMarkup eq_refl) as (Hs & Hc & _ & H).
  - cbn. set_solver.
  - reflexivity.
  - reflexivity.
  - reflexivity.
  - reflexivity.
  - eexists. split; [exact Hs|]. split; [exact Hc|].
    apply (H fragment_externals [] eq_refl). cbn. set_solver.
Defined.

(** ** The plaintext mirror, piece by piece *)

Lemma node_words_are_words types n : Forall is_word (node_words types n).
Proof.
  induction n as [s|s|k s|nm at_ ch IH] using node_forall_ind; cbn [node_words].
  1-3: destruct (string_of_types types _); [apply py_split_words|constructor].
  induction IH as [|c ch Hc _ IHch]; [constructor|].
  cbn [flat_map]. apply Forall_app. by split.
Qed.

Lemma flat_map_split_words l : Forall is_word l → flat_map py_split l = l.
Proof.
  induction 1 as [|w l Hw _ IH]; [done|].
  cbn [flat_map]. by rewrite (py_split_word w Hw), IH.
Qed.

Lemma plain_words_are_words s : Forall is_word (plain_words s).
Proof.
  unfold plain_words.
  induction (map (replace_elements loop_region)
               (map (replace_elements loop_svg) (map (replace_elements loop_image) s)))
    as [|n l IH]; [constructor|].
  cbn [flat_map]. apply Forall_app. split; [apply node_words_are_words|done].
Qed.

(** The plaintext mirror is its words, joined by single spaces. *)
Lemma soup_to_plaintext_words s : soup_to_plaintext s = py_join " " (plain_words s).
Proof.
  rewrite soup_to_plaintext_maps. unfold compact_text, plain_words.
  by rewrite soup_get_text_words.
Qed.

Lemma plain_words_app a b : plain_words (a ++ b) = plain_words a ++ plain_words b.
Proof. unfold plain_words. by rewrite !map_app, flat_map_app. Qed.

Lemma plain_words_one n :
  plain_words [n]
  = node_words None
      (replace_elements loop_region
         (replace_elements loop_svg (replace_elements loop_image n))).
Proof. unfold plain_words. cbn [map flat_map]. by rewrite app_nil_r. Qed.

Lemma loop_region_is_region n :
  loop_region n = if is_region n then Some (compact_text (get_text n)) else None.
Proof.
  unfold loop_region, is_region. destruct (has_attr "role" "region" n); [|done].
  by destruct (region_selected n).
Qed.

Lemma is_region_children nm at_ ch ch' :
  is_region (Tag nm at_ ch) = is_region (Tag nm at_ ch').
Proof. reflexivity. Qed.

Lemma compact_text_twice s : compact_text (compact_text s) = compact_text s.
Proof. unfold compact_text at 1 3. by rewrite py_split_compact. Qed.

(** X11. The plaintext mirror can be read off the tree piece by piece.  The
    mirror of two runs of siblings is the mirror of the first, a space, and
    the mirror of the second, compacted.  An element that is no image, no
    inline SVG and no long-description region is transparent: its mirror is
    that of its children.  A long-description region gives its own text, read
    once the images and inline SVGs inside it are replaced; for a [script] or
    [style] element that is its source text.  An image or an inline SVG gives
    its replacement text, compacted, whatever it contains.  A string or a
    CDATA section gives its text, compacted; a comment and a string of any
    other class give nothing. *)
Theorem plaintext_is_compositional :
  (∀ a b : soup,
     soup_to_plaintext (a ++ b)
     = compact_text (soup_to_plaintext a +:+ " " +:+ soup_to_plaintext b))
  ∧ (∀ nm at_ ch, nm ≠ "img" → nm ≠ "svg" → is_region (Tag nm at_ ch) = false →
       soup_to_plaintext [Tag nm at_ ch] = soup_to_plaintext ch)
  ∧ (∀ nm at_ ch, nm ≠ "img" → nm ≠ "svg" → is_region (Tag nm at_ ch) = true →
       soup_to_plaintext [Tag nm at_ ch]
       = compact_text
           (get_text (Tag nm at_ (map (replace_elements loop_svg)
                                    (map (replace_elements loop_image) ch)))))
  ∧ (∀ at_ ch, soup_to_plaintext [Tag "img" at_ ch]
               = compact_text (img_text (Tag "img" at_ ch)))
  ∧ (∀ at_ ch, soup_to_plaintext [Tag "svg" at_ ch]
               = compact_text (svg_text (Tag "svg" at_ ch)))
  ∧ (∀ t, soup_to_plaintext [NavigableString t] = compact_text t
          ∧ soup_to_plaintext [SpecialString CData t] = compact_text t)
  ∧ (∀ t, soup_to_plaintext [Comment t] = ""
          ∧ ∀ k, k ≠ CData → soup_to_plaintext [SpecialString k t] = "")
  ∧ soup_to_plaintext [] = "".
Proof.
  assert (Hinner : ∀ nm at_ ch, nm ≠ "img" → nm ≠ "svg" →
            replace_elements loop_svg (replace_elements loop_image (Tag nm at_ ch))
            = Tag nm at_ (map (replace_elements loop_svg)
                            (map (replace_elements loop_image) ch))).
  { intros nm at_ ch Hi Hs.
    rewrite (replace_elements_none loop_image).
    2:{ rewrite loop_image_tag. by apply String.eqb_neq in Hi as ->. }
    rewrite (replace_elements_none loop_svg).
    2:{ unfold loop_svg. cbn [is_tag]. by apply String.eqb_neq in Hs as ->. }
    done. }
  split_and!.
  - intros a b. rewrite !soup_to_plaintext_words, plain_words_app.
    unfold compact_text. rewrite py_split_sep, !py_split_join.
    by rewrite !flat_map_split_words by apply plain_words_are_words.
  - intros nm at_ ch Hi Hs Hr. rewrite !soup_to_plaintext_words, plain_words_one.
    rewrite Hinner by done.
    rewrite (replace_elements_none loop_region).
    2:{ by rewrite loop_region_is_region, (is_region_children nm at_ _ ch), Hr. }
    reflexivity.
  - intros nm at_ ch Hi Hs Hr. rewrite !soup_to_plaintext_words, plain_words_one.
    rewrite Hinner by done.
    erewrite (replace_elements_some loop_region).
    2:{ by rewrite loop_region_is_region, (is_region_children nm at_ _ ch), Hr. }
    cbn [node_words string_of_types].
    change (py_join " " (py_split ?t)) with (compact_text t).
    apply compact_text_twice.
  - intros at_ ch. rewrite soup_to_plaintext_words, plain_words_one.
    by rewrite (replace_elements_some loop_image _ (img_text (Tag "img" at_ ch))).
  - intros at_ ch. rewrite soup_to_plaintext_words, plain_words_one.
    rewrite (replace_elements_none loop_image) by done.
    by rewrite (replace_elements_some loop_svg _ (svg_text (Tag "svg" at_ ch))).
  - intros t. by rewrite !soup_to_plaintext_words, !plain_words_one.
  - intros t. rewrite soup_to_plaintext_words, plain_words_one. split; [done|].
    intros k Hk. rewrite soup_to_plaintext_words, plain_words_one. by destruct k.
  - done.
Qed.

Lemma plaintext_is_compositional_witness :
  soup_to_plaintext
    [Tag "p" ∅ [NavigableString " seen  in "]; Tag "img" {[ "alt" := "the  graph" ]} []]
  = "seen in the graph"
  ∧ soup_to_plaintext
      [Tag "script" {[ "role" := "region"; "class" := "sr-only" ]}
         [SpecialString Script " var  x "; NavigableString "y"]]
    = "var x".
Proof.
  destruct plaintext_is_compositional as (Happ & Htag & Hreg & Himg & _ & Hstr & _).
  split.
  - change [Tag "p" ∅ [NavigableString " seen  in "];
            Tag "img" {[ "alt" := "the  graph" ]} []]
      with ([Tag "p" ∅ [NavigableString " seen  in "]]
            ++ [Tag "img" {[ "alt" := "the  graph" ]} []]).
    rewrite Happ, Htag, (proj1 (Hstr _)), Himg by done. reflexivity.
  - rewrite Hreg by done. reflexivity.
Defined.

(** ** The accepted letters are sorted *)

Lemma string_leb_trans a b c :
  String.leb a b = true → String.leb b c = true → String.leb a c = true.
Proof.
  unfold String.leb.
  assert (H : ∀ a b c, String.compare a b ≠ Gt → String.compare b c ≠ Gt →
                       String.compare a c ≠ Gt).
  { clear. induction a as [|x a IH]; intros [|y b] [|z c]; cbn; try done.
    destruct (Ascii.compare x y) eqn:Exy; [|intros _|done].
    - apply Ascii.compare_eq_iff in Exy as ->.
      destruct (Ascii.compare y z); [apply IH|done..].
    - destruct (Ascii.compare y z) eqn:Eyz; [| |done].
      + apply Ascii.compare_eq_iff in Eyz as ->. by rewrite Exy.
      + intros _. unfold Ascii.compare in *. rewrite N.compare_lt_iff in Exy, Eyz.
        assert ((N_of_ascii x ?= N_of_ascii z)%N = Lt) as -> by (apply N.compare_lt_iff; lia).
        done. }
  intros H1 H2. specialize (H a b c).
  destruct (String.compare a b), (String.compare b c), (String.compare a c); try done;
    exfalso; by apply H.
Qed.

Lemma string_ltb_leb a b : String.ltb a b = true → String.leb a b = true.
Proof. unfold String.ltb, String.leb. by destruct (String.compare a b). Qed.

Lemma string_not_ltb_leb a b : String.ltb a b = false → String.leb b a = true.
Proof.
  unfold String.ltb, String.leb. rewrite (String.compare_antisym a b).
  by destruct (String.compare b a).
Qed.

Lemma insert_sorted_sorted x l :
  StronglySorted (λ a b, String.leb a b = true) l →
  StronglySorted (λ a b, String.leb a b = true) (insert_sorted String.ltb x l).
Proof.
  induction 1 as [|y l Hl IH Hy]; cbn [insert_sorted].
  - by repeat constructor.
  - destruct (String.ltb x y) eqn:E.
    + constructor; [by constructor|]. apply string_ltb_leb in E. constructor; [done|].
      eapply Forall_impl; [exact Hy|]. intros z Hz. by eapply string_leb_trans.
    + constructor; [done|].
      rewrite (insert_sorted_perm String.ltb x l). constructor; [|done].
      by apply string_not_ltb_leb.
Qed.

Lemma stable_sort_sorted l :
  StronglySorted (λ a b, String.leb a b = true) (stable_sort String.ltb l).
Proof.
  unfold stable_sort.
  assert (H : ∀ acc, StronglySorted (λ a b, String.leb a b = true) acc →
    StronglySorted (λ a b, String.leb a b = true)
      (fold_left (λ acc x, insert_sorted String.ltb x acc) l acc)).
  { induction l as [|x l IH]; intros acc Hacc; [done|].
    cbn [fold_left]. by apply IH, insert_sorted_sorted. }
  apply H. constructor.
Qed.

Lemma py_sorted_sorted X l ss :
  py_sorted X l = Ok (JStr <$> ss) → StronglySorted (λ a b, String.leb a b = true) ss.
Proof.
  intros H. pose proof (py_sorted_perm _ _ _ H) as Hp.
  destruct l as [|x [|y l]].
  - injection H as H. destruct ss; [constructor|done].
  - injection H as H. destruct ss as [|s [|]]; try done. repeat constructor.
  - unfold py_sorted in H. destruct (mapM as_str (x :: y :: l)) as [ss0|] eqn:E.
    + injection H as H. clear Hp.
      assert (stable_sort String.ltb ss0 = ss) as <-.
      { revert H. generalize (stable_sort String.ltb ss0). intros l1. revert ss.
        induction l1 as [|a l1 IH]; intros [|b ss] H; try done.
        injection H as -> H. by rewrite (IH _ H). }
      apply stable_sort_sorted.
    + assert (Hall : Forall (λ j, is_Some (as_str j)) (x :: y :: l)).
      { rewrite <-Hp. apply Forall_fmap, Forall_true. by eexists. }
      exfalso. apply mapM_None in E. apply Exists_exists in E as (j & Hj & Hn).
      rewrite Forall_forall in Hall. destruct (Hall j Hj) as [? Hs]. congruence.
Qed.

(** X12. The accepted letters of a record are those of the detail record,
    each as often as there, and when they are strings they stand in
    ascending order: no letter is followed, anywhere later in the list, by
    a smaller one. *)
Theorem correct_letters_are_sorted X detail meta r :
  normalize_detail X detail meta = Ok r →
  ∃ letters,
    list_field detail "correct_answer" = Ok letters
    ∧ n_correct_letters r ≡ₚ letters
    ∧ ∀ ss, n_correct_letters r = JStr <$> ss →
        StronglySorted (λ a b, String.leb a b = true) ss.
Proof.
  intros H. destruct (normalize_detail_choices _ _ _ _ H)
    as (letters & options & Hl & _ & _ & Hs & _).
  exists letters. split_and!; [done|by eapply py_sorted_perm|].
  intros ss E. rewrite E in Hs. by eapply py_sorted_sorted.
Qed.

Lemma correct_letters_are_sorted_witness :
  ∃ r, normalize_detail (plain_externals always_timeout)
         (JDict [("stem", JStr "x");
                 ("correct_answer", JList [JStr "C"; JStr "A"; JStr "B"])])
         (meta_with (Some "q") None) = Ok r
       ∧ n_correct_letters r = JStr <$> ["A"; "B"; "C"]
       ∧ StronglySorted (λ a b, String.leb a b = true) ["A"; "B"; "C"].
Proof.
  eexists. split; [vm_compute; reflexivity|]. split; [reflexivity|].
  destruct (correct_letters_are_sorted (plain_externals always_timeout)
              (JDict [("stem", JStr "x");
                      ("correct_answer", JList [JStr "C"; JStr "A"; JStr "B"])])
              (meta_with (Some "q") None) _ eq_refl) as (letters & _ & _ & H).
  apply H. reflexivity.
Defined.

(** ** The CSV export *)

Lemma csv_row_ok q : letters_are_strings q ↔ ∃ row, csv_row q = Ok row.
Proof.
  unfold letters_are_strings, csv_row. split.
  - intros H. destruct (mapM as_str (n_correct_letters q)) as [ss|] eqn:E; [by eexists|].
    apply mapM_None in E. apply Exists_exists in E as (x & Hx & Hn).
    rewrite Forall_forall in H. destruct (H x Hx) as [? ?]. congruence.
  - intros (row & H). destruct (mapM as_str (n_correct_letters q)) as [ss|] eqn:E; [|done].
    apply mapM_as_str in E. rewrite E. apply Forall_fmap, Forall_true. by eexists.
Qed.

Lemma csv_row_raises q e : csv_row q = Raise e → e = TypeError ∧ ¬ letters_are_strings q.
Proof.
  intros H. split.
  - unfold csv_row in H. destruct (mapM as_str (n_correct_letters q)); congruence.
  - intros (row & Hr)%csv_row_ok. congruence.
Qed.

(** The export writes a line for every record, or stops at the first record
    whose line cannot be made. *)
Lemma write_csv_cases rows :
  ((write_csv rows).2 = Ok () ∧ mapM_result csv_row rows = Ok (write_csv rows).1)
  ∨ ∃ pre q post,
      rows = pre ++ q :: post
      ∧ mapM_result csv_row pre = Ok (write_csv rows).1
      ∧ csv_row q = Raise TypeError
      ∧ (write_csv rows).2 = Raise TypeError.
Proof.
  induction rows as [|q rows IH]; [by left|].
  cbn [write_csv mapM_result]. destruct (csv_row q) as [row|e] eqn:E.
  - destruct IH as [(H1 & H2)|(pre & q' & post & -> & H1 & H2 & H3)].
    + left. cbn [fst snd]. split; [done|]. by rewrite H2.
    + right. exists (q :: pre), q', post. cbn [fst snd mapM_result app].
      rewrite E, H1. done.
  - right. exists [], q, rows. destruct (csv_row_raises _ _ E) as [-> _]. done.
Qed.

Lemma normalized_letters_are_strings X detail meta r :
  well_formed detail = true →
  normalize_detail X detail meta = Ok r →
  letters_are_strings r.
Proof.
  intros Hwf H. destruct (normalize_detail_choices _ _ _ _ H)
    as (letters & options & Hl & _ & _ & Hs & _).
  unfold well_formed in Hwf. repeat (apply andb_prop in Hwf as [Hwf ?]).
  destruct detail as [| | | | |kv]; try done.
  rewrite list_field_ok in Hl by done. injection Hl as <-.
  unfold letters_are_strings. rewrite (py_sorted_perm _ _ _ Hs).
  match goal with Hf : forallb _ (items_of (field _ "correct_answer")) = true |- _ =>
    destruct (mapM_all_str _ Hf) as (ss & Hss) end.
  apply mapM_as_str in Hss. cbn [field] in Hss. rewrite Hss.
  apply Forall_fmap, Forall_true. by eexists.
Qed.

(** X13. The CSV export writes one line for each record, in order, exactly
    when the accepted letters of every record are strings.  Otherwise it
    raises a [TypeError] at the first record with a letter that is not a
    string, after the lines of the records before it are written.  A record
    normalized from a well-formed detail record always has its line. *)
Theorem csv_export_needs_string_letters rows :
  ((write_csv rows).2 = Ok () ↔ Forall letters_are_strings rows)
  ∧ ((write_csv rows).2 = Ok () → mapM_result csv_row rows = Ok (write_csv rows).1
                                  ∧ length (write_csv rows).1 = length rows)
  ∧ (∀ e, (write_csv rows).2 = Raise e →
       e = TypeError
       ∧ ∃ pre q post,
           rows = pre ++ q :: post
           ∧ Forall letters_are_strings pre
           ∧ ¬ letters_are_strings q
           ∧ mapM_result csv_row pre = Ok (write_csv rows).1)
  ∧ (∀ X detail meta r,
       well_formed detail = true →
       normalize_detail X detail meta = Ok r →
       ∃ row, csv_row r = Ok row).
Proof.
  assert (Hall : ∀ l out, mapM_result csv_row l = Ok out →
                          Forall letters_are_strings l ∧ length out = length l).
  { induction l as [|q l IH]; intros out H; [by injection H as <-|].
    cbn [mapM_result] in H. destruct (csv_row q) as [row|] eqn:E; [|done].
    cbn in H. destruct (mapM_result csv_row l) as [out'|] eqn:E'; [|done].
    injection H as <-. destruct (IH _ eq_refl) as [H1 H2]. split.
    - constructor; [|done]. apply csv_row_ok. by eexists.
    - cbn. by rewrite H2. }
  destruct (write_csv_cases rows) as [(H1 & H2)|(pre & q & post & -> & H1 & H2 & H3)].
  - rewrite H1. destruct (Hall _ _ H2) as [Ha Hb]. split_and!; try done.
    intros X detail meta r Hwf H. apply csv_row_ok. by eapply normalized_letters_are_strings.
  - rewrite H3. destruct (Hall _ _ H1) as [Ha Hb]. destruct (csv_row_raises _ _ H2) as [_ Hq].
    split_and!; try done.
    + split; [done|]. intros Hf. apply Forall_app in Hf as [_ Hf].
      apply Forall_cons in Hf as [Hf _]. done.
    + intros e [= <-]. split; [done|]. by exists pre, q, post.
    + intros X detail meta r Hwf H. apply csv_row_ok.
      by eapply normalized_letters_are_strings.
Qed.

Lemma csv_export_needs_string_letters_witness :
  ∃ r, normalize_detail (plain_externals always_timeout) detail_numbered_answers
         (meta_with (Some "q") None) = Ok r
       ∧ (write_csv [r]).2 = Raise TypeError
       ∧ ∃ pre q post, [r] = pre ++ q :: post ∧ Forall letters_are_strings pre.
Proof.
  destruct (normalize_detail (plain_externals always_timeout) detail_numbered_answers
              (meta_with (Some "q") None)) as [r|e] eqn:E;
    vm_compute in E; [|discriminate E].
  injection E as Er. exists r. split; [reflexivity|].
  assert (Hw : (write_csv [r]).2 = Raise TypeError) by (rewrite <-Er; reflexivity).
  split; [exact Hw|].
  destruct (proj1 (proj2 (proj2 (csv_export_needs_string_letters [r]))) TypeError Hw)
    as (_ & pre & q & post & Hrows & Hpre & _).
  exists pre, q, post. split; [exact Hrows|exact Hpre].
Defined.

(** Accepted letters that are numbers pass the normalizer and stop the
    export. *)
Lemma numbered_answers_break_export :
  ∃ r, normalize_detail (plain_externals always_timeout) detail_numbered_answers
         (meta_with (Some "q") None) = Ok r
       ∧ n_correct_letters r = [JNum 1; JNum 2]
       ∧ csv_row r = Raise TypeError
       ∧ write_csv [r] = ([], Raise TypeError).
Proof. eexists. split; [vm_compute; reflexivity|]. by vm_compute. Qed.

Lemma has_tag_app tag a b : has_tag tag (a ++ b) = has_tag tag a || has_tag tag b.
Proof. apply existsb_app. Qed.

Lemma has_tag_none tag {A} (f : A → list MediaItem) l :
  (∀ x m, m ∈ f x → media_tag m ≠ tag) → has_tag tag (flat_map f l) = false.
Proof.
  intros H. unfold has_tag. apply not_true_iff_false. intros E.
  apply existsb_exists in E as (m & Hm & E). apply String.eqb_eq in E.
  apply in_flat_map in Hm as (x & _ & Hm). by apply (H x m); [apply list_elem_of_In|].
Qed.

Lemma has_tag_map tag {A} (f : A → MediaItem) l :
  (∀ x, media_tag (f x) = tag) → has_tag tag (map f l) = negb (bool_decide (l = [])).
Proof.
  intros H. destruct l as [|x l]; [done|]. cbn. by rewrite H, String.eqb_refl.
Qed.

Lemma has_tag_map_none tag {A} (f : A → MediaItem) l :
  (∀ x, media_tag (f x) ≠ tag) → has_tag tag (map f l) = false.
Proof.
  intros H. induction l as [|x l IH]; [done|]. cbn.
  specialize (H x). apply String.eqb_neq in H. by rewrite H.
Qed.

Lemma figcaption_items_tag fig m : m ∈ figcaption_items fig → media_tag m = "figcaption".
Proof.
  unfold figcaption_items. destruct (head _); [|by intros ?%elem_of_nil].
  by intros ->%list_elem_of_singleton.
Qed.

Lemma region_items_tag n m : m ∈ region_items n → media_tag m = "region".
Proof.
  unfold region_items. destruct (region_selected n); [|by intros ?%elem_of_nil].
  by intros ->%list_elem_of_singleton.
Qed.

Lemma has_region_items (l : list (path * node)) :
  has_tag "region" (flat_map (λ pn, region_items pn.2) l)
  = existsb (λ pn, region_selected pn.2) l.
Proof.
  induction l as [|pn l IH]; [done|]. cbn [flat_map existsb].
  rewrite has_tag_app, IH. f_equal. unfold region_items.
  by destruct (region_selected pn.2).
Qed.

Lemma img_items_tag X (l : list (path * node)) v :
  mapM_result (λ pn, img_item X pn.2) l = Ok v →
  length v = length l ∧ Forall (λ m, media_tag m = "img") v.
Proof.
  intros H. apply mapM_result_lookup in H as [Hlen Hall]. split; [done|].
  apply Forall_lookup. intros i m Hm. destruct (Hall i m Hm) as (pn & _ & Hpn).
  unfold img_item in Hpn. inv_bind Hpn. by injection Hpn as <-.
Qed.

Lemma has_tag_all tag l :
  Forall (λ m, media_tag m = tag) l → has_tag tag l = negb (bool_decide (l = [])).
Proof. intros H. destruct H as [|m l Hm _]; [done|]. cbn. by rewrite Hm, String.eqb_refl. Qed.

Lemma has_tag_other tag tag' l :
  tag' ≠ tag → Forall (λ m, media_tag m = tag') l → has_tag tag l = false.
Proof.
  intros Hne H. induction H as [|m l Hm _ IH]; [done|]. cbn.
  rewrite Hm. apply String.eqb_neq in Hne. by rewrite Hne.
Qed.

(** The kinds of item in the inventory of a markup field say what elements
    the markup has. *)
Lemma media_flags X h s media :
  str_nonempty h = true → parse X h = Some s →
  extract_media_from_html X (JStr h) = Ok media →
  has_tag "img" media = negb (bool_decide (find_all (is_tag "img") s = []))
  ∧ has_tag "svg" media = negb (bool_decide (find_all (is_tag "svg") s = []))
  ∧ has_tag "region" media
    = existsb (λ pn, region_selected pn.2) (find_all (has_attr "role" "region") s).
Proof.
  intros Hh Hp H. unfold extract_media_from_html, make_soup in H.
  cbn [py_truthy] in H. unfold str_nonempty in Hh. rewrite Hh, Hp in H.
  cbn [negb mbind result_mbind result_bind] in H. inv_bind H. injection H as <-.
  apply img_items_tag in Hv as [Hlen Himg]. rewrite !has_tag_app.
  assert (bool_decide (v = []) = bool_decide (find_all (is_tag "img") s = [])) as Hnil.
  { destruct v, (find_all (is_tag "img") s); done. }
  split_and!.
  - rewrite (has_tag_all "img") by done. rewrite Hnil.
    rewrite (has_tag_map_none "img") by done.
    rewrite (has_tag_none "img").
    2:{ intros x m Hm. by rewrite (figcaption_items_tag _ _ Hm). }
    rewrite (has_tag_none "img").
    2:{ intros x m Hm. by rewrite (region_items_tag _ _ Hm). }
    by rewrite !orb_false_r.
  - rewrite (has_tag_other "svg" "img") by done.
    rewrite (has_tag_map "svg") by done.
    rewrite (has_tag_none "svg").
    2:{ intros x m Hm. by rewrite (figcaption_items_tag _ _ Hm). }
    rewrite (has_tag_none "svg").
    2:{ intros x m Hm. by rewrite (region_items_tag _ _ Hm). }
    by rewrite !orb_false_r.
  - rewrite (has_tag_other "region" "img") by done.
    rewrite (has_tag_map_none "region") by done.
    rewrite (has_tag_none "region").
    2:{ intros x m Hm. by rewrite (figcaption_items_tag _ _ Hm). }
    by rewrite has_region_items.
Qed.

(** X14. The three media flags of a CSV line describe the stimulus and
    nothing else: for a record normalized from a detail record, the image
    flag is 1 exactly when the markup of the stimulus has an image element,
    the SVG flag exactly when it has an inline SVG, the long-description flag
    exactly when it has a long-description region that is selected; all three
    are 0 when the stimulus is missing or empty, whatever the stem, the
    rationale and the choices hold. *)
Theorem csv_flags_follow_stimulus X detail meta r row :
  normalize_detail X detail meta = Ok r →
  csv_row r = Ok row →
  (py_truthy (field detail "stimulus") = false →
   r_has_img row = 0 ∧ r_has_svg row = 0 ∧ r_has_longdesc row = 0)
  ∧ (∀ h s, field detail "stimulus" = JStr h → str_nonempty h = true →
            parse X h = Some s →
       r_has_img row = Z.b2z (negb (bool_decide (find_all (is_tag "img") s = [])))
       ∧ r_has_svg row = Z.b2z (negb (bool_decide (find_all (is_tag "svg") s = [])))
       ∧ r_has_longdesc row
         = Z.b2z (existsb (λ pn, region_selected pn.2)
                    (find_all (has_attr "role" "region") s))).
Proof.
  intros H Hrow. destruct (normalize_detail_fields _ _ _ _ H) as ((Hh & _ & Hm) & _).
  unfold csv_row in Hrow. destruct (mapM as_str (n_correct_letters r)); [|done].
  injection Hrow as <-. cbn [r_has_img r_has_svg r_has_longdesc]. split.
  - intros Hf. rewrite Hh in Hm.
    destruct (empty_field_plain X _ Hf) as [_ Hm']. rewrite Hm' in Hm.
    by injection Hm as <-.
  - intros h s Hf Hne Hp. rewrite Hh, Hf in Hm.
    assert (py_or (JStr h) (JStr "") = JStr h) as E.
    { unfold py_or. cbn. unfold str_nonempty in Hne. by rewrite Hne. }
    rewrite E in Hm. destruct (media_flags _ _ _ _ Hne Hp Hm) as (-> & -> & ->). done.
Qed.

Lemma csv_flags_follow_stimulus_witness :
  ∃ r row,
    normalize_detail fragment_externals detail_image_in_stem (meta_with (Some "q") None)
    = Ok r
    ∧ csv_row r = Ok row
    ∧ has_tag "img" (n_media_stem r) = true
    ∧ r_has_img row = 0.
Proof.
  eexists _, _. split; [vm_compute; reflexivity|]. split; [vm_compute; reflexivity|].
  split; [by vm_compute|].
  etrans; [exact (proj1 (proj2 (csv_flags_follow_stimulus fragment_externals
            detail_image_in_stem (meta_with (Some "q") None) _ _ eq_refl eq_refl)
            "no picture here" [NavigableString "no picture here"] eq_refl eq_refl eq_refl))|].
  reflexivity.
Defined.

(** ** Checkpoints *)






(** [main] starts the primary pass from the output on disk, and the sweep
    right after it has persisted the output. *)
Lemma main_starts_checkpointed w :
  checkpointed CHECKPOINT_EVERY (normalized (start (persisted w)))
    (length (normalized (start (persisted w)))) w.
Proof. split; [done|]. cbn [start normalized]. lia. Qed.

Lemma sweep_starts_checkpointed l fl w :
  checkpointed 20 l 0 (save_failures fl (save_normalized l w)).
Proof. split; [done|]. cbn. lia. Qed.









(** ** How many requests a run sends *)

Lemma get_detail_requests X id w r w' :
  get_detail_with_cache X id w = (r, w') →
  ∃ n, (n ≤ 5)%nat
       ∧ requests w' = requests w
                       ++ replicate n {| req_id := id; req_timeout := REQUEST_TIMEOUT_S |}.
Proof.
  intros H.
  destruct (get_detail_with_cache_cases X id w)
    as [(d & _ & E)|[(_ & E)|(_ & r1 & w1 & Hf & _
         & [(e & _ & E)|[(d & _ & _ & E)|(d & _ & _ & _ & E)]])]];
    rewrite E in H; injection H as <- <-;
    try (exists 0%nat; split; [lia|by rewrite app_nil_r]);
    destruct (fetch_detail_strong_budget _ _ _ _ _ _ _ Hf) as (_ & n & Hn & Hr);
    by exists n.
Qed.

Lemma primary_step_requests X st meta w r w' :
  primary_step X st meta w = (r, w') →
  (∃ new, requests w' = requests w ++ new
          ∧ (length new ≤ 5)%nat
          ∧ Forall (λ rq, truthy_id (m_external_id meta) = Some (req_id rq)
                          ∧ req_timeout rq = REQUEST_TIMEOUT_S) new)
  ∧ ∀ st', r = Ok st' → (length (failures st') ≤ length (failures st) + 1)%nat.
Proof.
  assert (Hnil : ∀ P, ∃ new : list request, requests w = requests w ++ new
                   ∧ (length new ≤ 5)%nat ∧ Forall P new).
  { intros P. exists []. rewrite app_nil_r. split_and!; [done|simpl; lia|constructor]. }
  unfold primary_step. destruct (truthy_id (m_external_id meta)) as [id|].
  2:{ intros [= <- <-]. split; [apply Hnil|]. intros st' [= <-]. cbn.
      rewrite length_app. simpl. lia. }
  destruct (bool_decide (id ∈ seen_ids st)).
  { intros [= <- <-]. split; [apply Hnil|]. intros st' [= <-]. lia. }
  intros H. apply io_bind_inv in H as [(d & w1 & Hg & H)|(e & Hg & ->)].
  - destruct (get_detail_requests _ _ _ _ _ Hg) as (n & Hn & Hr).
    assert (Hnew : ∃ new, requests w1 = requests w ++ new ∧ (length new ≤ 5)%nat
              ∧ Forall (λ rq, Some id = Some (req_id rq)
                              ∧ req_timeout rq = REQUEST_TIMEOUT_S) new).
    { eexists. split; [exact Hr|]. rewrite length_replicate. split; [done|].
      by apply Forall_replicate. }
    destruct (negb (py_truthy d)).
    { injection H as <- <-. split; [done|]. intros st' [= <-]. cbn.
      rewrite length_app. simpl. lia. }
    apply io_bind_inv in H as [(norm & w2 & Hl & H)|(e & Hl & ->)];
      unfold lift in Hl; injection Hl as _ <-.
    + destruct (_ =? _)%nat; injection H as <- <-; (split; [done|]);
        intros st' [= <-]; cbn; lia.
    + split; [done|]. intros st' [=].
  - destruct (get_detail_requests _ _ _ _ _ Hg) as (n & Hn & Hr). split.
    + eexists. split; [exact Hr|]. rewrite length_replicate. split; [done|].
      by apply Forall_replicate.
    + intros st' [=].
Qed.

Lemma primary_pass_requests X records st w r w' :
  primary_pass X records st w = (r, w') →
  (∃ new, requests w' = requests w ++ new
          ∧ (length new ≤ 5 * length records)%nat
          ∧ Forall (λ rq, (∃ meta, meta ∈ records
                                   ∧ truthy_id (m_external_id meta) = Some (req_id rq))
                          ∧ req_timeout rq = REQUEST_TIMEOUT_S) new)
  ∧ ∀ st', r = Ok st' →
      (length (failures st') ≤ length (failures st) + length records)%nat.
Proof.
  revert st w. induction records as [|meta rest IH]; intros st w H.
  - injection H as <- <-. split.
    + exists []. rewrite app_nil_r. split_and!; [done|simpl; lia|constructor].
    + intros st' [= <-]. lia.
  - cbn [primary_pass] in H.
    apply io_bind_inv in H as [(st1 & w1 & Hs & H)|(e & Hs & ->)].
    + destruct (primary_step_requests _ _ _ _ _ _ Hs) as ((n1 & Hr1 & Hl1 & Hf1) & Hfl1).
      destruct (IH _ _ H) as ((n2 & Hr2 & Hl2 & Hf2) & Hfl2). split.
      * exists (n1 ++ n2). rewrite Hr2, Hr1, <-app_assoc. split; [done|].
        rewrite length_app. cbn [length]. split; [lia|].
        apply Forall_app. split.
        -- eapply Forall_impl; [exact Hf1|]. intros rq [? ?]. split; [|done].
           exists meta. split; [apply list_elem_of_here|done].
        -- eapply Forall_impl; [exact Hf2|]. intros rq [(m & ? & ?) ?]. split; [|done].
           exists m. split; [by apply list_elem_of_further|done].
      * intros st' ->. specialize (Hfl1 _ eq_refl). specialize (Hfl2 _ eq_refl).
        cbn [length]. lia.
    + destruct (primary_step_requests _ _ _ _ _ _ Hs) as ((n1 & Hr1 & Hl1 & Hf1) & _). split.
      * exists n1. split; [done|]. cbn [length]. split; [lia|].
        eapply Forall_impl; [exact Hf1|]. intros rq [? ?]. split; [|done].
        exists meta. split; [apply list_elem_of_here|done].
      * intros st' [=].
Qed.

Lemma sweep_step_budget X m st ext w r w' :
  sweep_step X m st ext w = (r, w') →
  cache w' = cache w ∧ cache_writes w' = cache_writes w
  ∧ failures_json w' = failures_json w
  ∧ ∃ new, requests w' = requests w ++ new ∧ (length new ≤ 6)%nat.
Proof.
  unfold sweep_step. intros H.
  apply io_bind_inv in H as [(d & w1 & Hf & H)|(e & Hf & ->)];
    destruct (fetch_detail_strong_budget _ _ _ _ _ _ _ Hf) as ((Hc & Hw & _ & Hfj) & n & Hn & Hr).
  2:{ split_and!; [done..|]. eexists. split; [exact Hr|]. by rewrite length_replicate. }
  assert (Hnew : ∃ new, requests w1 = requests w ++ new ∧ (length new ≤ 6)%nat).
  { eexists. split; [exact Hr|]. by rewrite length_replicate. }
  destruct (negb (py_truthy d)); [by injection H as <- <-|].
  apply io_bind_inv in H as [(norm & w2 & Hl & H)|(e & Hl & ->)];
    unfold lift in Hl; injection Hl as _ <-; [|done].
  destruct (_ =? _)%nat; by injection H as <- <-.
Qed.

Lemma sweep_budget X m todo st w r w' :
  sweep X m todo st w = (r, w') →
  cache w' = cache w ∧ cache_writes w' = cache_writes w
  ∧ failures_json w' = failures_json w
  ∧ ∃ new, requests w' = requests w ++ new ∧ (length new ≤ 6 * length todo)%nat.
Proof.
  revert st w. induction todo as [|ext rest IH]; intros st w H.
  - injection H as <- <-. split_and!; [done..|]. exists []. rewrite app_nil_r.
    split; [done|simpl; lia].
  - cbn [sweep] in H.
    apply io_bind_inv in H as [(st1 & w1 & Hs & H)|(e & Hs & ->)].
    + destruct (sweep_step_budget _ _ _ _ _ _ _ Hs) as (Hc1 & Hw1 & Hf1 & n1 & Hr1 & Hl1).
      destruct (IH _ _ H) as (Hc2 & Hw2 & Hf2 & n2 & Hr2 & Hl2).
      split_and!; [congruence..|]. exists (n1 ++ n2).
      rewrite Hr2, Hr1, <-app_assoc. split; [done|]. rewrite length_app. cbn [length]. lia.
    + destruct (sweep_step_budget _ _ _ _ _ _ _ Hs) as (Hc1 & Hw1 & Hf1 & n1 & Hr1 & Hl1).
      split_and!; [done..|]. exists n1. split; [done|]. cbn [length]. lia.
Qed.

Lemma retry_todo_length fl done : (length (retry_todo fl done) ≤ length fl)%nat.
Proof. unfold retry_todo. rewrite length_map. apply length_filter. Qed.

(** X17. A run sends at most eleven requests for each item of the work
    queue, however it ends: at most five in the primary pass, and at most six
    in the recovery sweep for each recorded failure, of which there is at
    most one for each item.  Every request of the primary pass carries the
    external identifier of an item of the queue and the timeout of 75
    seconds, so an item without an external identifier reaches the fetcher in
    the sweep only. *)
Theorem request_budget X records w r w' :
  (∀ l, length (shuffle X l) = length l) →
  main X records w = (r, w') →
  (∃ new, requests w' = requests w ++ new ∧ (length new ≤ 11 * length records)%nat)
  ∧ (∀ st w1, primary_pass X records (start (default [] (normalized_json w))) w
              = (Ok st, w1) →
       ∃ new, requests w1 = requests w ++ new
              ∧ (length new ≤ 5 * length records)%nat
              ∧ Forall (λ rq, (∃ meta, meta ∈ records
                                 ∧ truthy_id (m_external_id meta) = Some (req_id rq))
                              ∧ req_timeout rq = REQUEST_TIMEOUT_S) new).
Proof.
  intros Hsh H. split.
  2:{ intros st w1 Hp. by destruct (primary_pass_requests _ _ _ _ _ _ Hp) as [? _]. }
  unfold main in H. cbv zeta in H. revert H.
  generalize (default [] (normalized_json w)). intros prior H.
  apply io_bind_inv in H as [(st & w1 & Hp & H)|(e & Hp & ->)].
  2:{ destruct (primary_pass_requests _ _ _ _ _ _ Hp) as [(new & Hr & Hl & _) _].
      exists new. split; [done|lia]. }
  destruct (primary_pass_requests _ _ _ _ _ _ Hp) as [(n1 & Hr1 & Hl1 & _) Hfl].
  specialize (Hfl _ eq_refl). cbn [start failures length] in Hfl.
  apply io_bind_inv in H as [(? & w2 & Hs & H)|(e & Hs & ->)]; [|done].
  injection Hs as _ <-.
  destruct (bool_decide (failures st = [])).
  { injection H as <- <-. exists n1. split; [done|lia]. }
  apply io_bind_inv in H as [(out & w3 & Hsw & H)|(e & Hsw & ->)].
  - apply io_bind_inv in H as [(? & w4 & Hs & H)|(e & Hs & ->)]; [|done].
    injection Hs as _ <-. injection H as <- <-.
    destruct (sweep_budget _ _ _ _ _ _ _ Hsw) as (_ & _ & _ & n2 & Hr2 & Hl2).
    exists (n1 ++ n2). cbn [save_normalized requests] in *. rewrite Hr2. cbn.
    rewrite Hr1, <-app_assoc. split; [done|]. rewrite length_app.
    unfold sweep_todo in Hl2. rewrite Hsh in Hl2.
    pose proof (retry_todo_length (failures st) (external_ids (normalized st))). lia.
  - destruct (sweep_budget _ _ _ _ _ _ _ Hsw) as (_ & _ & _ & n2 & Hr2 & Hl2).
    exists (n1 ++ n2). rewrite Hr2. cbn. rewrite Hr1, <-app_assoc. split; [done|].
    rewrite length_app. unfold sweep_todo in Hl2. rewrite Hsh in Hl2.
    pose proof (retry_todo_length (failures st) (external_ids (normalized st))). lia.
Qed.

Lemma request_budget_witness :
  ∃ w' new,
    main (plain_externals always_timeout) [meta_with (Some "e1") None] blank_world
    = (Ok ([], [("missing_or_timeout", "e1")]), w')
    ∧ requests w' = requests blank_world ++ new
    ∧ (length new ≤ 11 * 1)%nat
    ∧ length (requests w') = 11%nat.
Proof.
  destruct (main (plain_externals always_timeout) [meta_with (Some "e1") None] blank_world)
    as [r w'] eqn:E.
  destruct (proj1 (request_budget (plain_externals always_timeout)
                     [meta_with (Some "e1") None] blank_world r w' (λ l, eq_refl) E))
    as (new & Hr & Hl).
  exists w', new. vm_compute in E. injection E as <- <-.
  split; [reflexivity|]. split; [exact Hr|]. split; [exact Hl|reflexivity].
Defined.

(** ** What a run leaves on disk *)

Lemma primary_step_extends X st meta w st' w' :
  primary_step X st meta w = (Ok st', w') → normalized st `prefix_of` normalized st'.
Proof.
  intros H. destruct (primary_step_cases _ _ _ _ _ _ H)
    as [(-> & _)|[(-> & _)|[(id & _ & _ & -> & _)
       |(id & d & norm & w1 & _ & _ & _ & _ & _ & -> & _)]]];
    try done.
  by apply prefix_app_r.
Qed.

Lemma primary_pass_extends X records st w st' w' :
  primary_pass X records st w = (Ok st', w') → normalized st `prefix_of` normalized st'.
Proof.
  revert st w. induction records as [|meta rest IH]; intros st w H.
  - by injection H as <- <-.
  - cbn [primary_pass] in H.
    apply io_bind_inv in H as [(st1 & w1 & Hs & H)|(e & Hs & [=])].
    etrans; [by eapply primary_step_extends|by eapply IH].
Qed.

Lemma sweep_step_extends X m st ext w st' w' :
  sweep_step X m st ext w = (Ok st', w') → st.1 `prefix_of` st'.1.
Proof.
  unfold sweep_step. intros H.
  apply io_bind_inv in H as [(d & w1 & Hf & H)|(e & Hf & [=])].
  destruct (negb (py_truthy d)); [by injection H as <- <-|].
  apply io_bind_inv in H as [(norm & w2 & Hl & H)|(e & Hl & [=])].
  destruct (_ =? _)%nat; injection H as <- <-; by apply prefix_app_r.
Qed.

Lemma sweep_extends X m todo st w st' w' :
  sweep X m todo st w = (Ok st', w') → st.1 `prefix_of` st'.1.
Proof.
  revert st w. induction todo as [|ext rest IH]; intros st w H.
  - by injection H as <- <-.
  - cbn [sweep] in H.
    apply io_bind_inv in H as [(st1 & w1 & Hs & H)|(e & Hs & [=])].
    etrans; [by eapply sweep_step_extends|by eapply IH].
Qed.

(** X18. When a run ends without an exception, the output it returns is the
    output on disk, and it begins with the output that was on disk before, in
    the same order: a run only appends.  The failure list on disk is the one
    of the primary pass; the recovery sweep does not touch it, so an item that
    the sweep recovers is in the output and still listed as failed. *)
Theorem run_persists_its_result X records w out fl w' :
  main X records w = (Ok (out, fl), w') →
  normalized_json w' = Some out
  ∧ failures_json w' = Some fl
  ∧ default [] (normalized_json w) `prefix_of` out
  ∧ ∃ st w1,
      primary_pass X records (start (default [] (normalized_json w))) w = (Ok st, w1)
      ∧ fl = failures st
      ∧ normalized st `prefix_of` out
      ∧ (fl = [] → out = normalized st).
Proof.
  intros H. unfold main in H. cbv zeta in H. revert H.
  generalize (default [] (normalized_json w)). intros prior H.
  apply io_bind_inv in H as [(st & w1 & Hp & H)|(e & Hp & [=])].
  pose proof (primary_pass_extends _ _ _ _ _ _ Hp) as Hext. cbn [start normalized] in Hext.
  apply io_bind_inv in H as [(? & w2 & Hs & H)|(e & Hs & [=])].
  injection Hs as _ <-.
  destruct (bool_decide (failures st = [])) eqn:E.
  { injection H as <- <- <-. split_and!; [done..|]. by exists st, w1. }
  apply bool_decide_eq_false in E.
  apply io_bind_inv in H as [(o & w3 & Hsw & H)|(e & Hsw & [=])].
  apply io_bind_inv in H as [(? & w4 & Hs & H)|(e & Hs & [=])].
  injection Hs as _ <-. injection H as <- <- <-.
  pose proof (sweep_extends _ _ _ _ _ _ _ Hsw) as Hext2. cbn [fst] in Hext2.
  destruct (sweep_budget _ _ _ _ _ _ _ Hsw) as (_ & _ & Hfj & _).
  split_and!.
  - done.
  - cbn. by rewrite Hfj.
  - by etrans.
  - exists st, w1. by split_and!.
Qed.

Lemma run_persists_its_result_witness :
  ∃ out w',
    main (plain_externals (recovers_after 5 detail_two_options))
      [meta_with (Some "e1") None] blank_world
    = (Ok (out, [("missing_or_timeout", "e1")]), w')
    ∧ ids_of out = ["e1"]
    ∧ normalized_json w' = Some out
    ∧ failures_json w' = Some [("missing_or_timeout", "e1")].
Proof.
  eexists _, _. split; [vm_compute; reflexivity|]. split; [reflexivity|].
  refine ((λ H, conj (proj1 H) (proj1 (proj2 H)))
            (run_persists_its_result
               (plain_externals (recovers_after 5 detail_two_options))
               [meta_with (Some "e1") None] blank_world _ _ _ _)).
  vm_compute; reflexivity.
Defined.

(** ** The recovery sweep and the work queue *)

Lemma by_ext_snoc records m :
  by_ext (records ++ [m])
  = match truthy_id (m_external_id m) with
    | Some e => <[e := m]> (by_ext records)
    | None => by_ext records
    end.
Proof. unfold by_ext. by rewrite fold_left_app. Qed.

Lemma truthy_id_Some o s : truthy_id o = Some s → o = Some s.
Proof.
  destruct o as [s'|]; [|done]. cbn. destruct (str_nonempty s'); [|done].
  by intros [= ->].
Qed.

(** The index of the work queue holds, for an identifier, a record that
    carries it, and nothing for an identifier that no record carries. *)
Lemma by_ext_lookup records e :
  match by_ext records !! e with
  | Some m => m ∈ records ∧ m_external_id m = Some e ∧ str_nonempty e = true
  | None => ∀ m, m ∈ records → truthy_id (m_external_id m) ≠ Some e
  end.
Proof.
  induction records as [|m records IH] using rev_ind.
  - unfold by_ext. cbn [fold_left]. rewrite lookup_empty.
    intros m Hm. by apply elem_of_nil in Hm.
  - rewrite by_ext_snoc. destruct (truthy_id (m_external_id m)) as [e'|] eqn:E.
    + destruct (decide (e' = e)) as [->|Hne].
      * rewrite lookup_insert_eq. split_and!.
        -- apply elem_of_app. right. apply list_elem_of_here.
        -- by apply truthy_id_Some.
        -- destruct (m_external_id m) as [s|]; [|done]. cbn in E.
           destruct (str_nonempty s) eqn:Es; [|done]. by injection E as ->.
      * rewrite lookup_insert_ne by done. destruct (by_ext records !! e) as [m'|].
        -- destruct IH as (? & ? & ?). split_and!; [|done..].
           apply elem_of_app. by left.
        -- intros m0 [Hm0|Hm0%list_elem_of_singleton]%elem_of_app; [by apply IH|].
           subst. congruence.
    + destruct (by_ext records !! e) as [m'|].
      * destruct IH as (? & ? & ?). split_and!; [|done..]. apply elem_of_app. by left.
      * intros m0 [Hm0|Hm0%list_elem_of_singleton]%elem_of_app; [by apply IH|].
        subst. congruence.
Qed.

(** X19. A record that the recovery sweep appends takes its identifiers
    from an item of the work queue that carries the retried identifier as its
    external identifier.  When no item does, as for an item that was recorded
    without an external identifier and is retried under its question
    identifier, the record is built from the empty meta: it has no external
    identifier, no [uId], no question identifier and no domain. *)
Theorem sweep_metadata X records st ext w st' w' :
  sweep_step X (by_ext records) st ext w = (Ok st', w') →
  st'.1 = st.1
  ∨ ∃ norm, st'.1 = st.1 ++ [norm]
      ∧ ((∃ meta, meta ∈ records ∧ m_external_id meta = Some ext
                  ∧ n_external_id norm = Some ext
                  ∧ n_uId norm = m_uId meta
                  ∧ n_questionId norm = m_questionId meta)
         ∨ ((∀ meta, meta ∈ records → truthy_id (m_external_id meta) ≠ Some ext)
            ∧ n_external_id norm = None
            ∧ n_uId norm = None
            ∧ n_questionId norm = None
            ∧ n_domain norm = JNull)).
Proof.
  unfold sweep_step. intros H.
  apply io_bind_inv in H as [(d & w1 & Hf & H)|(e & Hf & [=])].
  destruct (negb (py_truthy d)); [left; by injection H as <- <-|].
  apply io_bind_inv in H as [(norm & w2 & Hl & H)|(e & Hl & [=])].
  unfold lift in Hl. injection Hl as Hn <-.
  right. exists norm. split.
  { destruct (_ =? _)%nat; by injection H as <- <-. }
  clear H. pose proof (by_ext_lookup records ext) as Hb.
  destruct (by_ext records !! ext) as [meta|]; cbn [default] in Hn.
  - left. destruct Hb as (Hm & He & _). exists meta.
    unfold normalize_detail in Hn. repeat inv_bind Hn. injection Hn as <-. by cbn.
  - right. split; [done|].
    unfold normalize_detail in Hn. repeat inv_bind Hn. injection Hn as <-. by cbn.
Qed.

Lemma sweep_metadata_witness :
  ∃ norm w',
    sweep_step (plain_externals (answers_with detail_two_options))
      (by_ext [meta_with None (Some "q-17")]) ([], 0%nat) "q-17" blank_world
    = (Ok ([norm], 1%nat), w')
    ∧ n_external_id norm = None
    ∧ n_questionId norm = None.
Proof.
  eexists _, _. split; [vm_compute; reflexivity|].
  destruct (sweep_metadata (plain_externals (answers_with detail_two_options))
              [meta_with None (Some "q-17")] ([], 0%nat) "q-17" blank_world _ _ eq_refl)
    as [H|(norm & H & _)]; [discriminate H|].
  cbn in H. injection H as <-. split; reflexivity.
Defined.

(** X20. The recovery sweep goes past the cache: however it ends, the cache
    and the failure list on disk are as they were before it, and it sends a
    request for the first identifier it retries whether or not the cache has
    a file for it. *)
Theorem sweep_bypasses_cache X m todo st w r w' :
  sweep X m todo st w = (r, w') →
  cache w' = cache w
  ∧ cache_writes w' = cache_writes w
  ∧ failures_json w' = failures_json w
  ∧ (∀ ext rest, todo = ext :: rest →
       ∃ new, requests w' = requests w ++ {| req_id := ext; req_timeout := 90 |} :: new).
Proof.
  intros H. destruct (sweep_budget _ _ _ _ _ _ _ H) as (Hc & Hw & Hf & _).
  split_and!; [done..|]. intros ext rest ->.
  cbn [sweep] in H. apply io_bind_inv in H as [(st1 & w1 & Hs & H)|(e & Hs & ->)].
  - destruct (sweep_step_requests _ _ _ _ _ _ _ Hs) as (n & Hr).
    destruct (sweep_budget _ _ _ _ _ _ _ H) as (_ & _ & _ & new & Hr2 & _).
    rewrite Hr2, Hr. cbn [replicate]. rewrite <-app_assoc. cbn [app]. by eexists.
  - destruct (sweep_step_requests _ _ _ _ _ _ _ Hs) as (n & Hr).
    rewrite Hr. cbn [replicate]. by eexists.
Qed.

Lemma sweep_bypasses_cache_witness :
  ∃ st' w',
    sweep (plain_externals (answers_with detail_two_options)) ∅ ["e1"] ([], 0%nat)
      (world_with_entry "e1" (JsonFile detail_27_options)) = (Ok st', w')
    ∧ cache w' = cache (world_with_entry "e1" (JsonFile detail_27_options))
    ∧ cache_writes w' = []
    ∧ requests w' = [{| req_id := "e1"; req_timeout := 90 |}].
Proof.
  eexists _, _. split; [vm_compute; reflexivity|].
  destruct (sweep_bypasses_cache (plain_externals (answers_with detail_two_options))
              ∅ ["e1"] ([], 0%nat) (world_with_entry "e1" (JsonFile detail_27_options))
              _ _ eq_refl) as (Hc & Hw & _).
  split; [exact Hc|]. split; [exact Hw|reflexivity].
Defined.

(** ** The list stage *)

Lemma unwrap_list_truthy kv records :
  unwrap_list (JDict kv) = Some records → py_truthy records = true.
Proof.
  unfold unwrap_list, py_or. intros [= <-].
  repeat match goal with |- context [if ?b then _ else _] => destruct b eqn:? end; done.
Qed.

(** X21. The list is fetched once.  When [fetch_list] returns a list of
    records, the raw list file holds that list afterwards, and every later call
    returns it from the file whatever the list endpoint would answer.  Without
    a raw list file the records are what the answer of the endpoint unwraps
    to, and the status of the answer was not an error status. *)
Theorem list_is_fetched_once raw answer records raw' :
  fetch_list raw answer = (inr records, raw') →
  raw' = Some (JsonFile records)
  ∧ (∀ answer', fetch_list raw' answer' = (inr records, raw'))
  ∧ (raw = None →
     ∃ status data, answer = Http status (Some data)
                    ∧ raises_for_status status = false
                    ∧ unwrap_list data = Some records).
Proof.
  unfold fetch_list. intros H. destruct raw as [[j|]|].
  - injection H as <- <-. by split_and!.
  - done.
  - destruct answer as [|e|status [data|]]; try done.
    + destruct (raises_for_status status) eqn:Es; [done|].
      destruct (unwrap_list data) as [rec|] eqn:Eu; [|done].
      injection H as <- <-. split_and!; [done|done|]. intros _. by exists status, data.
    + by destruct (raises_for_status status).
Qed.

Lemma list_is_fetched_once_witness :
  ∃ raw',
    fetch_list None
      (Http 200 (Some (JDict [("items", JList [JDict [("external_id", JStr "e1")]])])))
    = (inr (JList [JDict [("external_id", JStr "e1")]]), raw')
    ∧ fetch_list raw' Timeout = (inr (JList [JDict [("external_id", JStr "e1")]]), raw').
Proof.
  eexists. split; [reflexivity|].
  apply (proj1 (proj2 (list_is_fetched_once None
    (Http 200 (Some (JDict [("items", JList [JDict [("external_id", JStr "e1")]])])))
    _ _ eq_refl))).
Defined.

(** X22. A dict that the list endpoint answers with never gives an empty
    list of records.  What [fetch_list] returns and writes to the raw list
    file for it is not empty; and when none of the four keys holds a value
    that is not empty, as in the answer to a query that found nothing, the
    result is the list of one record that is the answer itself. *)
Theorem dict_answer_is_never_empty kv status :
  raises_for_status status = false →
  ∃ records,
    fetch_list None (Http status (Some (JDict kv)))
    = (inr records, Some (JsonFile records))
    ∧ py_truthy records = true
    ∧ (py_truthy (of_opt (dict_get kv "items")) = false →
       py_truthy (of_opt (dict_get kv "data")) = false →
       py_truthy (of_opt (dict_get kv "rows")) = false →
       py_truthy (of_opt (dict_get kv "questions")) = false →
       records = JList [JDict kv]).
Proof.
  intros Hs. destruct (unwrap_list (JDict kv)) as [records|] eqn:E; [|done].
  exists records. split_and!.
  - unfold fetch_list. by rewrite Hs, E.
  - by eapply unwrap_list_truthy.
  - intros H1 H2 H3 H4. unfold unwrap_list, py_or in E.
    rewrite H1, H2, H3, H4 in E. by injection E as <-.
Qed.

Lemma dict_answer_is_never_empty_witness :
  fetch_list None (Http 200 (Some empty_envelope))
  = (inr (JList [empty_envelope]), Some (JsonFile (JList [empty_envelope]))).
Proof.
  destruct (dict_answer_is_never_empty [("items", JList []); ("total", JNum 0)] 200 eq_refl)
    as (records & H & _ & Hr).
  rewrite (Hr eq_refl eq_refl eq_refl eq_refl) in H. exact H.
Defined.

(** ** File names for downloaded images *)

Lemma basename_aux_no_slash cur p :
  no_slash cur → no_slash (basename_aux cur p).
Proof.
  revert cur. induction p as [|c p IH]; intros cur H; [done|].
  cbn [basename_aux]. destruct (Ascii.eqb c "/") eqn:E.
  - apply IH. constructor.
  - apply IH. unfold no_slash. rewrite list_ascii_snoc. apply Forall_app. split; [done|].
    constructor; [|constructor]. by apply Ascii.eqb_neq in E.
Qed.

Lemma basename_aux_plain cur p : no_slash p → basename_aux cur p = cur +:+ p.
Proof.
  revert cur. induction p as [|c p IH]; intros cur H.
  - by rewrite str_app_nil_r.
  - unfold no_slash in H. cbn [String.list_ascii_of_string] in H.
    apply Forall_cons in H as [Hc H]. cbn [basename_aux].
    apply Ascii.eqb_neq in Hc. rewrite Hc, (IH _ H), str_app_assoc. done.
Qed.

Lemma basename_aux_last cur dir name :
  no_slash name → basename_aux cur (dir +:+ "/" +:+ name) = name.
Proof.
  intros Hn. revert cur. induction dir as [|c dir IH]; intros cur.
  - rewrite str_app_nil_l, str_app_cons, str_app_nil_l.
    cbn [basename_aux]. rewrite Ascii.eqb_refl.
    by rewrite basename_aux_plain, str_app_nil_l.
  - rewrite str_app_cons. cbn [basename_aux]. destruct (Ascii.eqb c "/"); apply IH.
Qed.

Lemma filename_from_url_base url_path u :
  filename_from_url url_path u
  = if str_nonempty (basename (url_path u)) then basename (url_path u) else "image".
Proof. unfold filename_from_url. cbv zeta. by destruct (negb _). Qed.

Lemma filename_from_url_example :
  filename_from_url (λ u, u) "/img/a/b.png" = "b.png"
  ∧ filename_from_url (λ u, u) "/img/a/" = "image"
  ∧ filename_from_url (λ u, u) "" = "image".
Proof. by vm_compute. Qed.

(** X23. The file name taken from the address of an image is never empty
    and has no path separator in it.  It is what follows the last separator
    of the path of the address, the whole path when that has no separator,
    and the name [image] when that would be empty. *)
Theorem filename_is_last_segment url_path u :
  no_slash (filename_from_url url_path u)
  ∧ str_nonempty (filename_from_url url_path u) = true
  ∧ (∀ dir name, url_path u = dir +:+ "/" +:+ name → no_slash name →
       filename_from_url url_path u = if str_nonempty name then name else "image")
  ∧ (no_slash (url_path u) →
     filename_from_url url_path u
     = if str_nonempty (url_path u) then url_path u else "image").
Proof.
  rewrite filename_from_url_base. split_and!.
  - destruct (str_nonempty (basename (url_path u))).
    + apply basename_aux_no_slash. constructor.
    + unfold no_slash. cbn. repeat constructor; discriminate.
  - by destruct (str_nonempty (basename (url_path u))) eqn:E.
  - intros dir name -> Hn. unfold basename. by rewrite basename_aux_last.
  - intros Hn. unfold basename. by rewrite basename_aux_plain, str_app_nil_l.
Qed.

Lemma filename_is_last_segment_witness :
  filename_from_url (λ u, u) "/img/a/b.png" = "b.png".
Proof.
  refine (proj1 (proj2 (proj2 (filename_is_last_segment (λ u, u) "/img/a/b.png")))
            "/img/a" "b.png" eq_refl _).
  unfold no_slash. cbn. repeat constructor; discriminate.
Defined.

(** ** Every item is accounted for *)

Lemma get_detail_cached X id w d w' :
  get_detail_with_cache X id w = (Ok d, w') → py_truthy d = true →
  cache w' !! cache_path id = Some (JsonFile d).
Proof.
  intros H Ht.
  destruct (get_detail_with_cache_cases X id w)
    as [(d0 & Hc & E)|[(_ & E)|(_ & r1 & w1 & _ & _
         & [(e & _ & E)|[(d0 & _ & _ & E)|(d0 & _ & _ & _ & E)]])]];
    rewrite E in H; try done.
  - by injection H as <- <-.
  - injection H as <- <-. done.
  - injection H as <- <-. cbn. by rewrite lookup_insert_eq.
Qed.

Lemma primary_step_accounts X st meta w st' w' :
  primary_step X st meta w = (Ok st', w') →
  match truthy_id (m_external_id meta) with
  | Some e => (e ∈ seen_ids st') ∨ ("missing_or_timeout", e) ∈ failures st'
  | None => ("missing_external_id", fallback_id meta) ∈ failures st'
  end
  ∧ ∀ q, q ∈ normalized st' →
      q ∈ normalized st
      ∨ ∃ e d, truthy_id (m_external_id meta) = Some e
               ∧ cache w' !! cache_path e = Some (JsonFile d)
               ∧ normalize_detail X d meta = Ok q.
Proof.
  intros H. destruct (primary_step_cases _ _ _ _ _ _ H)
    as [(-> & id & Hid & Hs & ->)|[(Hn & _ & Hf & Hid & ->)
       |[(id & Hid & _ & Hn & _ & Hf & _)
        |(id & d & norm & w1 & Hid & _ & Hg & Ht & Hnorm & Hn & Hs & Hf & _ & Hc)]]];
    rewrite Hid.
  - split; [by left|]. intros q Hq. by left.
  - split; [rewrite Hf; apply elem_of_app; right; apply list_elem_of_here|].
    intros q Hq. left. by rewrite <-Hn.
  - split; [right; rewrite Hf; apply elem_of_app; right; apply list_elem_of_here|].
    intros q Hq. left. by rewrite <-Hn.
  - split; [left; rewrite Hs; apply elem_of_union; left; by apply elem_of_singleton|].
    intros q Hq. rewrite Hn in Hq. apply elem_of_app in Hq as [Hq|Hq%list_elem_of_singleton].
    + by left.
    + subst q. right. exists id, d. split_and!; [done| |done].
      rewrite Hc. by eapply get_detail_cached.
Qed.

(** X24. The primary pass drops no item and invents no record.  When it
    ends, every item of the work queue with an external identifier has that
    identifier in the resumption set or is recorded as missing or timed out,
    and every item without one is recorded as lacking it.  Every record of
    the output was in the output before the pass, or is what the normalizer
    makes of the cache entry of an item of the queue, an entry that is in the
    cache when the pass ends. *)
Theorem every_item_is_accounted_for X records st w st' w' :
  primary_pass X records st w = (Ok st', w') →
  (∀ meta, meta ∈ records →
     match truthy_id (m_external_id meta) with
     | Some e => (e ∈ seen_ids st') ∨ ("missing_or_timeout", e) ∈ failures st'
     | None => ("missing_external_id", fallback_id meta) ∈ failures st'
     end)
  ∧ (∀ q, q ∈ normalized st' →
       q ∈ normalized st
       ∨ ∃ meta e d, meta ∈ records
                     ∧ truthy_id (m_external_id meta) = Some e
                     ∧ cache w' !! cache_path e = Some (JsonFile d)
                     ∧ normalize_detail X d meta = Ok q).
Proof.
  revert st w. induction records as [|meta rest IH]; intros st w H.
  - injection H as <- <-. split; [by intros meta ?%elem_of_nil|]. intros q Hq. by left.
  - cbn [primary_pass] in H.
    apply io_bind_inv in H as [(st1 & w1 & Hs & H)|(e & Hs & [=])].
    destruct (primary_step_accounts _ _ _ _ _ _ Hs) as [Ha Hq1].
    destruct (IH _ _ H) as [Hall Hq2].
    destruct (primary_pass_grows _ _ _ _ _ _ H) as [(l & Hfl) Hseen].
    pose proof (grows_primary_pass _ _ _ _ _ _ H) as Hgrow.
    split.
    + intros m [->|Hm]%elem_of_cons; [|by apply Hall].
      destruct (truthy_id (m_external_id meta)) as [e|].
      * destruct Ha as [Ha|Ha]; [left; by apply Hseen|right].
        rewrite Hfl. apply elem_of_app. by left.
      * rewrite Hfl. apply elem_of_app. by left.
    + intros q Hq. destruct (Hq2 q Hq) as [Hq'|(m & e & d & Hm & He & Hc & Hn)].
      * destruct (Hq1 q Hq') as [?|(e & d & He & Hc & Hn)]; [by left|].
        right. exists meta, e, d. split_and!; [apply list_elem_of_here|done| |done].
        by eapply cache_grows_keeps.
      * right. exists m, e, d. split_and!; [by apply list_elem_of_further|done..].
Qed.

Lemma every_item_is_accounted_for_witness :
  ∃ st w',
    primary_pass (plain_externals (recovers_after 5 detail_two_options))
      [meta_with None (Some "q-17"); meta_with (Some "e1") None; meta_with (Some "e2") None]
      (start []) blank_world = (Ok st, w')
    ∧ failures st = [("missing_external_id", "q-17"); ("missing_or_timeout", "e1")]
    ∧ ids_of (normalized st) = ["e2"]
    ∧ (("e2" ∈ seen_ids st) ∨ ("missing_or_timeout", "e2") ∈ failures st).
Proof.
  eexists _, _. split; [vm_compute; reflexivity|]. split; [reflexivity|].
  split; [reflexivity|].
  refine (proj1 (every_item_is_accounted_for
            (plain_externals (recovers_after 5 detail_two_options))
            [meta_with None (Some "q-17"); meta_with (Some "e1") None;
             meta_with (Some "e2") None]
            (start []) blank_world _ _ _) (meta_with (Some "e2") None) _).
  - vm_compute; reflexivity.
  - set_solver.
Defined.

(** ** The cache and the two passes *)




